(** * PlanningAndControl: world model, path cursor and weighted A* planner

    A shallow embedding of [SparseWorld/Environment.py] and
    [SparseWorld/Planner.py].  Python floats are idealised as rationals
    ([Q]): comparisons are the ones of the source, arithmetic is exact.
    Python exceptions are explicit ([result]), unbounded [while] loops
    take fuel. *)

From Stdlib Require Import ZArith QArith Qround Qabs Lia Lqa List Bool.
From stdpp Require Import gmap list fin_maps.
Import ListNotations.

Close Scope Q_scope.
Local Open Scope Z_scope.

(** ** Python values shared by both files *)

Module Py.

(** The exceptions the modelled code can raise. *)
Inductive exn :=
  IndexError | TypeError | AttributeError | ZeroDivisionError | KeyError.

Inductive result (A : Type) : Type :=
| Ok (a : A)
| Raise (e : exn).
Arguments Ok {A} a.
Arguments Raise {A} e.

Definition bind {A B} (r : result A) (k : A -> result B) : result B :=
  match r with
  | Ok a => k a
  | Raise e => Raise e
  end.

(** Strict order on floats, [a < b]. *)
Definition Qltb (a b : Q) : bool := negb (Qle_bool b a).

(** The builtins [min(a, b)] and [max(a, b)]: the first argument wins ties. *)
Definition py_min (a b : Q) : Q := if Qltb b a then b else a.
Definition py_max (a b : Q) : Q := if Qltb a b then b else a.

(** Index normalisation of a sequence of length [len]: negative indices
    count from the end, anything else out of range is an [IndexError]. *)
Definition norm_index (len i : Z) : option Z :=
  if (0 <=? i) && (i <? len) then Some i
  else if (- len <=? i) && (i <? 0) then Some (i + len)
  else None.

(** [l[i]] on a Python list or on the first axis of an array. *)
Definition getitem {A} (l : list A) (i : Z) : result A :=
  match norm_index (Z.of_nat (length l)) i with
  | Some k =>
      match nth_error l (Z.to_nat k) with
      | Some x => Ok x
      | None => Raise IndexError
      end
  | None => Raise IndexError
  end.

(** [range(a, b)] *)
Definition range (a b : Z) : list Z :=
  map (fun k => a + Z.of_nat k) (seq 0 (Z.to_nat (b - a))).

Lemma Qltb_lt a b : Qltb a b = true <-> (a < b)%Q.
Proof.
  unfold Qltb. rewrite negb_true_iff.
  split.
  - intros H. apply Qnot_le_lt. intros Hle.
    apply Qle_bool_iff in Hle. congruence.
  - intros H. destruct (Qle_bool b a) eqn:E; [|reflexivity].
    apply Qle_bool_iff in E. exfalso. exact (Qlt_not_le _ _ H E).
Qed.

Lemma Qltb_ge a b : Qltb a b = false <-> (b <= a)%Q.
Proof.
  unfold Qltb. rewrite negb_false_iff. apply Qle_bool_iff.
Qed.

Lemma norm_index_in_range len i :
  0 <= i < len -> norm_index len i = Some i.
Proof.
  intros H. unfold norm_index.
  destruct (0 <=? i) eqn:E1; [|lia].
  destruct (i <? len) eqn:E2; [reflexivity|lia].
Qed.

Lemma getitem_in_range {A} (l : list A) (i : Z) :
  0 <= i < Z.of_nat (length l) ->
  exists x, nth_error l (Z.to_nat i) = Some x /\ getitem l i = Ok x.
Proof.
  intros H. unfold getitem. rewrite norm_index_in_range by exact H.
  destruct (nth_error l (Z.to_nat i)) as [x|] eqn:E.
  - exists x. split; reflexivity.
  - apply nth_error_None in E. lia.
Qed.

Lemma getitem_past_end {A} (l : list A) (i : Z) :
  Z.of_nat (length l) <= i -> getitem l i = Raise IndexError.
Proof.
  intros H. unfold getitem, norm_index.
  destruct (Z.ltb_spec i (Z.of_nat (length l))); [lia|].
  rewrite andb_false_r.
  destruct (Z.ltb_spec i 0); [lia|].
  rewrite andb_false_r. reflexivity.
Qed.

Lemma length_range a b : length (range a b) = Z.to_nat (b - a).
Proof. unfold range. rewrite length_map, length_seq. reflexivity. Qed.

Lemma in_range a b i : In i (range a b) <-> a <= i < b.
Proof.
  unfold range. rewrite in_map_iff. split.
  - intros [k [<- Hk]]. apply in_seq in Hk. lia.
  - intros H. exists (Z.to_nat (i - a)). split; [lia|].
    apply in_seq. lia.
Qed.

End Py.

(** ** Environment.py: the continuous world model *)

Module Env.
Import Py.
Local Open Scope Q_scope.

Definition point := (Q * Q)%type.

Definition padd (p q : point) : point := (fst p + fst q, snd p + snd q).
Definition psub (p q : point) : point := (fst p - fst q, snd p - snd q).
Definition pscale (t : Q) (p : point) : point := (t * fst p, t * snd p).

(** [p[i]] for a two-dimensional position. *)
Definition coord (p : point) (i : nat) : Q :=
  match i with
  | O => fst p
  | S _ => snd p
  end.

(** The three namedtuples of the module. *)
Record Obstacle := { top : Q; left : Q; bottom : Q; right : Q }.
Record RayTraceResult := { collide : bool; endpoint : point }.
Record ScanResult := { angle : Q; range : Q }.

(** Floats extended with the two infinities that [tmin] and [tmax] start
    from. *)
Inductive ext := NegInf | Fin (q : Q) | PosInf.

Definition ext_lt (a b : ext) : bool :=
  match a, b with
  | NegInf, NegInf => false
  | NegInf, _ => true
  | Fin _, NegInf => false
  | Fin x, Fin y => Qltb x y
  | Fin _, PosInf => true
  | PosInf, _ => false
  end.

(** [max(tmin, q)] and [min(tmax, q)] with a finite second argument. *)
Definition ext_max (a : ext) (q : Q) : ext :=
  match a with
  | NegInf => Fin q
  | Fin x => Fin (py_max x q)
  | PosInf => PosInf
  end.

Definition ext_min (a : ext) (q : Q) : ext :=
  match a with
  | NegInf => NegInf
  | Fin x => Fin (py_min x q)
  | PosInf => Fin q
  end.

(** [position_in_obstacle]: the rectangle test, edges included. *)
Definition position_in_obstacle (pos : point) (obs : Obstacle) : bool :=
  Qle_bool (left obs) (fst pos) && Qle_bool (fst pos) (right obs)
  && Qle_bool (bottom obs) (snd pos) && Qle_bool (snd pos) (top obs).

(** The [for i in range(p0.shape[0])] loop of [ray_intersect_obstacle] over
    the box [lo = (left, bottom)], [hi = (right, top)].  [None] is the
    early [return] of the [elif] branch. *)
Fixpoint slab_loop (axes : list nat) (p0 d lo hi : point) (tmin tmax : ext)
  : option (ext * ext) :=
  match axes with
  | [] => Some (tmin, tmax)
  | i :: rest =>
      if negb (Qeq_bool (coord d i) 0) then
        let t1 := (coord lo i - coord p0 i) / coord d i in
        let t2 := (coord hi i - coord p0 i) / coord d i in
        slab_loop rest p0 d lo hi
          (ext_max tmin (py_min t1 t2)) (ext_min tmax (py_max t1 t2))
      else if Qle_bool (coord p0 i) (coord lo i)
              || Qle_bool (coord hi i) (coord p0 i) then None
      else slab_loop rest p0 d lo hi tmin tmax
  end.

(** [p0 + tmin * d].  [tmin] is finite whenever the collision branch is
    reached (lemma [slab_interval_finite] below); the other cases are kept
    only to make the function total. *)
Definition advance (p0 : point) (tmin : ext) (d : point) : point :=
  match tmin with
  | Fin t => padd p0 (pscale t d)
  | _ => p0
  end.

Definition ray_intersect_obstacle (ray : point * point) (obs : Obstacle)
  : RayTraceResult :=
  let p0 := fst ray in
  let p1 := snd ray in
  let d := psub p1 p0 in
  if position_in_obstacle p0 obs then
    {| collide := false; endpoint := p0 |}
  else
    match slab_loop [0%nat; 1%nat] p0 d
            (left obs, bottom obs) (right obs, top obs) NegInf PosInf with
    | None => {| collide := false; endpoint := p1 |}
    | Some (tmin, tmax) =>
        if ext_lt tmin tmax && ext_lt (Fin 0) tmax && ext_lt tmin (Fin 1)
        then {| collide := true; endpoint := advance p0 tmin d |}
        else {| collide := false; endpoint := p1 |}
    end.



Section WorldModel.

(** The motion-model contract: the state type, [step] and the position
    projection; [MotionModels.py] is an external collaborator. *)
Variables State Input : Type.
Variable step : State -> Input -> bool -> State.
Variable state_2_position : State -> point.

(** numpy's [cos], [sin] and [linalg.norm] on floats. *)
Variables cos sin : Q -> Q.
Variable norm : point -> Q.

Record Environment := {
  env_size : point;
  _agent_state : State;
  _obstacles : list Obstacle
}.


Definition add_obstacle (E : Environment) (obs : Obstacle)
  : bool * Environment :=
  if Qle_bool 0 (left obs) && Qle_bool (right obs) (fst (env_size E))
     && Qle_bool 0 (bottom obs) && Qle_bool (top obs) (snd (env_size E))
  then (true, {| env_size := env_size E;
                 _agent_state := _agent_state E;
                 _obstacles := _obstacles E ++ [obs] |})
  else (false, E).

Definition position_out_of_bounds (E : Environment) (pos : point) : bool :=
  Qltb (fst pos) 0 || Qltb (fst (env_size E)) (fst pos)
  || Qltb (snd pos) 0 || Qltb (snd (env_size E)) (snd pos).

Definition state_out_of_bounds (E : Environment) (s : State) : bool :=
  position_out_of_bounds E (state_2_position s).

Definition state_in_obstacle (s : State) (obs : Obstacle) : bool :=
  position_in_obstacle (state_2_position s) obs.

Fixpoint state_in_obstacles_loop (obss : list Obstacle) (s : State) : bool :=
  match obss with
  | [] => false
  | obs :: rest =>
      if state_in_obstacle s obs then true
      else state_in_obstacles_loop rest s
  end.

Definition state_in_obstacles (E : Environment) (s : State) : bool :=
  state_in_obstacles_loop (_obstacles E) s.

Definition agent_take_step (E : Environment) (input : Input)
  (braking : bool) : bool * Environment :=
  let new_state := step (_agent_state E) input braking in
  if negb (state_out_of_bounds E new_state)
     && negb (state_in_obstacles E new_state)
  then (true, {| env_size := env_size E;
                 _agent_state := new_state;
                 _obstacles := _obstacles E |})
  else (false, E).

Fixpoint ray_intersect_obstacles_loop (obss : list Obstacle)
  (ray : point * point) (int_points : list point) : list point :=
  match obss with
  | [] => int_points
  | obs :: rest =>
      let result := ray_intersect_obstacle ray obs in
      ray_intersect_obstacles_loop rest ray
        (if collide result then int_points ++ [endpoint result]
         else int_points)
  end.

Definition ray_intersect_obstacles (E : Environment) (ray : point * point)
  : list point :=
  ray_intersect_obstacles_loop (_obstacles E) ray [].




(** *** Obstacle insertion and agent steps *)

Definition within_world (E : Environment) (obs : Obstacle) : Prop :=
  0 <= left obs /\ right obs <= fst (env_size E)
  /\ 0 <= bottom obs /\ top obs <= snd (env_size E).

Lemma add_obstacle_accepts E obs :
  within_world E obs ->
  add_obstacle E obs
  = (true, {| env_size := env_size E; _agent_state := _agent_state E;
              _obstacles := _obstacles E ++ [obs] |}).
Proof.
  intros (H1 & H2 & H3 & H4). unfold add_obstacle.
  apply Qle_bool_iff in H1, H2, H3, H4.
  rewrite H1, H2, H3, H4. reflexivity.
Qed.

Lemma add_obstacle_rejects E obs :
  ~ within_world E obs -> add_obstacle E obs = (false, E).
Proof.
  intros Hn. unfold add_obstacle.
  destruct (Qle_bool 0 (left obs)) eqn:E1;
    destruct (Qle_bool (right obs) (fst (env_size E))) eqn:E2;
    destruct (Qle_bool 0 (bottom obs)) eqn:E3;
    destruct (Qle_bool (top obs) (snd (env_size E))) eqn:E4;
    try reflexivity.
  exfalso. apply Hn. unfold within_world.
  rewrite <- !Qle_bool_iff. auto.
Qed.

(** C8: [add_obstacle] appends the obstacle and succeeds exactly when the
    four edges are within the world bounds; otherwise it fails and the
    obstacle list (indeed the whole environment) is unchanged. *)
Theorem add_obstacle_iff_within_bounds (E : Environment) (obs : Obstacle) :
  (fst (add_obstacle E obs) = true <-> within_world E obs)
  /\ (fst (add_obstacle E obs) = true ->
      _obstacles (snd (add_obstacle E obs)) = _obstacles E ++ [obs])
  /\ (~ within_world E obs ->
      fst (add_obstacle E obs) = false /\ snd (add_obstacle E obs) = E).
Proof.
  split; [split|split].
  - intros Hs. unfold add_obstacle in Hs.
    destruct (Qle_bool 0 (left obs)) eqn:E1;
      destruct (Qle_bool (right obs) (fst (env_size E))) eqn:E2;
      destruct (Qle_bool 0 (bottom obs)) eqn:E3;
      destruct (Qle_bool (top obs) (snd (env_size E))) eqn:E4;
      simpl in Hs; try discriminate.
    unfold within_world. rewrite <- !Qle_bool_iff. auto.
  - intros Hw. rewrite add_obstacle_accepts by exact Hw. reflexivity.
  - intros Hs.
    destruct (add_obstacle E obs) as [b E'] eqn:Ha. simpl in *. subst b.
    unfold add_obstacle in Ha.
    destruct (Qle_bool 0 (left obs) && Qle_bool (right obs) (fst (env_size E))
              && Qle_bool 0 (bottom obs)
              && Qle_bool (top obs) (snd (env_size E)));
      inversion Ha; reflexivity.
  - intros Hn. rewrite add_obstacle_rejects by exact Hn. split; reflexivity.
Qed.

(** The committed position is acceptable: inside the closed world
    rectangle and inside no obstacle, edges of the obstacles included. *)
Definition in_world (E : Environment) (pos : point) : Prop :=
  0 <= fst pos /\ fst pos <= fst (env_size E)
  /\ 0 <= snd pos /\ snd pos <= snd (env_size E).

Definition inside (pos : point) (obs : Obstacle) : Prop :=
  left obs <= fst pos /\ fst pos <= right obs
  /\ bottom obs <= snd pos /\ snd pos <= top obs.

Lemma position_in_obstacle_iff pos obs :
  position_in_obstacle pos obs = true <-> inside pos obs.
Proof.
  unfold position_in_obstacle, inside.
  rewrite !andb_true_iff, !Qle_bool_iff. tauto.
Qed.

Lemma position_out_of_bounds_iff E pos :
  position_out_of_bounds E pos = false <-> in_world E pos.
Proof.
  unfold position_out_of_bounds, in_world.
  rewrite !orb_false_iff, !Qltb_ge. tauto.
Qed.

Lemma state_in_obstacles_loop_iff obss s :
  state_in_obstacles_loop obss s = true
  <-> exists obs, In obs obss /\ inside (state_2_position s) obs.
Proof.
  induction obss as [|o rest IH]; simpl.
  - split; [discriminate|]. intros (obs & [] & _).
  - unfold state_in_obstacle.
    destruct (position_in_obstacle (state_2_position s) o) eqn:Ho.
    + split; [|reflexivity]. intros _. exists o. split; [now left|].
      now apply position_in_obstacle_iff.
    + rewrite IH. split.
      * intros (obs & Hin & Hi). exists obs. split; [now right|exact Hi].
      * intros (obs & [->|Hin] & Hi).
        -- apply position_in_obstacle_iff in Hi. congruence.
        -- exists obs. split; assumption.
Qed.

Definition acceptable (E : Environment) (s : State) : Prop :=
  in_world E (state_2_position s)
  /\ forall obs, In obs (_obstacles E) -> ~ inside (state_2_position s) obs.

(** C9: [agent_take_step] commits the candidate state of the motion model
    and returns [True] exactly when its position is within the world
    bounds and inside no obstacle (edges included); otherwise it returns
    [False] and the environment is unchanged.  The function is total:
    there is no raising path. *)
Theorem agent_take_step_commits_iff_acceptable
  (E : Environment) (input : Input) (braking : bool) :
  let new_state := step (_agent_state E) input braking in
  let r := agent_take_step E input braking in
  (fst r = true <-> acceptable E new_state)
  /\ (fst r = true ->
      _agent_state (snd r) = new_state
      /\ _obstacles (snd r) = _obstacles E
      /\ env_size (snd r) = env_size E)
  /\ (fst r = false -> snd r = E).
Proof.
  intros new_state r. subst r. unfold agent_take_step. fold new_state.
  unfold acceptable, state_out_of_bounds, state_in_obstacles.
  destruct (position_out_of_bounds E (state_2_position new_state)) eqn:Hb;
    destruct (state_in_obstacles_loop (_obstacles E) new_state) eqn:Ho;
    simpl.
  - split; [|split]; try discriminate; try reflexivity.
    split; [discriminate|]. intros [Hw _].
    apply position_out_of_bounds_iff in Hw. congruence.
  - split; [|split]; try discriminate; try reflexivity.
    split; [discriminate|]. intros [Hw _].
    apply position_out_of_bounds_iff in Hw. congruence.
  - split; [|split]; try discriminate; try reflexivity.
    split; [discriminate|]. intros [_ Hn].
    apply state_in_obstacles_loop_iff in Ho.
    destruct Ho as (obs & Hin & Hi). exfalso. exact (Hn obs Hin Hi).
  - split; [|split]; try discriminate; auto.
    split; [|reflexivity]. intros _. split.
    + now apply position_out_of_bounds_iff.
    + intros obs Hin Hi.
      assert (state_in_obstacles_loop (_obstacles E) new_state = true)
        as Ht by (apply state_in_obstacles_loop_iff; eauto).
      congruence.
Qed.

(** *** Cone scans *)

(** The collision points of a ray, obstacle by obstacle. *)
Definition collision_points (E : Environment) (ray : point * point)
  : list point :=
  map (fun obs => endpoint (ray_intersect_obstacle ray obs))
    (List.filter (fun obs => collide (ray_intersect_obstacle ray obs))
       (_obstacles E)).


Lemma ray_intersect_obstacles_loop_app obss ray acc :
  ray_intersect_obstacles_loop obss ray acc
  = acc ++ map (fun obs => endpoint (ray_intersect_obstacle ray obs))
             (List.filter (fun obs => collide (ray_intersect_obstacle ray obs)) obss).
Proof.
  revert acc. induction obss as [|o rest IH]; intros acc; simpl.
  - now rewrite app_nil_r.
  - rewrite IH. destruct (collide (ray_intersect_obstacle ray o)); simpl.
    + now rewrite <- app_assoc.
    + reflexivity.
Qed.

Lemma ray_intersect_obstacles_collects E ray :
  ray_intersect_obstacles E ray = collision_points E ray.
Proof.
  unfold ray_intersect_obstacles. now rewrite ray_intersect_obstacles_loop_app.
Qed.


Lemma py_min_cases a b :
  (py_min a b = a /\ a <= b) \/ (py_min a b = b /\ b <= a).
Proof.
  unfold py_min. destruct (Qltb b a) eqn:Hlt.
  - right. split; [reflexivity|]. apply Qltb_lt in Hlt. now apply Qlt_le_weak.
  - left. split; [reflexivity|]. now apply Qltb_ge.
Qed.






End WorldModel.

(** *** Ray against one axis-aligned box *)

(** The slab interval as the design describes it: over the axes with a
    non-zero directional component, the running [tmin, tmax] narrowed by
    each axis's entry and exit parameters. *)
Fixpoint slab_interval (axes : list nat) (p0 d lo hi : point)
  (tmin tmax : ext) : ext * ext :=
  match axes with
  | [] => (tmin, tmax)
  | i :: rest =>
      if Qeq_bool (coord d i) 0 then slab_interval rest p0 d lo hi tmin tmax
      else
        let t1 := (coord lo i - coord p0 i) / coord d i in
        let t2 := (coord hi i - coord p0 i) / coord d i in
        slab_interval rest p0 d lo hi
          (ext_max tmin (py_min t1 t2)) (ext_min tmax (py_max t1 t2))
  end.

(** Axis [i] has no directional component and the origin is not strictly
    between the two faces of the box on that axis. *)
Definition grazes (p0 d lo hi : point) (i : nat) : Prop :=
  coord d i == 0 /\ (coord p0 i <= coord lo i \/ coord hi i <= coord p0 i).

Definition grazesb (p0 d lo hi : point) (i : nat) : bool :=
  Qeq_bool (coord d i) 0
  && (Qle_bool (coord p0 i) (coord lo i) || Qle_bool (coord hi i) (coord p0 i)).

(** Same, with the origin strictly outside the closed slab. *)
Definition outside_slab (p0 d lo hi : point) (i : nat) : Prop :=
  coord d i == 0 /\ (coord p0 i < coord lo i \/ coord hi i < coord p0 i).

Lemma grazesb_iff p0 d lo hi i :
  grazesb p0 d lo hi i = true <-> grazes p0 d lo hi i.
Proof.
  unfold grazesb, grazes.
  rewrite andb_true_iff, orb_true_iff, Qeq_bool_iff, !Qle_bool_iff.
  reflexivity.
Qed.

Lemma slab_loop_interval axes p0 d lo hi tmin tmax :
  slab_loop axes p0 d lo hi tmin tmax
  = if existsb (grazesb p0 d lo hi) axes then None
    else Some (slab_interval axes p0 d lo hi tmin tmax).
Proof.
  revert tmin tmax. induction axes as [|i rest IH]; intros tmin tmax.
  - reflexivity.
  - simpl. unfold grazesb at 1.
    destruct (Qeq_bool (coord d i) 0) eqn:Hz; simpl.
    + destruct (Qle_bool (coord p0 i) (coord lo i)
                || Qle_bool (coord hi i) (coord p0 i)); simpl.
      * reflexivity.
      * apply IH.
    + apply IH.
Qed.

(** A ray whose origin is outside the box and that no axis rejects has a
    directional component on some axis, so both ends of the interval are
    finite. *)
Lemma slab_interval_finite p0 d obs :
  position_in_obstacle p0 obs = false ->
  existsb (grazesb p0 d (left obs, bottom obs) (right obs, top obs))
    [0%nat; 1%nat] = false ->
  exists tmin tmax,
    slab_interval [0%nat; 1%nat] p0 d
      (left obs, bottom obs) (right obs, top obs) NegInf PosInf
    = (Fin tmin, Fin tmax).
Proof.
  intros Hout Hg. simpl in Hg.
  apply orb_false_iff in Hg. destruct Hg as [Hg0 Hg1].
  apply orb_false_iff in Hg1. destruct Hg1 as [Hg1 _].
  unfold grazesb in Hg0, Hg1. simpl in Hg0, Hg1. simpl.
  destruct (Qeq_bool (fst d) 0) eqn:Hd0;
    destruct (Qeq_bool (snd d) 0) eqn:Hd1; simpl in *;
    try (eexists; eexists; reflexivity).
  exfalso.
  apply orb_false_iff in Hg0, Hg1.
  destruct Hg0 as [A1 A2]. destruct Hg1 as [B1 B2].
  assert (position_in_obstacle p0 obs = true) as Hin; [|congruence].
  unfold position_in_obstacle. rewrite !andb_true_iff, !Qle_bool_iff.
  assert (forall a b, Qle_bool a b = false -> b <= a) as Hflip.
  { intros a b Hf. apply Qlt_le_weak. apply Qltb_lt.
    unfold Qltb. rewrite Hf. reflexivity. }
  auto.
Qed.

(** C5 (as the code has it): a ray that starts inside the obstacle reports
    no collision with the origin as endpoint; otherwise a ray with a zero
    directional component on an axis where the origin is outside the slab
    or on one of its two faces reports no collision; otherwise it collides
    iff [tmax > tmin], [tmax > 0] and [tmin < 1], at [p0 + tmin * (p1 - p0)];
    and whenever no collision is reported for a ray that starts outside the
    obstacle, the endpoint is the far end [p1]. *)
Theorem ray_intersect_obstacle_cases (p0 p1 : point) (obs : Obstacle) :
  let d := psub p1 p0 in
  let lo := (left obs, bottom obs) in
  let hi := (right obs, top obs) in
  let r := ray_intersect_obstacle (p0, p1) obs in
  (position_in_obstacle p0 obs = true ->
   r = {| collide := false; endpoint := p0 |})
  /\ (position_in_obstacle p0 obs = false ->
      (grazes p0 d lo hi 0 \/ grazes p0 d lo hi 1) ->
      r = {| collide := false; endpoint := p1 |})
  /\ (position_in_obstacle p0 obs = false ->
      ~ (grazes p0 d lo hi 0 \/ grazes p0 d lo hi 1) ->
      exists tmin tmax,
        slab_interval [0%nat; 1%nat] p0 d lo hi NegInf PosInf
        = (Fin tmin, Fin tmax)
        /\ (collide r = true <-> tmin < tmax /\ 0 < tmax /\ tmin < 1)
        /\ (collide r = true -> endpoint r = padd p0 (pscale tmin d)))
  /\ (position_in_obstacle p0 obs = false ->
      collide r = false -> endpoint r = p1).
Proof.
  intros d lo hi r.
  assert (r = ray_intersect_obstacle (p0, p1) obs) as Hr by reflexivity.
  unfold ray_intersect_obstacle in Hr. simpl fst in Hr. simpl snd in Hr.
  fold d lo hi in Hr. rewrite slab_loop_interval in Hr.
  repeat split.
  - intros Hin. rewrite Hin in Hr. exact Hr.
  - intros Hout Hg. rewrite Hout in Hr.
    assert (existsb (grazesb p0 d lo hi) [0%nat; 1%nat] = true) as He.
    { simpl. destruct Hg as [Hg|Hg]; apply grazesb_iff in Hg; rewrite Hg;
        [reflexivity|]. rewrite !orb_true_r. reflexivity. }
    rewrite He in Hr. exact Hr.
  - intros Hout Hng. rewrite Hout in Hr.
    assert (existsb (grazesb p0 d lo hi) [0%nat; 1%nat] = false) as He.
    { simpl. rewrite orb_false_r. apply orb_false_iff. split.
      - destruct (grazesb p0 d lo hi 0) eqn:G; [|reflexivity].
        exfalso. apply Hng. left. now apply grazesb_iff.
      - destruct (grazesb p0 d lo hi 1) eqn:G; [|reflexivity].
        exfalso. apply Hng. right. now apply grazesb_iff. }
    rewrite He in Hr.
    destruct (slab_interval_finite p0 d obs Hout He) as (tmin & tmax & Hi).
    fold lo hi in Hi. rewrite Hi in Hr. simpl in Hr.
    exists tmin, tmax. split; [exact Hi|].
    set (c := Qltb tmin tmax && Qltb 0 tmax && Qltb tmin 1) in Hr.
    assert (c = true <-> tmin < tmax /\ 0 < tmax /\ tmin < 1) as Hc.
    { unfold c. rewrite !andb_true_iff, !Qltb_lt. tauto. }
    destruct c; rewrite Hr; simpl; split.
    + split; [intros _; apply Hc; reflexivity | reflexivity].
    + reflexivity.
    + rewrite <- Hc. split; intros; discriminate.
    + discriminate.
  - intros Hout Hc. rewrite Hout in Hr.
    destruct (existsb (grazesb p0 d lo hi) [0%nat; 1%nat]).
    + rewrite Hr. reflexivity.
    + destruct (slab_interval [0%nat; 1%nat] p0 d lo hi NegInf PosInf)
        as [tmin tmax].
      destruct (ext_lt tmin tmax && ext_lt (Fin 0) tmax && ext_lt tmin (Fin 1));
        rewrite Hr in *; simpl in *; [discriminate|reflexivity].
Qed.

(** The contract of [ray_intersect_obstacle] with a far-end endpoint for
    every ray that reports no collision and with rejection only strictly
    outside a slab. *)
Definition far_end_contract (p0 p1 : point) (obs : Obstacle) : Prop :=
  let d := psub p1 p0 in
  let lo := (left obs, bottom obs) in
  let hi := (right obs, top obs) in
  let r := ray_intersect_obstacle (p0, p1) obs in
  (position_in_obstacle p0 obs = true ->
   r = {| collide := false; endpoint := p0 |})
  /\ ((outside_slab p0 d lo hi 0 \/ outside_slab p0 d lo hi 1) ->
      collide r = false)
  /\ (position_in_obstacle p0 obs = false ->
      ~ (outside_slab p0 d lo hi 0 \/ outside_slab p0 d lo hi 1) ->
      forall tmin tmax,
        slab_interval [0%nat; 1%nat] p0 d lo hi NegInf PosInf
        = (Fin tmin, Fin tmax) ->
        (collide r = true <-> tmin < tmax /\ 0 < tmax /\ tmin < 1)
        /\ (collide r = true -> endpoint r = padd p0 (pscale tmin d)))
  /\ (collide r = false -> endpoint r = p1).

Definition box_1_3 : Obstacle :=
  {| top := 3; left := 1; bottom := 1; right := 3 |}.

(** C5, as stated, fails twice: a ray that starts inside the box keeps its
    origin as endpoint although no collision is reported, and a ray running
    along a face of the box is rejected although the origin is within the
    closed slab and the interval test passes. *)
Lemma far_end_contract_fails :
  ~ far_end_contract (2, 2) (5, 2) box_1_3
  /\ ~ far_end_contract (1, 0) (1, 5) box_1_3.
Proof.
  split.
  - intros (_ & _ & _ & H).
    assert (endpoint (ray_intersect_obstacle ((2, 2), (5, 2)) box_1_3)
            = (5, 2)) as He by (apply H; reflexivity).
    vm_compute in He. discriminate.
  - intros (_ & _ & H & _).
    assert (position_in_obstacle (1, 0) box_1_3 = false) as Hout
      by reflexivity.
    specialize (H Hout).
    assert (~ (outside_slab (1, 0) (psub (1, 5) (1, 0))
                 (left box_1_3, bottom box_1_3)
                 (right box_1_3, top box_1_3) 0
               \/ outside_slab (1, 0) (psub (1, 5) (1, 0))
                    (left box_1_3, bottom box_1_3)
                    (right box_1_3, top box_1_3) 1)) as Hn.
    { intros [[_ [Hlt|Hlt]]|[Hz _]].
      - vm_compute in Hlt. discriminate.
      - vm_compute in Hlt. discriminate.
      - vm_compute in Hz. discriminate. }
    destruct (H Hn ((1 - 0) / 5) ((3 - 0) / 5) eq_refl) as [[_ Hc] _].
    assert (collide (ray_intersect_obstacle ((1, 0), (1, 5)) box_1_3) = true)
      as Ht.
    { apply Hc. repeat split; reflexivity. }
    vm_compute in Ht. discriminate.
Qed.


Definition demo_cos (a : Q) : Q := 1 - a * a / 2.
Definition demo_sin (a : Q) : Q := a.


(** *** Geometry of a reported collision *)

(** The rectangle has its edges in order. *)
Definition well_formed (obs : Obstacle) : Prop :=
  left obs <= right obs /\ bottom obs <= top obs.

(** Strictly inside the rectangle. *)
Definition strictly_inside (pos : point) (obs : Obstacle) : Prop :=
  left obs < fst pos /\ fst pos < right obs
  /\ bottom obs < snd pos /\ snd pos < top obs.

Lemma py_max_cases a b :
  (py_max a b = a /\ b <= a) \/ (py_max a b = b /\ a <= b).
Proof.
  unfold py_max. destruct (Qltb a b) eqn:Hlt.
  - right. split; [reflexivity|]. apply Qltb_lt in Hlt. now apply Qlt_le_weak.
  - left. split; [reflexivity|]. now apply Qltb_ge.
Qed.

Lemma py_min_below a b : py_min a b <= a /\ py_min a b <= b.
Proof. destruct (py_min_cases a b) as [[-> H]|[-> H]]; split; lra. Qed.

Lemma py_max_above a b : a <= py_max a b /\ b <= py_max a b.
Proof. destruct (py_max_cases a b) as [[-> H]|[-> H]]; split; lra. Qed.

Lemma div_mul_cancel (x d : Q) : ~ d == 0 -> x / d * d == x.
Proof. intros Hd. field. exact Hd. Qed.

(** On an axis with a directional component, a parameter between the entry
    and the exit parameter puts the coordinate between the two faces. *)
Lemma axis_within (lo hi p d t : Q) :
  ~ d == 0 -> lo <= hi ->
  py_min ((lo - p) / d) ((hi - p) / d) <= t ->
  t <= py_max ((lo - p) / d) ((hi - p) / d) ->
  lo <= p + t * d /\ p + t * d <= hi.
Proof.
  intros Hd Hle Hmin Hmax.
  pose proof (div_mul_cancel (lo - p) d Hd) as Ha.
  pose proof (div_mul_cancel (hi - p) d Hd) as Hb.
  set (a := (lo - p) / d) in *. set (b := (hi - p) / d) in *.
  destruct (Q_dec d 0) as [[Hneg|Hpos]|Hz]; [| |contradiction].
  - assert (b <= a) as Hba.
    { apply Qnot_lt_le. intros Hlt.
      assert (b * d < a * d) by nra. lra. }
    assert (b <= t) as H1
      by (destruct (py_min_cases a b) as [[E _]|[E _]]; rewrite E in Hmin; lra).
    assert (t <= a) as H2
      by (destruct (py_max_cases a b) as [[E _]|[E _]]; rewrite E in Hmax; lra).
    assert (a * d <= t * d) by nra. assert (t * d <= b * d) by nra.
    split; lra.
  - assert (a <= b) as Hab.
    { apply Qnot_lt_le. intros Hlt.
      assert (b * d < a * d) by nra. lra. }
    assert (a <= t) as H1
      by (destruct (py_min_cases a b) as [[E _]|[E _]]; rewrite E in Hmin; lra).
    assert (t <= b) as H2
      by (destruct (py_max_cases a b) as [[E _]|[E _]]; rewrite E in Hmax; lra).
    assert (a * d <= t * d) by nra. assert (t * d <= b * d) by nra.
    split; lra.
Qed.

(** Conversely, a coordinate strictly between the faces has its parameter
    strictly between the entry and the exit parameter. *)
Lemma axis_strictly_within (lo hi p d t : Q) :
  ~ d == 0 -> lo < p + t * d -> p + t * d < hi ->
  py_min ((lo - p) / d) ((hi - p) / d) < t
  /\ t < py_max ((lo - p) / d) ((hi - p) / d).
Proof.
  intros Hd Hlo Hhi.
  pose proof (div_mul_cancel (lo - p) d Hd) as Ha.
  pose proof (div_mul_cancel (hi - p) d Hd) as Hb.
  set (a := (lo - p) / d) in *. set (b := (hi - p) / d) in *.
  destruct (py_min_below a b) as [Hm1 Hm2].
  destruct (py_max_above a b) as [HM1 HM2].
  destruct (Q_dec d 0) as [[Hneg|Hpos]|Hz]; [| |contradiction].
  - assert (b < t) by (apply Qnot_le_lt; intros Hc; assert (b * d <= t * d) by nra; lra).
    assert (t < a) by (apply Qnot_le_lt; intros Hc; assert (t * d <= a * d) by nra; lra).
    split; lra.
  - assert (a < t) by (apply Qnot_le_lt; intros Hc; assert (t * d <= a * d) by nra; lra).
    assert (t < b) by (apply Qnot_le_lt; intros Hc; assert (b * d <= t * d) by nra; lra).
    split; lra.
Qed.

Lemma in_obstacle_inside pos obs :
  position_in_obstacle pos obs = true <-> inside pos obs.
Proof.
  unfold position_in_obstacle, inside.
  rewrite !andb_true_iff, !Qle_bool_iff.
  split; [intros [[[A B] C] D]|intros (A & B & C & D)]; auto.
Qed.

(** The entry and exit parameters of axis [i]. *)
Definition t_entry (p0 d lo hi : point) (i : nat) : Q :=
  py_min ((coord lo i - coord p0 i) / coord d i)
         ((coord hi i - coord p0 i) / coord d i).

Definition t_exit (p0 d lo hi : point) (i : nat) : Q :=
  py_max ((coord lo i - coord p0 i) / coord d i)
         ((coord hi i - coord p0 i) / coord d i).

(** The interval over the two axes lies within the interval of every axis
    with a directional component, and each of its ends is the end of one
    of them. *)
Lemma slab_interval_axes p0 d lo hi tmin tmax :
  slab_interval [0%nat; 1%nat] p0 d lo hi NegInf PosInf = (Fin tmin, Fin tmax) ->
  (forall i, (i = 0 \/ i = 1)%nat -> ~ coord d i == 0 ->
     t_entry p0 d lo hi i <= tmin /\ tmax <= t_exit p0 d lo hi i)
  /\ (exists i, (i = 0 \/ i = 1)%nat /\ ~ coord d i == 0
                /\ tmin = t_entry p0 d lo hi i)
  /\ (exists i, (i = 0 \/ i = 1)%nat /\ ~ coord d i == 0
                /\ tmax = t_exit p0 d lo hi i).
Proof.
  unfold t_entry, t_exit. simpl.
  destruct (Qeq_bool (fst d) 0) eqn:Hd0;
    destruct (Qeq_bool (snd d) 0) eqn:Hd1; simpl; intros H;
    try discriminate; injection H as <- <-.
  - apply Qeq_bool_iff in Hd0. apply Qeq_bool_neq in Hd1.
    split; [|split].
    + intros i [->| ->] Hi; simpl in *; [contradiction|split; apply Qle_refl].
    + exists 1%nat. auto.
    + exists 1%nat. auto.
  - apply Qeq_bool_neq in Hd0. apply Qeq_bool_iff in Hd1.
    split; [|split].
    + intros i [->| ->] Hi; simpl in *; [split; apply Qle_refl|contradiction].
    + exists 0%nat. auto.
    + exists 0%nat. auto.
  - apply Qeq_bool_neq in Hd0, Hd1.
    set (e0 := py_min ((fst lo - fst p0) / fst d) ((fst hi - fst p0) / fst d)).
    set (e1 := py_min ((snd lo - snd p0) / snd d) ((snd hi - snd p0) / snd d)).
    set (x0 := py_max ((fst lo - fst p0) / fst d) ((fst hi - fst p0) / fst d)).
    set (x1 := py_max ((snd lo - snd p0) / snd d) ((snd hi - snd p0) / snd d)).
    destruct (py_max_above e0 e1) as [A1 A2].
    destruct (py_min_below x0 x1) as [B1 B2].
    split; [|split].
    + intros i [->| ->] Hi; simpl; fold e0 e1 x0 x1; split; assumption.
    + destruct (py_max_cases e0 e1) as [[E _]|[E _]]; rewrite E;
        [exists 0%nat|exists 1%nat]; auto.
    + destruct (py_min_cases x0 x1) as [[E _]|[E _]]; rewrite E;
        [exists 0%nat|exists 1%nat]; auto.
Qed.

(** What a reported collision rests on. *)
Lemma ray_collide_inv p0 p1 obs :
  let d := psub p1 p0 in
  let lo := (left obs, bottom obs) in
  let hi := (right obs, top obs) in
  collide (ray_intersect_obstacle (p0, p1) obs) = true ->
  position_in_obstacle p0 obs = false
  /\ grazesb p0 d lo hi 0 = false /\ grazesb p0 d lo hi 1 = false
  /\ exists tmin tmax,
       slab_interval [0%nat; 1%nat] p0 d lo hi NegInf PosInf
       = (Fin tmin, Fin tmax)
       /\ tmin < tmax /\ 0 < tmax /\ tmin < 1
       /\ endpoint (ray_intersect_obstacle (p0, p1) obs)
          = padd p0 (pscale tmin d).
Proof.
  intros d lo hi. unfold ray_intersect_obstacle. simpl fst. simpl snd.
  fold d lo hi. rewrite slab_loop_interval.
  destruct (position_in_obstacle p0 obs) eqn:Hin; [discriminate|].
  destruct (existsb (grazesb p0 d lo hi) [0%nat; 1%nat]) eqn:Hg; [discriminate|].
  destruct (slab_interval_finite p0 d obs Hin Hg) as (tmin & tmax & Hi).
  fold lo hi in Hi. rewrite Hi. simpl in Hg.
  apply orb_false_iff in Hg. destruct Hg as [Hg0 Hg1].
  rewrite orb_false_r in Hg1. simpl ext_lt.
  destruct (Qltb tmin tmax) eqn:C1; [|discriminate].
  destruct (Qltb 0 tmax) eqn:C2; [|discriminate].
  destruct (Qltb tmin 1) eqn:C3; [|discriminate].
  simpl. intros _. apply Qltb_lt in C1, C2, C3.
  split; [reflexivity|]. split; [exact Hg0|]. split; [exact Hg1|].
  exists tmin, tmax. auto.
Qed.

Lemma not_grazing p0 d lo hi i :
  grazesb p0 d lo hi i = false ->
  ~ coord d i == 0 \/ (coord lo i < coord p0 i /\ coord p0 i < coord hi i).
Proof.
  unfold grazesb. intros H. apply andb_false_iff in H. destruct H as [H|H].
  - left. now apply Qeq_bool_neq.
  - right. apply orb_false_iff in H. destruct H as [H1 H2].
    split; apply Qltb_lt; unfold Qltb; [rewrite H1|rewrite H2]; reflexivity.
Qed.

(** On either axis, a parameter within the interval of a non-grazing ray
    puts the coordinate between the two faces. *)
Lemma coordinate_within p0 d obs tmin tmax t i :
  let lo := (left obs, bottom obs) in
  let hi := (right obs, top obs) in
  well_formed obs -> (i = 0 \/ i = 1)%nat ->
  grazesb p0 d lo hi i = false ->
  slab_interval [0%nat; 1%nat] p0 d lo hi NegInf PosInf = (Fin tmin, Fin tmax) ->
  tmin <= t -> t <= tmax ->
  coord lo i <= coord p0 i + t * coord d i
  /\ coord p0 i + t * coord d i <= coord hi i.
Proof.
  intros lo hi Hwf Hi Hg Hint H1 H2.
  destruct (slab_interval_axes _ _ _ _ _ _ Hint) as (Hall & _ & _).
  assert (coord lo i <= coord hi i) as Hle
    by (destruct Hwf; destruct Hi as [->| ->]; assumption).
  destruct (not_grazing _ _ _ _ _ Hg) as [Hd|[Ha Hb]].
  - destruct (Hall i Hi Hd) as [He Hx]. unfold t_entry, t_exit in He, Hx.
    apply axis_within; try assumption; lra.
  - destruct (Qeq_dec (coord d i) 0) as [Hz|Hnz].
    + rewrite Hz. split; lra.
    + destruct (Hall i Hi Hnz) as [He Hx]. unfold t_entry, t_exit in He, Hx.
      apply axis_within; try assumption; lra.
Qed.

(** Along a ray that collides, every parameter of the interval gives a
    point of the closed rectangle, and the interval starts after 0. *)
Lemma interval_inside p0 d obs tmin tmax :
  let lo := (left obs, bottom obs) in
  let hi := (right obs, top obs) in
  well_formed obs ->
  position_in_obstacle p0 obs = false ->
  grazesb p0 d lo hi 0 = false -> grazesb p0 d lo hi 1 = false ->
  slab_interval [0%nat; 1%nat] p0 d lo hi NegInf PosInf = (Fin tmin, Fin tmax) ->
  tmin < tmax -> 0 < tmax ->
  (forall t, tmin <= t -> t <= tmax -> inside (padd p0 (pscale t d)) obs)
  /\ 0 < tmin.
Proof.
  intros lo hi Hwf Hout Hg0 Hg1 Hint C1 C2.
  assert (forall t, tmin <= t -> t <= tmax -> inside (padd p0 (pscale t d)) obs)
    as Hin.
  { intros t H1 H2.
    destruct (coordinate_within p0 d obs tmin tmax t 0 Hwf (or_introl eq_refl)
                Hg0 Hint H1 H2) as [Hx1 Hx2].
    destruct (coordinate_within p0 d obs tmin tmax t 1 Hwf (or_intror eq_refl)
                Hg1 Hint H1 H2) as [Hy1 Hy2].
    simpl in Hx1, Hx2, Hy1, Hy2. unfold inside, padd, pscale.
    cbn [fst snd]. auto. }
  split; [exact Hin|].
  apply Qnot_le_lt. intros Hle.
  assert (inside (padd p0 (pscale 0 d)) obs) as H0 by (apply Hin; lra).
  assert (position_in_obstacle p0 obs = true) as Ht; [|congruence].
  apply in_obstacle_inside. unfold inside, padd, pscale in *.
  cbn [fst snd] in H0. destruct H0 as (A & B & C & D).
  split; [lra|]. split; [lra|]. split; lra.
Qed.

(** X1.  For a rectangle with its edges in order, a reported collision
    point lies on the ray strictly between its two ends, at
    [p0 + t * (p1 - p0)] with [0 < t < 1], and on the closed rectangle; the
    ray starts outside the rectangle. *)
Theorem collision_point_on_segment_and_box (p0 p1 : point) (obs : Obstacle) :
  well_formed obs ->
  collide (ray_intersect_obstacle (p0, p1) obs) = true ->
  position_in_obstacle p0 obs = false
  /\ exists t, 0 < t /\ t < 1
       /\ endpoint (ray_intersect_obstacle (p0, p1) obs)
          = padd p0 (pscale t (psub p1 p0))
       /\ inside (padd p0 (pscale t (psub p1 p0))) obs.
Proof.
  intros Hwf Hc.
  destruct (ray_collide_inv p0 p1 obs Hc)
    as (Hout & Hg0 & Hg1 & tmin & tmax & Hint & C1 & C2 & C3 & Hend).
  split; [exact Hout|].
  destruct (interval_inside p0 (psub p1 p0) obs tmin tmax Hwf Hout Hg0 Hg1
              Hint C1 C2) as [Hin Hpos].
  exists tmin. split; [exact Hpos|]. split; [exact C3|]. split; [exact Hend|].
  apply Hin; lra.
Qed.

(** X2.  A ray that starts outside the rectangle and whose segment passes
    strictly inside it is reported as a collision, and the reported point
    comes before every such point of the segment. *)
Theorem segment_through_interior_collides
  (p0 p1 : point) (obs : Obstacle) (t : Q) :
  position_in_obstacle p0 obs = false ->
  0 <= t -> t <= 1 ->
  strictly_inside (padd p0 (pscale t (psub p1 p0))) obs ->
  collide (ray_intersect_obstacle (p0, p1) obs) = true
  /\ exists tmin, tmin < t
       /\ endpoint (ray_intersect_obstacle (p0, p1) obs)
          = padd p0 (pscale tmin (psub p1 p0)).
Proof.
  intros Hout Ht0 Ht1 (Hx1 & Hx2 & Hy1 & Hy2).
  set (d := psub p1 p0) in *. unfold padd, pscale in Hx1, Hx2, Hy1, Hy2.
  simpl in Hx1, Hx2, Hy1, Hy2.
  set (lo := (left obs, bottom obs)). set (hi := (right obs, top obs)).
  assert (forall i, (i = 0 \/ i = 1)%nat ->
            coord lo i < coord p0 i + t * coord d i
            /\ coord p0 i + t * coord d i < coord hi i) as Hstrict.
  { intros i [->| ->]; simpl; split; assumption. }
  assert (forall i, (i = 0 \/ i = 1)%nat -> grazesb p0 d lo hi i = false) as Hng.
  { intros i Hi. destruct (grazesb p0 d lo hi i) eqn:G; [|reflexivity].
    apply grazesb_iff in G. destruct G as [Hz Hside].
    destruct (Hstrict i Hi) as [A B]. rewrite Hz in A, B. lra. }
  assert (existsb (grazesb p0 d lo hi) [0%nat; 1%nat] = false) as Hg.
  { simpl. rewrite (Hng 0%nat), (Hng 1%nat) by auto. reflexivity. }
  destruct (slab_interval_finite p0 d obs Hout Hg) as (tmin & tmax & Hint).
  fold lo hi in Hint.
  destruct (slab_interval_axes _ _ _ _ _ _ Hint)
    as (_ & (i & Hi & Hdi & Hmin) & (j & Hj & Hdj & Hmax)).
  assert (tmin < t) as Hlt.
  { rewrite Hmin. destruct (Hstrict i Hi) as [A B].
    now apply (axis_strictly_within _ _ _ _ _ Hdi A B). }
  assert (t < tmax) as Hgt.
  { rewrite Hmax. destruct (Hstrict j Hj) as [A B].
    now apply (axis_strictly_within _ _ _ _ _ Hdj A B). }
  unfold ray_intersect_obstacle. simpl fst. simpl snd. fold d lo hi.
  rewrite Hout, slab_loop_interval, Hg, Hint. simpl ext_lt.
  assert (Qltb tmin tmax = true) as -> by (apply Qltb_lt; lra).
  assert (Qltb 0 tmax = true) as -> by (apply Qltb_lt; lra).
  assert (Qltb tmin 1 = true) as -> by (apply Qltb_lt; lra).
  simpl. split; [reflexivity|]. exists tmin. split; [exact Hlt|reflexivity].
Qed.

(** The two ends of the ray are on or beyond one and the same face of the
    rectangle. *)
Definition beyond_a_face (p0 p1 : point) (obs : Obstacle) : Prop :=
  (fst p0 <= left obs /\ fst p1 <= left obs)
  \/ (right obs <= fst p0 /\ right obs <= fst p1)
  \/ (snd p0 <= bottom obs /\ snd p1 <= bottom obs)
  \/ (top obs <= snd p0 /\ top obs <= snd p1).

(** X3.  A ray whose two ends are on or beyond the same face of a
    rectangle with its edges in order never reports a collision. *)
Theorem ray_beyond_a_face_misses (p0 p1 : point) (obs : Obstacle) :
  well_formed obs -> beyond_a_face p0 p1 obs ->
  collide (ray_intersect_obstacle (p0, p1) obs) = false.
Proof.
  intros Hwf Hside.
  destruct (collide (ray_intersect_obstacle (p0, p1) obs)) eqn:Hc;
    [exfalso|reflexivity].
  destruct (ray_collide_inv p0 p1 obs Hc)
    as (Hout & Hg0 & Hg1 & tmin & tmax & Hint & C1 & C2 & C3 & Hend).
  set (d := psub p1 p0) in *.
  destruct (interval_inside p0 d obs tmin tmax Hwf Hout Hg0 Hg1 Hint C1 C2)
    as [_ Hpos].
  destruct (coordinate_within p0 d obs tmin tmax tmin 0 Hwf (or_introl eq_refl)
              Hg0 Hint ltac:(lra) ltac:(lra)) as [Hx1 Hx2].
  destruct (coordinate_within p0 d obs tmin tmax tmin 1 Hwf (or_intror eq_refl)
              Hg1 Hint ltac:(lra) ltac:(lra)) as [Hy1 Hy2].
  simpl in Hx1, Hx2, Hy1, Hy2.
  assert (fst d == fst p1 - fst p0) as Edx by (unfold d, psub; simpl; lra).
  assert (snd d == snd p1 - snd p0) as Edy by (unfold d, psub; simpl; lra).
  destruct Hside as [[A B]|[[A B]|[[A B]|[A B]]]].
  - assert (fst d == 0) as Hz by nra.
    apply not_grazing in Hg0. simpl in Hg0. destruct Hg0 as [H|[H _]]; [tauto|lra].
  - assert (fst d == 0) as Hz by nra.
    apply not_grazing in Hg0. simpl in Hg0. destruct Hg0 as [H|[_ H]]; [tauto|lra].
  - assert (snd d == 0) as Hz by nra.
    apply not_grazing in Hg1. simpl in Hg1. destruct Hg1 as [H|[H _]]; [tauto|lra].
  - assert (snd d == 0) as Hz by nra.
    apply not_grazing in Hg1. simpl in Hg1. destruct Hg1 as [H|[_ H]]; [tauto|lra].
Qed.

Lemma box_1_3_well_formed : well_formed box_1_3.
Proof. split; apply Qle_bool_iff; reflexivity. Qed.

Lemma collision_point_on_segment_and_box_witness :
  position_in_obstacle (0, 2) box_1_3 = false
  /\ exists t, 0 < t /\ t < 1
       /\ endpoint (ray_intersect_obstacle ((0, 2), (4, 2)) box_1_3)
          = padd (0, 2) (pscale t (psub (4, 2) (0, 2)))
       /\ inside (padd (0, 2) (pscale t (psub (4, 2) (0, 2)))) box_1_3.
Proof.
  apply (collision_point_on_segment_and_box (0, 2) (4, 2) box_1_3).
  - exact box_1_3_well_formed.
  - reflexivity.
Defined.

Lemma segment_through_interior_collides_witness :
  collide (ray_intersect_obstacle ((0, 2), (4, 2)) box_1_3) = true
  /\ exists tmin, tmin < 1 # 2
       /\ endpoint (ray_intersect_obstacle ((0, 2), (4, 2)) box_1_3)
          = padd (0, 2) (pscale tmin (psub (4, 2) (0, 2))).
Proof.
  apply (segment_through_interior_collides (0, 2) (4, 2) box_1_3 (1 # 2)).
  - reflexivity.
  - apply Qle_bool_iff. reflexivity.
  - apply Qle_bool_iff. reflexivity.
  - repeat split.
Defined.

Lemma ray_beyond_a_face_misses_witness :
  collide (ray_intersect_obstacle ((0, 0), (1, 5)) box_1_3) = false.
Proof.
  apply (ray_beyond_a_face_misses (0, 0) (1, 5) box_1_3).
  - exact box_1_3_well_formed.
  - left. split; apply Qle_bool_iff; reflexivity.
Defined.

(** *** Sequences of operations on the world *)

Section WorldInvariants.

Variables State Input : Type.
Variable step : State -> Input -> bool -> State.
Variable state_2_position : State -> point.

Inductive op :=
| AddObstacle (obs : Obstacle)
| TakeStep (input : Input) (braking : bool).

Definition apply_op (E : Environment State) (o : op) : Environment State :=
  match o with
  | AddObstacle obs => snd (add_obstacle State E obs)
  | TakeStep input braking =>
      snd (agent_take_step State Input step state_2_position E input braking)
  end.

Definition run_ops (ops : list op) (E : Environment State) : Environment State :=
  fold_left apply_op ops E.

Definition is_step (o : op) : Prop :=
  match o with
  | AddObstacle _ => False
  | TakeStep _ _ => True
  end.

(** The obstacles handed to [add_obstacle] in a sequence of operations. *)
Fixpoint offered (ops : list op) : list Obstacle :=
  match ops with
  | [] => []
  | AddObstacle obs :: rest => obs :: offered rest
  | TakeStep _ _ :: rest => offered rest
  end.

Lemma add_obstacle_cases E obs :
  (add_obstacle State E obs
   = (true, {| env_size := env_size State E;
               _agent_state := _agent_state State E;
               _obstacles := _obstacles State E ++ [obs] |})
   /\ within_world State E obs)
  \/ (add_obstacle State E obs = (false, E)).
Proof.
  unfold add_obstacle, within_world.
  destruct (Qle_bool 0 (left obs)) eqn:E1;
    destruct (Qle_bool (right obs) (fst (env_size State E))) eqn:E2;
    destruct (Qle_bool 0 (bottom obs)) eqn:E3;
    destruct (Qle_bool (top obs) (snd (env_size State E))) eqn:E4;
    simpl; auto.
  left. split; [reflexivity|]. rewrite <- !Qle_bool_iff. auto.
Qed.

Lemma agent_take_step_cases E input braking :
  let new_state := step (_agent_state State E) input braking in
  (agent_take_step State Input step state_2_position E input braking
   = (true, {| env_size := env_size State E;
               _agent_state := new_state;
               _obstacles := _obstacles State E |})
   /\ state_out_of_bounds State state_2_position E new_state = false
   /\ state_in_obstacles State state_2_position E new_state = false)
  \/ (agent_take_step State Input step state_2_position E input braking
      = (false, E)).
Proof.
  intros new_state. unfold agent_take_step. fold new_state.
  destruct (state_out_of_bounds State state_2_position E new_state);
    destruct (state_in_obstacles State state_2_position E new_state);
    simpl; auto.
Qed.

Lemma out_of_bounds_in_world E pos :
  position_out_of_bounds State E pos = false <-> in_world State E pos.
Proof.
  unfold position_out_of_bounds, in_world.
  rewrite !orb_false_iff, !Qltb_ge.
  split; [intros [[[A B] C] D]|intros (A & B & C & D)]; auto.
Qed.

Lemma in_obstacles_inside obss s :
  state_in_obstacles_loop State state_2_position obss s = true
  <-> exists obs, In obs obss /\ inside (state_2_position s) obs.
Proof.
  induction obss as [|o rest IH]; simpl.
  - split; [discriminate|]. intros (obs & [] & _).
  - unfold state_in_obstacle.
    destruct (position_in_obstacle (state_2_position s) o) eqn:Ho.
    + split; [|reflexivity]. intros _. exists o. split; [now left|].
      now apply in_obstacle_inside.
    + rewrite IH. split.
      * intros (obs & Hin & Hi). exists obs. split; [now right|exact Hi].
      * intros (obs & [->|Hin] & Hi).
        -- apply in_obstacle_inside in Hi. congruence.
        -- exists obs. split; assumption.
Qed.

(** X4.  Adding an obstacle appends at most one collision point to what
    [ray_intersect_obstacles] returns for a ray, namely the collision
    point with the new obstacle when it was accepted and the ray collides
    with it; the earlier points and their order stay. *)
Theorem ray_intersect_obstacles_after_add_obstacle
  (E : Environment State) (obs : Obstacle) (ray : point * point) :
  let accepted := fst (add_obstacle State E obs) in
  let E' := snd (add_obstacle State E obs) in
  let r := ray_intersect_obstacle ray obs in
  ray_intersect_obstacles State E' ray
  = ray_intersect_obstacles State E ray
    ++ (if accepted && collide r then [endpoint r] else []).
Proof.
  intros accepted E' r. subst accepted E'.
  destruct (add_obstacle_cases E obs) as [[-> _]| ->]; simpl.
  - rewrite !ray_intersect_obstacles_collects. unfold collision_points. simpl.
    rewrite List.filter_app, map_app. simpl. fold r.
    destruct (collide r); reflexivity.
  - now rewrite app_nil_r.
Qed.

(** X5.  A sequence of [add_obstacle] and [agent_take_step] calls never
    changes the size of the world, only appends to the obstacle list, in
    the order of the calls, obstacles that were handed to [add_obstacle],
    and, if all the obstacles were within the world bounds before, they
    all are afterwards. *)
Theorem obstacles_only_grow_within_bounds
  (ops : list op) (E : Environment State) :
  (forall obs, In obs (_obstacles State E) -> within_world State E obs) ->
  env_size State (run_ops ops E) = env_size State E
  /\ (exists added,
        _obstacles State (run_ops ops E) = _obstacles State E ++ added
        /\ sublist added (offered ops))
  /\ forall obs, In obs (_obstacles State (run_ops ops E)) ->
       within_world State (run_ops ops E) obs.
Proof.
  revert E. induction ops as [|o rest IH]; intros E Hin; simpl.
  - split; [reflexivity|]. split; [|exact Hin].
    exists []. split; [now rewrite app_nil_r|constructor].
  - destruct o as [obs|input braking]; simpl.
    + destruct (add_obstacle_cases E obs) as [[-> Hw]| ->]; simpl.
      * destruct (IH {| env_size := env_size State E;
                        _agent_state := _agent_state State E;
                        _obstacles := _obstacles State E ++ [obs] |})
          as (Hs & (added & Ha & Hsub) & Hall).
        { simpl. intros o Ho. apply in_app_iff in Ho.
          destruct Ho as [Ho|[<-|[]]]; [now apply Hin|exact Hw]. }
        simpl in *. split; [exact Hs|]. split; [|exact Hall].
        exists (obs :: added). split.
        -- rewrite Ha, <- app_assoc. reflexivity.
        -- now constructor.
      * destruct (IH E Hin) as (Hs & (added & Ha & Hsub) & Hall).
        split; [exact Hs|]. split; [|exact Hall].
        exists added. split; [exact Ha|now constructor].
    + destruct (agent_take_step_cases E input braking) as [[-> _]| ->]; simpl.
      * destruct (IH {| env_size := env_size State E;
                        _agent_state := step (_agent_state State E) input braking;
                        _obstacles := _obstacles State E |})
          as (Hs & Hadd & Hall); [exact Hin|].
        simpl in *. auto.
      * now apply IH.
Qed.

(** X6.  An agent that is within the world bounds stays within them under
    any sequence of [add_obstacle] and [agent_take_step] calls; and under
    [agent_take_step] calls alone the obstacles stay as they are and an
    agent that is inside no obstacle stays inside none. *)
Theorem agent_stays_acceptable (ops : list op) (E : Environment State) :
  (in_world State E (state_2_position (_agent_state State E)) ->
   in_world State (run_ops ops E)
     (state_2_position (_agent_state State (run_ops ops E))))
  /\ (List.Forall is_step ops ->
      _obstacles State (run_ops ops E) = _obstacles State E
      /\ (acceptable State state_2_position E (_agent_state State E) ->
          acceptable State state_2_position (run_ops ops E)
            (_agent_state State (run_ops ops E)))).
Proof.
  revert E. induction ops as [|o rest IH]; intros E; simpl.
  - split; [auto|]. intros _. split; [reflexivity|auto].
  - destruct o as [obs|input braking]; simpl.
    + split.
      * destruct (add_obstacle_cases E obs) as [[-> _]| ->]; simpl;
          intros Hw;
          match goal with
          | |- in_world _ (run_ops rest ?E1) _ => exact (proj1 (IH E1) Hw)
          end.
      * intros Hsteps. inversion Hsteps as [|? ? Hs _]. destruct Hs.
    + pose proof (agent_take_step_cases E input braking) as Hcases.
      simpl in Hcases. destruct Hcases as [[Heq [Hb Ho]]|Heq]; rewrite Heq;
        simpl.
      * set (E1 := {| env_size := env_size State E;
                      _agent_state := step (_agent_state State E) input braking;
                      _obstacles := _obstacles State E |}).
        assert (acceptable State state_2_position E1 (_agent_state State E1))
          as Hacc.
        { split.
          - apply out_of_bounds_in_world. exact Hb.
          - intros ob Hin Hins.
            assert (state_in_obstacles State state_2_position E
                      (step (_agent_state State E) input braking) = true)
              as Ht; [|congruence].
            apply in_obstacles_inside. eauto. }
        destruct (IH E1) as [Hw Hst]. split.
        -- intros _. apply Hw. apply Hacc.
        -- intros Hsteps. inversion Hsteps as [|? ? _ Hrest]; subst.
           destruct (Hst Hrest) as [Hobs Hkeep]. split; [exact Hobs|].
           intros _. exact (Hkeep Hacc).
      * destruct (IH E) as [Hw Hst]. split; [exact Hw|].
        intros Hsteps. inversion Hsteps as [|? ? _ Hrest]; subst.
        exact (Hst Hrest).
Qed.

End WorldInvariants.

(** A stand-in motion model for the examples: the state is the position,
    the input a displacement, and braking keeps the agent where it is. *)
Definition demo_step (s : point) (input : point) (braking : bool) : point :=
  if braking then s else padd s input.

Definition demo_world : Environment point :=
  {| env_size := (100, 100);
     _agent_state := (50, 50);
     _obstacles := [box_1_3] |}.

Definition demo_ops : list (op point) :=
  [ AddObstacle point {| top := 120; left := 10; bottom := 90; right := 20 |};
    TakeStep point (1, 0) false;
    AddObstacle point {| top := 60; left := 55; bottom := 40; right := 70 |};
    TakeStep point (10, 0) false;
    TakeStep point (- 60, 0) false ].

Lemma demo_world_within obs :
  In obs (_obstacles point demo_world) -> within_world point demo_world obs.
Proof.
  intros [<-|[]]. unfold within_world, Qle. simpl. lia.
Qed.

Lemma obstacles_only_grow_within_bounds_witness :
  env_size point (run_ops point point demo_step (fun s => s) demo_ops demo_world)
  = env_size point demo_world
  /\ (exists added,
        _obstacles point
          (run_ops point point demo_step (fun s => s) demo_ops demo_world)
        = _obstacles point demo_world ++ added
        /\ sublist added (offered point demo_ops))
  /\ forall obs,
       In obs (_obstacles point
                 (run_ops point point demo_step (fun s => s) demo_ops demo_world)) ->
       within_world point
         (run_ops point point demo_step (fun s => s) demo_ops demo_world) obs.
Proof.
  apply (obstacles_only_grow_within_bounds point point demo_step (fun s => s)
           demo_ops demo_world).
  exact demo_world_within.
Defined.

End Env.

(** ** Planner.py: path cursor, neighbour strategies and weighted A* *)

Module Plan.
Import Py.

Definition cell := (Z * Z)%type.
Definition point := Env.point.

(** A cell read as a float array, as when a stored path element is passed
    where a world position is expected. *)
Definition as_point (c : cell) : point := (inject_Z (fst c), inject_Z (snd c)).

(** *** numpy arrays over the grid *)

Record ndarray (A : Type) := { shape : Z * Z; data : cell -> A }.
Arguments shape {A} _.
Arguments data {A} _ _.

Definition full {A} (shp : Z * Z) (v : A) : ndarray A :=
  {| shape := shp; data := fun _ => v |}.

(** Index normalisation on both axes. *)
Definition index2 {A} (a : ndarray A) (c : cell) : result cell :=
  match norm_index (fst (shape a)) (fst c), norm_index (snd (shape a)) (snd c) with
  | Some i, Some j => Ok (i, j)
  | _, _ => Raise IndexError
  end.

(** [a[c]] and [a[c] = v]. *)
Definition aget {A} (a : ndarray A) (c : cell) : result A :=
  bind (index2 a c) (fun k => Ok (data a k)).

Definition aset {A} (a : ndarray A) (c : cell) (v : A) : result (ndarray A) :=
  bind (index2 a c) (fun k =>
    Ok {| shape := shape a;
          data := fun x => if decide (x = k) then v else data a x |}).

(** [a[xx, yy]], the elements at a list of cells. *)
Fixpoint take_cells {A} (a : ndarray A) (cs : list cell) : result (list A) :=
  match cs with
  | [] => Ok []
  | c :: rest =>
      bind (aget a c) (fun v =>
      bind (take_cells a rest) (fun vs => Ok (v :: vs)))
  end.

Definition in_bounds (shp : Z * Z) (c : cell) : Prop :=
  0 <= fst c < fst shp /\ 0 <= snd c < snd shp.

(** *** Costs: floats with [np.inf] *)

Inductive weight := Fin (q : Q) | Inf.

Definition weight_add (a b : weight) : weight :=
  match a, b with
  | Fin x, Fin y => Fin (x + y)
  | _, _ => Inf
  end.

(** [a > b] *)
Definition weight_gt (a b : weight) : bool :=
  match a, b with
  | Fin x, Fin y => Qltb y x
  | Inf, Fin _ => true
  | _, Inf => false
  end.

Record VertexInfo := { coord : cell; cost : weight }.

(** The attributes of the search scratch state of [_plan_algo]. *)
Record search := {
  g : ndarray weight;
  OPEN : gmap cell weight;
  pred : ndarray cell
}.

Section Planner.

(** What [Map.py] provides; the file is not part of the sources, so the
    occupancy grid is used through its interface only. *)
Variable OccupancyGrid : Type.
(** [grid._map], the raw cell array. *)
Variable _map_array : OccupancyGrid -> ndarray Z.
Variable get_binary_map : OccupancyGrid -> ndarray Z.
Variable convert_to_grid_coord : OccupancyGrid -> point -> cell.
Variable convert_to_world_coord : OccupancyGrid -> cell -> point.
Variable update_map : OccupancyGrid -> point -> list Env.ScanResult -> OccupancyGrid.
(** [raytrace(x0, y0, x1, y1)], the cells [zip(ray_xx, ray_yy)]. *)
Variable raytrace : Z -> Z -> Z -> Z -> list cell.
(** [GridStatus.OBSTACLE] *)
Variable OBSTACLE : Z.

(** [np.linalg.norm] of an integer offset. *)
Variable norm : cell -> Q.

(** [pqdict.popitem]: the key it removes.  Which of several keys of least
    priority comes first is the queue's business. *)
Variable popitem : gmap cell weight -> option cell.

(** *** Neighbour strategies *)

(** [np.sum(map[ray_xx, ray_yy] == OBSTACLE)] *)
Definition count_obstacles (vs : list Z) : Z :=
  Z.of_nat (length (List.filter (fun v => v =? OBSTACLE) vs)).

Definition offsets (lo hi : Z) : list cell :=
  flat_map (fun i => map (fun j => (i, j)) (range lo hi)) (range lo hi).

Definition candidate (map : ndarray Z) (vertex : cell) (ij : cell) : bool :=
  let pos := (fst vertex + fst ij, snd vertex + snd ij) in
  negb ((fst ij =? 0) && (snd ij =? 0))
  && (fst pos >=? 0) && (snd pos >=? 0)
  && (fst pos <? fst (shape map)) && (snd pos <? snd (shape map)).

Fixpoint get_8_neighbors_loop (map : ndarray Z) (vertex : cell)
  (ijs : list cell) (infos : list VertexInfo) : result (list VertexInfo) :=
  match ijs with
  | [] => Ok infos
  | ij :: rest =>
      let pos := (fst vertex + fst ij, snd vertex + snd ij) in
      if candidate map vertex ij then
        bind (aget map vertex) (fun mv =>
        bind (if negb (mv =? OBSTACLE) then
                bind (aget map pos) (fun mp => Ok (negb (mp =? OBSTACLE)))
              else Ok false) (fun clear =>
        get_8_neighbors_loop map vertex rest
          (infos ++ [{| coord := pos;
                        cost := if clear then Fin (norm ij) else Inf |}])))
      else get_8_neighbors_loop map vertex rest infos
  end.

Definition get_8_neighbors (map : ndarray Z) (vertex : cell)
  : result (list VertexInfo) :=
  get_8_neighbors_loop map vertex (offsets (-1) 2) [].

Fixpoint get_n_grid_neighbors_loop (map : ndarray Z) (vertex : cell)
  (ijs : list cell) (infos : list VertexInfo) : result (list VertexInfo) :=
  match ijs with
  | [] => Ok infos
  | ij :: rest =>
      let pos := (fst vertex + fst ij, snd vertex + snd ij) in
      if candidate map vertex ij then
        bind (take_cells map
                (raytrace (fst vertex) (snd vertex) (fst pos) (snd pos)))
          (fun vs =>
             get_n_grid_neighbors_loop map vertex rest
               (infos ++ [{| coord := pos;
                             cost := if count_obstacles vs =? 0
                                     then Fin (norm ij) else Inf |}]))
      else get_n_grid_neighbors_loop map vertex rest infos
  end.

(** The window size actually used: at least 3, and odd. *)
Definition window (n : Z) : Z :=
  let n := if n <? 3 then 3 else n in
  if n mod 2 =? 0 then n + 1 else n.

Definition get_n_grid_neighbors (n : Z) (map : ndarray Z) (vertex : cell)
  : result (list VertexInfo) :=
  let n := window n in
  get_n_grid_neighbors_loop map vertex
    (offsets ((- (n - 1)) / 2) ((n - 1) / 2 + 1)) [].

(** *** The planner object *)

Record A_Star_Planner := {
  _path : option (list cell);
  _path_idx : option Z;
  _map : OccupancyGrid;
  _neighbor_func : ndarray Z -> cell -> result (list VertexInfo);
  _eps : Q;
  _heuristic : cell -> Q
}.

Definition set_path (P : A_Star_Planner) (p : option (list cell))
  : A_Star_Planner :=
  {| _path := p; _path_idx := _path_idx P; _map := _map P;
     _neighbor_func := _neighbor_func P; _eps := _eps P;
     _heuristic := _heuristic P |}.

Definition set_path_idx (P : A_Star_Planner) (i : option Z)
  : A_Star_Planner :=
  {| _path := _path P; _path_idx := i; _map := _map P;
     _neighbor_func := _neighbor_func P; _eps := _eps P;
     _heuristic := _heuristic P |}.

Definition set_map (P : A_Star_Planner) (m : OccupancyGrid)
  : A_Star_Planner :=
  {| _path := _path P; _path_idx := _path_idx P; _map := m;
     _neighbor_func := _neighbor_func P; _eps := _eps P;
     _heuristic := _heuristic P |}.

(** [A_Star_Planner(...)] right after construction. *)
Definition init (m : OccupancyGrid)
  (nf : ndarray Z -> cell -> result (list VertexInfo)) (eps : Q)
  (h : cell -> Q) : A_Star_Planner :=
  {| _path := None; _path_idx := None; _map := m;
     _neighbor_func := nf; _eps := eps; _heuristic := h |}.

(** The [path] property. *)
Definition path (P : A_Star_Planner) : list cell :=
  match _path P with
  | None => []
  | Some p => p
  end.

Definition update_environment (P : A_Star_Planner) (scan_start : point)
  (scan_results : list Env.ScanResult) : A_Star_Planner :=
  set_map P (update_map (_map P) scan_start scan_results).

(** [self._path_idx + 1] *)
Definition idx_plus_one (P : A_Star_Planner) : result Z :=
  match _path_idx P with
  | None => Raise TypeError
  | Some i => Ok (i + 1)
  end.

(** The single-stop guard shared by [next_stop] and [take_next_stop]:
    [if self._path.shape[0] == 1: self._path_idx = -1]. *)
Definition pin_single (P : A_Star_Planner) : result A_Star_Planner :=
  match _path P with
  | None => Raise AttributeError
  | Some p =>
      Ok (if Z.of_nat (length p) =? 1 then set_path_idx P (Some (-1)) else P)
  end.

(** [next_stop]: the guard, then [Planner.next_stop], then the conversion
    of [SearchBasedPlanner.next_stop].  A raising call leaves the object as
    it was: the only assignment before the subscript is the guard, and a
    one-element path never raises. *)
Definition next_stop (P : A_Star_Planner) : result (point * A_Star_Planner) :=
  bind (pin_single P) (fun P1 =>
  bind (idx_plus_one P1) (fun i =>
  bind (getitem (path P1) i) (fun c =>
  Ok (convert_to_world_coord (_map P1) c, P1)))).

Definition take_next_stop (P : A_Star_Planner)
  : result (point * A_Star_Planner) :=
  bind (pin_single P) (fun P1 =>
  bind (idx_plus_one P1) (fun i =>
  bind (getitem (path P1) i) (fun next_pos =>
  Ok (convert_to_world_coord (_map P1) next_pos,
      set_path_idx P1 (Some i))))).

(** *** Path revalidation *)

(** [np.sum(values > 0)] *)
Definition count_positive (vs : list Z) : Z :=
  Z.of_nat (length (List.filter (fun v => 0 <? v) vs)).

(** The values [path_valid] reads for the segment ending at path index [i];
    [start] is the loop-carried variable of the source. *)
Definition segment_start (P : A_Star_Planner) (p : list cell) (i : Z)
  (start : point) : result cell :=
  if i =? 0 then Ok (convert_to_grid_coord (_map P) start)
  else getitem p (i - 1).

Definition segment_values (P : A_Star_Planner) (p : list cell) (i : Z)
  (start : point) : result (list Z) :=
  bind (segment_start P p i start) (fun s =>
  bind (getitem p i) (fun pos =>
  take_cells (_map_array (_map P))
    (raytrace (fst s) (snd s) (fst pos) (snd pos)))).

Fixpoint path_valid_loop (P : A_Star_Planner) (p : list cell) (idxs : list Z)
  (start : point) : result bool :=
  match idxs with
  | [] => Ok true
  | i :: rest =>
      bind (segment_start P p i start) (fun s =>
      bind (segment_values P p i start) (fun vs =>
      if count_positive vs =? 0 then Ok false
      else path_valid_loop P p rest (as_point s)))
  end.

Definition path_valid (P : A_Star_Planner) (start : point) : result bool :=
  match _path P with
  | None => Ok false
  | Some p =>
      let len := Z.of_nat (length p) in
      bind (if negb (len =? 1)
            then bind (idx_plus_one P) (fun i => Ok (i >=? len))
            else Ok false) (fun no_more_stops =>
      if no_more_stops then Ok false
      else
        match _path_idx P with
        | None => Raise TypeError
        | Some idx => path_valid_loop P p (range idx len) start
        end)
  end.

(** *** Weighted A* *)

Definition minus (a b : cell) : cell := (fst a - fst b, snd a - snd b).

Definition same_cell (a b : cell) : bool :=
  (fst a =? fst b) && (snd a =? snd b).

(** [g[c] + eps * heuristic(c - target)] *)
Definition priority (P : A_Star_Planner) (gc : weight) (c target : cell)
  : weight :=
  weight_add gc (Fin (_eps P * _heuristic P (minus c target))).

(** One pass of the body of [for child in infos]. *)
Definition relax (P : A_Star_Planner) (target parent_ind : cell)
  (st : search) (child : VertexInfo) : result search :=
  let child_ind := coord child in
  let child_cost := cost child in
  bind (aget (g st) child_ind) (fun gc =>
  bind (aget (g st) parent_ind) (fun gp =>
  if weight_gt gc (weight_add gp child_cost) then
    bind (aset (g st) child_ind (weight_add gp child_cost)) (fun g1 =>
    bind (aset (pred st) child_ind parent_ind) (fun pred1 =>
    bind (aget g1 child_ind) (fun gc1 =>
    Ok {| g := g1;
          OPEN := <[child_ind := priority P gc1 child_ind target]> (OPEN st);
          pred := pred1 |})))
  else Ok st)).

Fixpoint relax_all (P : A_Star_Planner) (target parent_ind : cell)
  (infos : list VertexInfo) (st : search) : result search :=
  match infos with
  | [] => Ok st
  | child :: rest =>
      bind (relax P target parent_ind st child)
        (fun st1 => relax_all P target parent_ind rest st1)
  end.

(** The [while not done] loop.  [Some (Ok (done, st))] is a normal exit,
    [None] means the fuel ran out first. *)
Fixpoint search_loop (fuel : nat) (P : A_Star_Planner)
  (binary_map : ndarray Z) (target : cell) (st : search)
  : option (result (bool * search)) :=
  match fuel with
  | O => None
  | S fuel' =>
      if (size (OPEN st) =? 0)%nat then Some (Ok (false, st))
      else
        match popitem (OPEN st) with
        | None => Some (Raise KeyError)
        | Some parent_ind =>
            let st1 := {| g := g st;
                          OPEN := delete parent_ind (OPEN st);
                          pred := pred st |} in
            if same_cell parent_ind target then Some (Ok (true, st1))
            else
              match bind (_neighbor_func P binary_map parent_ind)
                      (fun infos => relax_all P target parent_ind infos st1)
              with
              | Raise e => Some (Raise e)
              | Ok st2 => search_loop fuel' P binary_map target st2
              end
        end
  end.

(** The [while True] loop that follows the predecessors back. *)
Fixpoint backtrack (fuel : nat) (pred_ : ndarray cell) (start pos : cell)
  (path_ : list cell) : option (result (list cell)) :=
  match fuel with
  | O => None
  | S fuel' =>
      let path_ := path_ ++ [pos] in
      if same_cell pos start then Some (Ok path_)
      else
        match aget pred_ pos with
        | Raise e => Some (Raise e)
        | Ok pos' => backtrack fuel' pred_ start pos' path_
        end
  end.

(** The scratch state before the first iteration. *)
Definition search_init (P : A_Star_Planner) (binary_map : ndarray Z)
  (start target : cell) : result search :=
  bind (aset (full (shape binary_map) Inf) start (Fin 0)) (fun g1 =>
  bind (aget g1 start) (fun gs =>
  Ok {| g := g1;
        OPEN := {[ start := priority P gs start target ]};
        pred := full (shape binary_map) (-1, -1) |})).

Definition _plan_algo (fuel : nat) (P : A_Star_Planner) (start target : cell)
  : option (result (bool * A_Star_Planner)) :=
  if same_cell start target then Some (Ok (true, set_path P (Some [start])))
  else
    let binary_map := get_binary_map (_map P) in
    match search_init P binary_map start target with
    | Raise e => Some (Raise e)
    | Ok st0 =>
        match search_loop fuel P binary_map target st0 with
        | None => None
        | Some (Raise e) => Some (Raise e)
        | Some (Ok (true, st)) =>
            match backtrack fuel (pred st) start target [] with
            | None => None
            | Some (Raise e) => Some (Raise e)
            | Some (Ok path_) =>
                Some (Ok (true, set_path P (Some (rev path_))))
            end
        | Some (Ok (false, st)) => Some (Ok (false, set_path P (Some [])))
        end
    end.

Definition plan (fuel : nat) (P : A_Star_Planner) (start target : point)
  : option (result (bool * A_Star_Planner)) :=
  let start := convert_to_grid_coord (_map P) start in
  let target := convert_to_grid_coord (_map P) target in
  match _plan_algo fuel P start target with
  | Some (Ok (true, P1)) => Some (Ok (true, set_path_idx P1 (Some 0)))
  | other => other
  end.

(** *** Outcomes of [plan] *)

Lemma plan_algo_failure fuel P start target P' :
  _plan_algo fuel P start target = Some (Ok (false, P')) ->
  P' = set_path P (Some []).
Proof.
  unfold _plan_algo. intros H.
  destruct (same_cell start target); [discriminate|].
  destruct (search_init P (get_binary_map (_map P)) start target) as [st0|e];
    [|discriminate].
  destruct (search_loop fuel P (get_binary_map (_map P)) target st0)
    as [[[[|] st]|e]|]; try discriminate.
  - destruct (backtrack fuel (pred st) start target []) as [[path_|e]|];
      discriminate.
  - now inversion H.
Qed.

Lemma plan_failure fuel P start target P' :
  plan fuel P start target = Some (Ok (false, P')) ->
  P' = set_path P (Some []).
Proof.
  unfold plan. intros H.
  destruct (_plan_algo fuel P (convert_to_grid_coord (_map P) start)
              (convert_to_grid_coord (_map P) target))
    as [[[[|] P1]|e]|] eqn:Ha; try discriminate.
  inversion H; subst. eapply plan_algo_failure. exact Ha.
Qed.


(** The planner states reached without any successful [plan]: the freshly
    constructed object, map updates, and [plan] calls that returned
    [False]. *)
Inductive no_successful_plan : A_Star_Planner -> Prop :=
| nsp_init m nf eps h : no_successful_plan (init m nf eps h)
| nsp_update P scan_start scan_results :
    no_successful_plan P ->
    no_successful_plan (update_environment P scan_start scan_results)
| nsp_failed P fuel start target P' :
    no_successful_plan P ->
    plan fuel P start target = Some (Ok (false, P')) ->
    no_successful_plan P'.

(** C10: as long as no [plan] call has succeeded, the [path] property is
    the empty sequence. *)
Theorem path_empty_before_first_success (P : A_Star_Planner) :
  no_successful_plan P -> path P = [] /\ length (path P) = 0%nat.
Proof.
  intros H. assert (path P = []) as Hp; [|rewrite Hp; split; reflexivity].
  induction H as [m nf eps h | P s r H IH | P fuel s t P' H IH Hplan].
  - reflexivity.
  - exact IH.
  - apply plan_failure in Hplan. subst P'. reflexivity.
Qed.

(** *** The cursor *)

(** The length/cursor check of [path_valid],
    [self._path_idx + 1 >= len(self._path)]. *)
Definition no_more_stops (P : A_Star_Planner) : Prop :=
  match _path_idx P with
  | Some i => i + 1 >= Z.of_nat (length (path P))
  | None => False
  end.


(** A planner that holds a path of more than one cell (or none) with the
    cursor on one of its cells. *)
Definition cursor_on_path (P : A_Star_Planner) (p : list cell) (i : Z) : Prop :=
  _path P = Some p /\ _path_idx P = Some i
  /\ 0 <= i < Z.of_nat (length p) /\ length p <> 1%nat.

Inductive call := NextStop | TakeNextStop.

(** One call; an exception leaves the planner as it was. *)
Definition do_call (c : call) (P : A_Star_Planner) : A_Star_Planner :=
  match match c with
        | NextStop => next_stop P
        | TakeNextStop => take_next_stop P
        end
  with
  | Ok (_, P') => P'
  | Raise _ => P
  end.

Definition run (calls : list call) (P : A_Star_Planner) : A_Star_Planner :=
  fold_left (fun P c => do_call c P) calls P.

Lemma pin_single_longer P p :
  _path P = Some p -> length p <> 1%nat -> pin_single P = Ok P.
Proof.
  intros Hp Hlen. unfold pin_single. rewrite Hp.
  destruct (Z.eqb_spec (Z.of_nat (length p)) 1); [lia|reflexivity].
Qed.

Lemma next_stop_keeps_cursor P p i :
  cursor_on_path P p i ->
  (i + 1 < Z.of_nat (length p) ->
   exists c, nth_error p (Z.to_nat (i + 1)) = Some c
     /\ next_stop P = Ok (convert_to_world_coord (_map P) c, P))
  /\ (i + 1 >= Z.of_nat (length p) -> next_stop P = Raise IndexError).
Proof.
  intros (Hp & Hi & Hr & Hl). unfold next_stop.
  rewrite (pin_single_longer P p Hp Hl). simpl.
  unfold idx_plus_one, path. rewrite Hi, Hp. simpl. split.
  - intros Hlt. destruct (getitem_in_range p (i + 1)) as (c & Hn & Hg); [lia|].
    exists c. rewrite Hg. split; [exact Hn|reflexivity].
  - intros Hge. rewrite getitem_past_end by lia. reflexivity.
Qed.

Lemma take_next_stop_advances P p i :
  cursor_on_path P p i ->
  (i + 1 < Z.of_nat (length p) ->
   exists c, nth_error p (Z.to_nat (i + 1)) = Some c
     /\ take_next_stop P
        = Ok (convert_to_world_coord (_map P) c, set_path_idx P (Some (i + 1))))
  /\ (i + 1 >= Z.of_nat (length p) -> take_next_stop P = Raise IndexError).
Proof.
  intros (Hp & Hi & Hr & Hl). unfold take_next_stop.
  rewrite (pin_single_longer P p Hp Hl). simpl.
  unfold idx_plus_one, path. rewrite Hi, Hp. simpl. split.
  - intros Hlt. destruct (getitem_in_range p (i + 1)) as (c & Hn & Hg); [lia|].
    exists c. rewrite Hg. split; [exact Hn|reflexivity].
  - intros Hge. rewrite getitem_past_end by lia. reflexivity.
Qed.

Lemma do_call_cursor c P p i :
  cursor_on_path P p i ->
  exists j, cursor_on_path (do_call c P) p j
    /\ match c with
       | NextStop => j = i
       | TakeNextStop => j = i + 1 \/ (j = i /\ i + 1 >= Z.of_nat (length p))
       end.
Proof.
  intros Hc. pose proof Hc as (Hp & Hi & Hr & Hl).
  destruct c; unfold do_call.
  - destruct (next_stop_keeps_cursor P p i Hc) as [Hlt Hge].
    destruct (Z_lt_ge_dec (i + 1) (Z.of_nat (length p))) as [H|H].
    + destruct (Hlt H) as (c & _ & ->). exists i. split; [exact Hc|reflexivity].
    + rewrite (Hge H). exists i. split; [exact Hc|reflexivity].
  - destruct (take_next_stop_advances P p i Hc) as [Hlt Hge].
    destruct (Z_lt_ge_dec (i + 1) (Z.of_nat (length p))) as [H|H].
    + destruct (Hlt H) as (c & _ & ->). exists (i + 1). split; [|now left].
      repeat split; simpl; auto; lia.
    + rewrite (Hge H). exists i. split; [exact Hc|right; split; [reflexivity|lia]].
Qed.

Lemma run_cursor calls P p i :
  cursor_on_path P p i ->
  exists j, cursor_on_path (run calls P) p j /\ i <= j.
Proof.
  revert P i. induction calls as [|c rest IH]; intros P i Hc.
  - exists i. split; [exact Hc|lia].
  - destruct (do_call_cursor c P p i Hc) as (j & Hj & Hstep).
    destruct (IH (do_call c P) j Hj) as (k & Hk & Hle).
    exists k. split; [exact Hk|].
    destruct c; [subst j; lia|]. destruct Hstep as [->|[-> _]]; lia.
Qed.

Lemma backtrack_nonempty fuel pred_ start pos acc l :
  backtrack fuel pred_ start pos acc = Some (Ok l) -> l <> [].
Proof.
  revert pos acc. induction fuel as [|fuel IH]; intros pos acc H; simpl in H.
  - discriminate.
  - destruct (same_cell pos start).
    + inversion H. destruct acc; discriminate.
    + destruct (aget pred_ pos) as [pos'|e]; [|discriminate].
      eapply IH. exact H.
Qed.

Lemma plan_success fuel P start target P' :
  plan fuel P start target = Some (Ok (true, P')) ->
  exists p, p <> [] /\ P' = set_path_idx (set_path P (Some p)) (Some 0).
Proof.
  unfold plan, _plan_algo. intros H.
  set (s := convert_to_grid_coord (_map P) start) in *.
  set (t := convert_to_grid_coord (_map P) target) in *.
  destruct (same_cell s t).
  - inversion H. exists [s]. split; [discriminate|reflexivity].
  - destruct (search_init P (get_binary_map (_map P)) s t) as [st0|e];
      [|discriminate].
    destruct (search_loop fuel P (get_binary_map (_map P)) t st0)
      as [[[[|] st]|e]|]; try discriminate.
    destruct (backtrack fuel (pred st) s t []) as [[path_|e]|] eqn:Hb;
      try discriminate.
    inversion H. exists (rev path_). split; [|reflexivity].
    apply backtrack_nonempty in Hb. intros Hr. apply Hb.
    rewrite <- (rev_involutive path_), Hr. reflexivity.
Qed.

Lemma do_call_keeps_path c P :
  _path (do_call c P) = _path P /\ _map (do_call c P) = _map P.
Proof.
  unfold do_call, next_stop, take_next_stop, pin_single, idx_plus_one.
  destruct c; destruct (_path P) as [p|] eqn:Hp; simpl; auto;
    destruct (Z.of_nat (length p) =? 1); simpl;
    try (destruct (_path_idx P); simpl; auto);
    match goal with
    | |- context [getitem ?l ?i] => destruct (getitem l i); simpl; auto
    end.
Qed.

Lemma run_keeps_path calls P :
  _path (run calls P) = _path P /\ _map (run calls P) = _map P.
Proof.
  revert P. induction calls as [|c rest IH]; intros P; [split; reflexivity|].
  simpl. destruct (IH (do_call c P)) as [H1 H2].
  destruct (do_call_keeps_path c P) as [H3 H4]. split; congruence.
Qed.

(** On a one-cell path the guard moves the cursor: [next_stop] leaves it
    at -1, [take_next_stop] at 0, whatever it was. *)
Lemma single_cell_cursor P c :
  _path P = Some [c] ->
  next_stop P = Ok (convert_to_world_coord (_map P) c,
                    set_path_idx P (Some (-1)))
  /\ take_next_stop P = Ok (convert_to_world_coord (_map P) c,
                            set_path_idx P (Some 0)).
Proof.
  intros Hp. unfold next_stop, take_next_stop, pin_single.
  rewrite Hp. simpl. unfold path. simpl. rewrite Hp. split; reflexivity.
Qed.

(** C4 (as the code has it): after a successful [plan] and any sequence of
    [next_stop] and [take_next_stop] calls, the stored path is the planned
    one.  When it has more than one cell, the cursor is on it, at or beyond
    every earlier position; [next_stop] leaves the planner as it is, and
    [take_next_stop] moves the cursor forward by exactly one when a further
    stop exists and otherwise raises [IndexError] without moving it.  When
    it has one cell, [next_stop] returns that cell and leaves the cursor at
    -1, and [take_next_stop] returns it and leaves the cursor at 0. *)
Theorem cursor_after_successful_plan
  (fuel : nat) (P0 P : A_Star_Planner) (start target : point)
  (calls : list call) :
  plan fuel P0 start target = Some (Ok (true, P)) ->
  (length (path P) <> 1%nat ->
   exists i,
     cursor_on_path (run calls P) (path P) i
     /\ do_call NextStop (run calls P) = run calls P
     /\ (i + 1 < Z.of_nat (length (path P)) ->
         exists w, take_next_stop (run calls P)
                   = Ok (w, set_path_idx (run calls P) (Some (i + 1))))
     /\ (i + 1 >= Z.of_nat (length (path P)) ->
         take_next_stop (run calls P) = Raise IndexError)
     /\ forall more, exists j,
          cursor_on_path (run more (run calls P)) (path P) j /\ i <= j)
  /\ (forall c, path P = [c] ->
      next_stop (run calls P)
      = Ok (convert_to_world_coord (_map P) c,
            set_path_idx (run calls P) (Some (-1)))
      /\ take_next_stop (run calls P)
         = Ok (convert_to_world_coord (_map P) c,
               set_path_idx (run calls P) (Some 0))).
Proof.
  intros Hplan.
  destruct (plan_success _ _ _ _ _ Hplan) as (p & Hne & ->).
  change (path _) with p. split.
  - intros Hlen.
    assert (cursor_on_path (set_path_idx (set_path P0 (Some p)) (Some 0)) p 0)
      as H0.
    { repeat split; simpl; auto; try lia. destruct p; [congruence|simpl; lia]. }
    destruct (run_cursor calls _ p 0 H0) as (i & Hi & _).
    exists i. split; [exact Hi|].
    destruct (next_stop_keeps_cursor _ p i Hi) as [Hn1 Hn2].
    destruct (take_next_stop_advances _ p i Hi) as [Ht1 Ht2].
    split; [|split; [|split]].
    + unfold do_call.
      destruct (Z_lt_ge_dec (i + 1) (Z.of_nat (length p))) as [H|H].
      * destruct (Hn1 H) as (c & _ & ->). reflexivity.
      * rewrite (Hn2 H). reflexivity.
    + intros H. destruct (Ht1 H) as (c & _ & Hc). eexists. exact Hc.
    + exact Ht2.
    + intros more. exact (run_cursor more _ p i Hi).
  - intros c ->.
    destruct (run_keeps_path calls
                (set_path_idx (set_path P0 (Some [c])) (Some 0))) as [Hp Hm].
    simpl in Hp, Hm.
    pose proof (single_cell_cursor _ c Hp) as Hs. rewrite Hm in Hs. exact Hs.
Qed.

(** *** What [path_valid] tests *)

Lemma range_cons a b : a < b -> range a b = a :: range (a + 1) b.
Proof.
  intros H. unfold range.
  replace (Z.to_nat (b - a)) with (S (Z.to_nat (b - (a + 1)))) by lia.
  simpl. f_equal; [lia|].
  rewrite <- seq_shift, map_map. apply map_ext. intros k. lia.
Qed.

Lemma segment_values_nonzero P p i s1 s2 :
  i <> 0 -> segment_values P p i s1 = segment_values P p i s2.
Proof.
  intros Hi. unfold segment_values, segment_start.
  destruct (Z.eqb_spec i 0); [contradiction|reflexivity].
Qed.

Lemma path_valid_loop_nonzero P p idxs s1 s2 :
  Forall (fun i => i <> 0) idxs ->
  path_valid_loop P p idxs s1 = path_valid_loop P p idxs s2.
Proof.
  intros Hnz. destruct idxs as [|i rest]; [reflexivity|].
  inversion Hnz as [|? ? Hi _]; subst. simpl.
  rewrite (segment_values_nonzero P p i s1 s2 Hi).
  unfold segment_start. destruct (Z.eqb_spec i 0); [contradiction|reflexivity].
Qed.

Lemma path_valid_loop_unmarked P p start idxs :
  Forall (fun i => i <> 0) (tl idxs) ->
  (forall i, In i idxs -> exists vs, segment_values P p i start = Ok vs) ->
  exists b,
    path_valid_loop P p idxs start = Ok b
    /\ (b = false <->
        exists i vs, In i idxs /\ segment_values P p i start = Ok vs
                     /\ count_positive vs = 0).
Proof.
  revert start. induction idxs as [|i rest IH]; intros start Hnz Hread.
  - exists true. split; [reflexivity|]. split; [discriminate|].
    intros (i & vs & [] & _).
  - simpl in Hnz. simpl.
    destruct (Hread i (or_introl eq_refl)) as (vs & Hvs).
    assert (exists s, segment_start P p i start = Ok s) as (s & Hs).
    { unfold segment_values in Hvs.
      destruct (segment_start P p i start) as [s|e]; [eauto|discriminate]. }
    rewrite Hs, Hvs. simpl.
    destruct (Z.eqb_spec (count_positive vs) 0) as [Hz|Hz].
    + exists false. split; [reflexivity|]. split; [|reflexivity].
      intros _. exists i, vs. auto.
    + assert (forall j, In j rest ->
                segment_values P p j (as_point s) = segment_values P p j start)
        as Hsame.
      { intros j Hj. apply segment_values_nonzero.
        rewrite Forall_forall in Hnz. apply Hnz.
        apply list_elem_of_In. exact Hj. }
      destruct (IH (as_point s)) as (b & Hb & Hiff).
      * destruct rest; [constructor|]. simpl.
        inversion Hnz; assumption.
      * intros j Hj. rewrite Hsame by exact Hj. apply Hread. now right.
      * exists b. split; [exact Hb|]. rewrite Hiff. split.
        -- intros (j & ws & Hj & Hw & Hc). exists j, ws.
           rewrite <- Hsame by exact Hj. auto.
        -- intros (j & ws & [<-|Hj] & Hw & Hc).
           ++ rewrite Hvs in Hw. inversion Hw; subst. contradiction.
           ++ exists j, ws. rewrite Hsame by exact Hj. auto.
Qed.

(** For a path of more than one cell with a further stop, and when every
    segment of the untraversed tail can be read, [path_valid] answers
    [False] exactly when on some segment from the cursor on {e no} traced
    cell holds a value greater than 0.  Segments before the cursor do not
    occur. *)
Lemma path_valid_false_iff_unmarked_segment P p k start :
  _path P = Some p -> _path_idx P = Some k ->
  0 <= k -> k + 1 < Z.of_nat (length p) ->
  (forall i, k <= i < Z.of_nat (length p) ->
     exists vs, segment_values P p i start = Ok vs) ->
  exists b,
    path_valid P start = Ok b
    /\ (b = false <->
        exists i vs, k <= i < Z.of_nat (length p)
                     /\ segment_values P p i start = Ok vs
                     /\ count_positive vs = 0).
Proof.
  intros Hp Hk H0 Hlt Hread. unfold path_valid. rewrite Hp.
  unfold idx_plus_one. rewrite Hk.
  destruct (Z.eqb_spec (Z.of_nat (length p)) 1) as [E|E]; [lia|]. simpl.
  destruct (Z.geb_spec (k + 1) (Z.of_nat (length p))); [lia|].
  destruct (path_valid_loop_unmarked P p start (range k (Z.of_nat (length p))))
    as (b & Hb & Hiff).
  - rewrite range_cons by lia. simpl. apply Forall_forall. intros i Hi.
    apply list_elem_of_In, in_range in Hi. lia.
  - intros i Hi. apply in_range in Hi. now apply Hread.
  - exists b. split; [exact Hb|]. rewrite Hiff.
    split; intros (i & vs & Hi & Hrest); exists i, vs;
      (split; [apply in_range in Hi || apply in_range; exact Hi|exact Hrest]).
Qed.

Lemma take_cells_values {A} (a : ndarray A) cs vs :
  take_cells a cs = Ok vs ->
  List.Forall (fun v => exists c, v = data a c) vs.
Proof.
  revert vs. induction cs as [|c rest IH]; intros vs H; simpl in H.
  - inversion H. constructor.
  - unfold aget in H. destruct (index2 a c) as [k|e]; [|discriminate].
    simpl in H. destruct (take_cells a rest) as [ws|e]; [|discriminate].
    simpl in H. inversion H; subst. constructor; [now exists k|now apply IH].
Qed.

Lemma count_positive_unmarked vs :
  List.Forall (fun v => v <= 0) vs -> count_positive vs = 0.
Proof.
  unfold count_positive. induction 1 as [|v vs Hv _ IH]; [reflexivity|].
  simpl. destruct (Z.ltb_spec 0 v); [lia|exact IH].
Qed.

(** On a map with no cell above 0, [path_valid] never answers [True] for a
    planner whose cursor is on its path: the first segment it reads
    already makes it answer [False]. *)
Lemma path_valid_never_true_on_unmarked_map P p k start :
  (forall c, data (_map_array (_map P)) c <= 0) ->
  _path P = Some p -> _path_idx P = Some k -> k < Z.of_nat (length p) ->
  path_valid P start <> Ok true.
Proof.
  intros Hmap Hp Hk Hlt. unfold path_valid, idx_plus_one. rewrite Hp, Hk.
  assert (path_valid_loop P p (range k (Z.of_nat (length p))) start <> Ok true)
    as Hloop.
  { rewrite range_cons by exact Hlt. simpl.
    destruct (segment_start P p k start) as [s|e]; [|discriminate]. simpl.
    destruct (segment_values P p k start) as [vs|e] eqn:Hvs; [|discriminate].
    simpl. rewrite count_positive_unmarked; [discriminate|].
    unfold segment_values in Hvs.
    destruct (segment_start P p k start) as [s'|e]; [|discriminate].
    simpl in Hvs. destruct (getitem p k) as [pos|e]; [|discriminate].
    simpl in Hvs. apply take_cells_values in Hvs.
    eapply List.Forall_impl; [|exact Hvs].
    intros v (c & ->). apply Hmap. }
  destruct (negb (Z.of_nat (length p) =? 1)); simpl.
  - destruct (k + 1 >=? Z.of_nat (length p)); [discriminate|exact Hloop].
  - exact Hloop.
Qed.

(** The design's reading of the same test: a segment is obstructed when
    one of its traced cells is marked, [marked] telling which cell values
    count as an obstacle, and the path is invalid exactly when a segment of
    the untraversed tail is obstructed. *)
Definition segment_obstructed (marked : Z -> bool) (P : A_Star_Planner)
  (p : list cell) (i : Z) (start : point) : Prop :=
  exists vs v, segment_values P p i start = Ok vs
               /\ In v vs /\ marked v = true.

Definition tail_obstructed (marked : Z -> bool) (P : A_Star_Planner)
  (start : point) : Prop :=
  exists p k i, _path P = Some p /\ _path_idx P = Some k
                /\ k <= i < Z.of_nat (length p)
                /\ segment_obstructed marked P p i start.

Definition invalid_iff_tail_obstructed (marked : Z -> bool)
  (P : A_Star_Planner) (start : point) : Prop :=
  path_valid P start = Ok false <-> tail_obstructed marked P start.


(** The claim of C4 as stated, for one call: [next_stop] keeps the cursor,
    [take_next_stop] moves it forward by one. *)
Definition cursor_of (P : A_Star_Planner) : Z :=
  match _path_idx P with
  | Some i => i
  | None => 0
  end.

Definition call_advances (c : call) (P : A_Star_Planner) : Prop :=
  match c with
  | NextStop => cursor_of (do_call c P) = cursor_of P
  | TakeNextStop => cursor_of (do_call c P) = cursor_of P + 1
  end.

(** *** The grid graph of the window strategy *)

(** Half the side of the window, the largest offset on each axis. *)
Definition reach (n : Z) : Z := (window n - 1) / 2.

(** [v] is a candidate of [get_n_grid_neighbors] at [u]. *)
Definition edge (shp : Z * Z) (n : Z) (u v : cell) : Prop :=
  in_bounds shp u /\ in_bounds shp v /\ v <> u
  /\ - reach n <= fst v - fst u <= reach n
  /\ - reach n <= snd v - snd u <= reach n.

(** Paths from [a], grown at the far end as the search grows its labels. *)
Inductive grid_path (shp : Z * Z) (n : Z) (a : cell)
  : cell -> list cell -> Prop :=
| gp_start : in_bounds shp a -> grid_path shp n a a [a]
| gp_snoc u v p :
    grid_path shp n a u p -> edge shp n u v -> grid_path shp n a v (p ++ [v]).

(** The sum of the edge costs along a path. *)
Fixpoint path_cost (p : list cell) : Q :=
  match p with
  | u :: rest =>
      match rest with
      | v :: _ => norm (minus v u) + path_cost rest
      | [] => 0
      end
  | [] => 0
  end%Q.

(** The heuristic never overestimates the cost of reaching [t], and is not
    negative at [t] itself. *)
Definition admissible (shp : Z * Z) (n : Z) (h : cell -> Q) (t : cell) : Prop :=
  (forall u q, grid_path shp n u t q -> (h (minus u t) <= path_cost q)%Q)
  /\ (0 <= h (minus t t))%Q.

Definition obstacle_free (m : ndarray Z) : Prop :=
  forall c, in_bounds (shape m) c -> data m c <> OBSTACLE.

(** [pqdict] pops a key of least priority. *)
Definition pops_least : Prop :=
  forall O : gmap cell weight,
    O <> ∅ ->
    exists k p, popitem O = Some k /\ O !! k = Some p
                /\ forall k' p', O !! k' = Some p' -> weight_gt p p' = false.

(** [raytrace] stays on the grid. *)
Definition raytrace_within (shp : Z * Z) : Prop :=
  forall a b, in_bounds shp a -> in_bounds shp b ->
    Forall (in_bounds shp) (raytrace (fst a) (snd a) (fst b) (snd b)).

Lemma index2_in_bounds {A} (a : ndarray A) c :
  in_bounds (shape a) c -> index2 a c = Ok c.
Proof.
  intros [H1 H2]. unfold index2.
  rewrite !norm_index_in_range by assumption. now destruct c.
Qed.

Lemma aget_in_bounds {A} (a : ndarray A) c :
  in_bounds (shape a) c -> aget a c = Ok (data a c).
Proof. intros H. unfold aget. now rewrite index2_in_bounds. Qed.

Lemma aset_in_bounds {A} (a : ndarray A) c v :
  in_bounds (shape a) c ->
  aset a c v = Ok {| shape := shape a;
                     data := fun x => if decide (x = c) then v else data a x |}.
Proof. intros H. unfold aset. now rewrite index2_in_bounds. Qed.

Lemma same_cell_eq a b : same_cell a b = true <-> a = b.
Proof.
  unfold same_cell. rewrite andb_true_iff, !Z.eqb_eq.
  destruct a, b; simpl. split; [intros []; congruence|intros H; now inversion H].
Qed.

Lemma same_cell_neq a b : same_cell a b = false <-> a <> b.
Proof.
  rewrite <- same_cell_eq. destruct (same_cell a b); split; congruence.
Qed.

Lemma window_odd n : window n = 2 * reach n + 1 /\ 1 <= reach n.
Proof.
  unfold reach, window.
  destruct (Z.ltb_spec n 3).
  - simpl. split; reflexivity || lia.
  - destruct (Z.eqb_spec (n mod 2) 0) as [E|E].
    + pose proof (Z.div_mod n 2 ltac:(lia)) as Hd. rewrite E in Hd.
      replace (n + 1 - 1) with (n / 2 * 2) by lia.
      rewrite Z.div_mul by lia. lia.
    + pose proof (Z.div_mod n 2 ltac:(lia)) as Hd.
      pose proof (Z.mod_pos_bound n 2 ltac:(lia)) as Hb.
      assert (n mod 2 = 1) as E1 by lia. rewrite E1 in Hd.
      replace (n - 1) with (n / 2 * 2) by lia.
      rewrite Z.div_mul by lia. lia.
Qed.

Lemma window_low n : (- (window n - 1)) / 2 = - reach n.
Proof.
  destruct (window_odd n) as [Hw _]. rewrite Hw.
  replace (- (2 * reach n + 1 - 1)) with ((- reach n) * 2) by lia.
  apply Z.div_mul. lia.
Qed.

Lemma window_high n : (window n - 1) / 2 + 1 = reach n + 1.
Proof. reflexivity. Qed.

Lemma in_offsets lo hi ij :
  In ij (offsets lo hi) <-> lo <= fst ij < hi /\ lo <= snd ij < hi.
Proof.
  unfold offsets. rewrite in_flat_map. split.
  - intros (i & Hi & Hij). apply in_map_iff in Hij.
    destruct Hij as (j & <- & Hj). apply in_range in Hi, Hj. simpl. lia.
  - intros [Hi Hj]. exists (fst ij). split; [now apply in_range|].
    apply in_map_iff. exists (snd ij). split; [now destruct ij|].
    now apply in_range.
Qed.

Lemma candidate_iff (m : ndarray Z) u ij :
  candidate m u ij = true
  <-> ij <> (0, 0) /\ 0 <= fst u + fst ij < fst (shape m)
      /\ 0 <= snd u + snd ij < snd (shape m).
Proof.
  unfold candidate. simpl.
  rewrite !andb_true_iff, negb_true_iff, andb_false_iff, !Z.eqb_neq,
    !Z.geb_le, !Z.ltb_lt.
  destruct ij as [i j]. simpl. split.
  - intros ((((Hne & H1) & H2) & H3) & H4). split; [|lia].
    intros Heq. inversion Heq. lia.
  - intros (Hne & H1 & H2). repeat split; try lia.
    destruct (Z.eq_dec i 0); [|now left]. right. intros ->. subst.
    now apply Hne.
Qed.

Lemma take_cells_free (m : ndarray Z) cs :
  obstacle_free m -> Forall (in_bounds (shape m)) cs ->
  exists vs, take_cells m cs = Ok vs /\ count_obstacles vs = 0.
Proof.
  intros Hfree Hin. induction cs as [|c rest IH]; simpl.
  - exists []. split; reflexivity.
  - inversion Hin as [|? ? Hc Hrest]; subst.
    destruct (IH Hrest) as (vs & Hvs & Hcount).
    rewrite aget_in_bounds by exact Hc. simpl. rewrite Hvs. simpl.
    exists (data m c :: vs). split; [reflexivity|].
    unfold count_obstacles in *. simpl.
    destruct (Z.eqb_spec (data m c) OBSTACLE) as [E|E].
    + exfalso. exact (Hfree c Hc E).
    + exact Hcount.
Qed.

(** The entry of [infos] for the offset [ij] on a free ray. *)
Definition info_at (u ij : cell) : VertexInfo :=
  {| coord := (fst u + fst ij, snd u + snd ij); cost := Fin (norm ij) |}.

Lemma get_n_grid_neighbors_loop_free (m : ndarray Z) u ijs acc :
  obstacle_free m -> raytrace_within (shape m) -> in_bounds (shape m) u ->
  get_n_grid_neighbors_loop m u ijs acc
  = Ok (acc ++ map (info_at u) (List.filter (candidate m u) ijs)).
Proof.
  intros Hfree Hray Hu. revert acc.
  induction ijs as [|ij rest IH]; intros acc; simpl.
  - now rewrite app_nil_r.
  - destruct (candidate m u ij) eqn:Hc.
    + apply candidate_iff in Hc. destruct Hc as (_ & H1 & H2).
      destruct (take_cells_free m
                  (raytrace (fst u) (snd u) (fst u + fst ij) (snd u + snd ij))
                  Hfree) as (vs & Hvs & Hcount).
      { apply (Hray u (fst u + fst ij, snd u + snd ij) Hu).
        split; assumption. }
      rewrite Hvs. simpl. rewrite Hcount. simpl.
      rewrite IH, <- app_assoc. reflexivity.
    + apply IH.
Qed.

(** The neighbours of [u] on an obstacle-free map. *)
Definition neighbors (m : ndarray Z) (n : Z) (u : cell) : list VertexInfo :=
  map (info_at u)
    (List.filter (candidate m u) (offsets (- reach n) (reach n + 1))).

Lemma get_n_grid_neighbors_free (m : ndarray Z) n u :
  obstacle_free m -> raytrace_within (shape m) -> in_bounds (shape m) u ->
  get_n_grid_neighbors n m u = Ok (neighbors m n u).
Proof.
  intros Hfree Hray Hu. unfold get_n_grid_neighbors.
  rewrite window_low, window_high.
  now rewrite get_n_grid_neighbors_loop_free.
Qed.

Lemma in_neighbors (m : ndarray Z) n u info :
  in_bounds (shape m) u ->
  In info (neighbors m n u)
  <-> edge (shape m) n u (coord info)
      /\ cost info = Fin (norm (minus (coord info) u)).
Proof.
  intros Hu. unfold neighbors. rewrite in_map_iff. split.
  - intros (ij & <- & Hin). apply filter_In in Hin. destruct Hin as [Hoff Hc].
    apply in_offsets in Hoff. apply candidate_iff in Hc.
    destruct Hc as (Hne & H1 & H2). destruct ij as [i j], u as [x y].
    simpl in *. split.
    + repeat split; simpl; try lia; try apply Hu.
      intros Heq. apply Hne. inversion Heq. f_equal; lia.
    + unfold minus. simpl. do 2 f_equal. f_equal; lia.
  - intros [(_ & Hv & Hne & H1 & H2) Hcost].
    exists (minus (coord info) u). split.
    + destruct info as [[vx vy] c], u as [x y]. simpl in *.
      unfold info_at, minus. simpl. rewrite Hcost. unfold minus. simpl.
      f_equal. f_equal; lia.
    + apply filter_In. split.
      * apply in_offsets. unfold minus. simpl. lia.
      * apply candidate_iff. unfold minus. simpl.
        destruct Hv as [Hv1 Hv2]. split; [|split; lia].
        intros Heq. apply Hne. inversion Heq.
        destruct (coord info) as [vx vy], u as [x y]. simpl in *.
        f_equal; lia.
Qed.

(** *** Paths and their costs *)

Section Paths.

Variable shp : Z * Z.
Variable n : Z.

(** Distinct cells are at a positive distance. *)
Hypothesis norm_pos : forall ij : cell, ij <> (0, 0) -> (0 < norm ij)%Q.

Lemma edge_cost_pos u v : edge shp n u v -> (0 < norm (minus v u))%Q.
Proof.
  intros (_ & _ & Hne & _). apply norm_pos. intros Heq. apply Hne.
  unfold minus in Heq. inversion Heq. destruct u, v. simpl in *. f_equal; lia.
Qed.

Lemma grid_path_ends a b p :
  grid_path shp n a b p -> exists p', p = p' ++ [b].
Proof.
  intros H. destruct H as [Ha|u v p Hp He].
  - now exists [].
  - now exists p.
Qed.

Lemma grid_path_in_bounds a b p :
  grid_path shp n a b p ->
  in_bounds shp a /\ in_bounds shp b /\ Forall (in_bounds shp) p.
Proof.
  induction 1 as [Ha|u v p Hp IH He].
  - split; [assumption|]. split; [assumption|].
    constructor; [assumption|constructor].
  - destruct IH as (Ha & _ & Hall). destruct He as (_ & Hv & _).
    split; [assumption|]. split; [assumption|].
    apply Forall_app. split; [assumption|]. constructor; [assumption|constructor].
Qed.

Lemma path_cost_two_last p' u v :
  (path_cost (p' ++ [u; v]) == path_cost (p' ++ [u]) + norm (minus v u))%Q.
Proof.
  induction p' as [|x p' IH].
  - simpl. lra.
  - change ((x :: p') ++ [u; v]) with (x :: (p' ++ [u; v])).
    change ((x :: p') ++ [u]) with (x :: (p' ++ [u])).
    destruct p' as [|y p'].
    + simpl in *. lra.
    + change (path_cost (x :: (y :: p') ++ [u; v]))
        with (norm (minus y x) + path_cost ((y :: p') ++ [u; v]))%Q.
      change (path_cost (x :: (y :: p') ++ [u]))
        with (norm (minus y x) + path_cost ((y :: p') ++ [u]))%Q.
      rewrite IH. lra.
Qed.

Lemma path_cost_snoc a u v p :
  grid_path shp n a u p ->
  (path_cost (p ++ [v]) == path_cost p + norm (minus v u))%Q.
Proof.
  intros Hp. destruct (grid_path_ends _ _ _ Hp) as (p' & ->).
  rewrite <- app_assoc. apply path_cost_two_last.
Qed.

Lemma path_cost_nonneg a b p : grid_path shp n a b p -> (0 <= path_cost p)%Q.
Proof.
  induction 1 as [Ha|u v p Hp IH He].
  - simpl. lra.
  - rewrite (path_cost_snoc a u v p Hp).
    pose proof (edge_cost_pos u v He). lra.
Qed.

Lemma list_last_cases {A} (l : list A) :
  l = [] \/ exists l' x, l = l' ++ [x].
Proof.
  destruct l as [|y l] using rev_ind; [now left|right]. eauto.
Qed.

(** A path through [u] is a path to [u] followed by a path from [u]. *)
Lemma grid_path_split a b p :
  grid_path shp n a b p ->
  forall p1 u p2, p = p1 ++ u :: p2 ->
    grid_path shp n a u (p1 ++ [u])
    /\ grid_path shp n u b (u :: p2)
    /\ (path_cost p == path_cost (p1 ++ [u]) + path_cost (u :: p2))%Q.
Proof.
  induction 1 as [Ha|u0 v p Hp IH He]; intros p1 u p2 Heq.
  - destruct p1 as [|x p1].
    + inversion Heq; subst. simpl.
      split; [now constructor|]. split; [now constructor|]. lra.
    + inversion Heq. destruct p1; discriminate.
  - destruct (list_last_cases p2) as [->|(p2' & x & ->)].
    + apply app_inj_tail in Heq. destruct Heq as [-> ->].
      split; [|split].
      * now apply (gp_snoc shp n a u0 u).
      * constructor. apply He.
      * simpl. lra.
    + change (p1 ++ u :: p2' ++ [x]) with (p1 ++ (u :: p2') ++ [x]) in Heq.
      rewrite app_assoc in Heq. apply app_inj_tail in Heq.
      destruct Heq as [-> ->].
      destruct (IH p1 u p2' eq_refl) as (H1 & H2 & Hc).
      split; [|split].
      * exact H1.
      * change (u :: p2' ++ [x]) with ((u :: p2') ++ [x]).
        now apply (gp_snoc shp n u u0 x).
      * rewrite (path_cost_snoc a u0 x _ Hp).
        change (u :: p2' ++ [x]) with ((u :: p2') ++ [x]).
        rewrite (path_cost_snoc u u0 x _ H2). lra.
Qed.

(** Some path joins any two cells of the grid: step along one axis, then
    along the other. *)
Lemma grid_path_exists a b :
  in_bounds shp a -> in_bounds shp b -> exists p, grid_path shp n a b p.
Proof.
  intros Ha Hb.
  remember (Z.to_nat (Z.abs (fst b - fst a) + Z.abs (snd b - snd a))) as d
    eqn:Hd.
  revert b Hb Hd. induction d as [|d IH]; intros b Hb Hd.
  - assert (b = a) as -> by (destruct a, b; simpl in *; f_equal; lia).
    exists [a]. now constructor.
  - destruct (window_odd n) as [_ Hr].
    assert (exists u, in_bounds shp u /\ edge shp n u b
              /\ d = Z.to_nat (Z.abs (fst u - fst a) + Z.abs (snd u - snd a)))
      as (u & Hu & He & Hdu).
    { destruct a as [ax ay], b as [bx by_]. unfold edge, in_bounds in *.
      simpl in *.
      destruct (Z.eq_dec bx ax) as [Ex|Ex].
      - destruct (Z_lt_le_dec by_ ay).
        + exists (bx, by_ + 1). cbn [fst snd].
          repeat split; try lia; intros Heq; inversion Heq; lia.
        + exists (bx, by_ - 1). cbn [fst snd].
          repeat split; try lia; intros Heq; inversion Heq; lia.
      - destruct (Z_lt_le_dec bx ax).
        + exists (bx + 1, by_). cbn [fst snd].
          repeat split; try lia; intros Heq; inversion Heq; lia.
        + exists (bx - 1, by_). cbn [fst snd].
          repeat split; try lia; intros Heq; inversion Heq; lia. }
    destruct (IH u Hu Hdu) as (p & Hp).
    exists (p ++ [b]). now apply (gp_snoc shp n a u b).
Qed.

End Paths.

(** *** Counting tools for the termination argument *)

(** All the lists of at most [k] elements of [xs]. *)
Fixpoint lists_upto {A} (xs : list A) (k : nat) : list (list A) :=
  match k with
  | O => [[]]
  | S k' => [] :: flat_map (fun l => map (fun x => x :: l) xs) (lists_upto xs k')
  end.

(** The cells of a grid of shape [shp]. *)
Definition cells (shp : Z * Z) : list cell :=
  flat_map (fun i => map (fun j => (i, j)) (range 0 (snd shp)))
    (range 0 (fst shp)).

Lemma in_lists_upto {A} (xs : list A) k l :
  List.Forall (fun x => In x xs) l -> (length l <= k)%nat ->
  In l (lists_upto xs k).
Proof.
  revert l. induction k as [|k IH]; intros l Hall Hlen.
  - destruct l; [now left|simpl in Hlen; lia].
  - destruct l as [|x l]; [now left|]. right.
    inversion Hall as [|? ? Hx Hl]; subst.
    apply in_flat_map. exists l. split.
    + apply IH; [assumption|simpl in Hlen; lia].
    + apply in_map_iff. now exists x.
Qed.

Lemma in_cells shp c : In c (cells shp) <-> in_bounds shp c.
Proof.
  unfold cells, in_bounds. rewrite in_flat_map. split.
  - intros (i & Hi & Hc). apply in_map_iff in Hc. destruct Hc as (j & <- & Hj).
    apply in_range in Hi, Hj. simpl. lia.
  - intros [Hi Hj]. exists (fst c). split; [apply in_range; lia|].
    apply in_map_iff. exists (snd c). split; [now destruct c|].
    apply in_range. lia.
Qed.

Lemma filter_length_le {A} (f f' : A -> bool) l :
  (forall x, In x l -> f x = true -> f' x = true) ->
  (length (List.filter f l) <= length (List.filter f' l))%nat.
Proof.
  induction l as [|x l IH]; intros H; simpl; [lia|].
  assert (length (List.filter f l) <= length (List.filter f' l))%nat as Hl.
  { apply IH. intros y Hy. apply H. now right. }
  destruct (f x) eqn:Hf.
  - rewrite (H x (or_introl eq_refl) Hf). simpl. lia.
  - destruct (f' x); simpl; lia.
Qed.

Lemma filter_length_lt {A} (f f' : A -> bool) l a :
  (forall x, In x l -> f x = true -> f' x = true) ->
  In a l -> f' a = true -> f a = false ->
  (length (List.filter f l) < length (List.filter f' l))%nat.
Proof.
  induction l as [|x l IH]; intros H Hin Hfa Hf'a; [destruct Hin|].
  simpl.
  assert (length (List.filter f l) <= length (List.filter f' l))%nat as Hle.
  { apply filter_length_le. intros y Hy. apply H. now right. }
  destruct Hin as [->|Hin].
  - rewrite Hfa, Hf'a. simpl. lia.
  - assert (length (List.filter f l) < length (List.filter f' l))%nat as Hlt.
    { apply IH; try assumption. intros y Hy. apply H. now right. }
    destruct (f x) eqn:Hf.
    + rewrite (H x (or_introl eq_refl) Hf). simpl. lia.
    + destruct (f' x); simpl; lia.
Qed.

(** The order on weights. *)
Lemma weight_gt_fin_iff w (k : Q) :
  weight_gt w (Fin k) = false <-> exists y, w = Fin y /\ (y <= k)%Q.
Proof.
  destruct w as [y|]; simpl.
  - rewrite Qltb_ge. split; [eauto|]. intros (y' & Hy & Hle). now inversion Hy.
  - split; [discriminate|]. intros (y & Hy & _). discriminate.
Qed.

Lemma weight_gt_fin_lt (y k : Q) : weight_gt (Fin y) (Fin k) = true <-> (k < y)%Q.
Proof. simpl. apply Qltb_lt. Qed.

Lemma weight_gt_lower w (k k' : Q) :
  weight_gt w (Fin k) = true -> (k' <= k)%Q -> weight_gt w (Fin k') = true.
Proof.
  destruct w as [y|]; simpl; [|reflexivity].
  rewrite !Qltb_lt. intros. lra.
Qed.

(** *** The search on an obstacle-free map *)

Section Optimality.

Variable P : A_Star_Planner.
Variable n : Z.
Variables s t : cell.

Local Abbreviation bm := (get_binary_map (_map P)).
Local Abbreviation shp := (shape (get_binary_map (_map P))).

Hypothesis norm_pos : forall ij : cell, ij <> (0, 0) -> (0 < norm ij)%Q.
Hypothesis strategy : _neighbor_func P = get_n_grid_neighbors n.
Hypothesis eps_one : (_eps P == 1)%Q.
Hypothesis free : obstacle_free bm.
Hypothesis rays : raytrace_within shp.
Hypothesis queue : pops_least.
Hypothesis heur : admissible shp n (_heuristic P) t.
Hypothesis s_in : in_bounds shp s.
Hypothesis t_in : in_bounds shp t.
Hypothesis s_ne_t : s <> t.

(** [g[v]] *)
Definition label (st : search) (v : cell) : weight := data (g st) v.

(** Every cell met along [W] already has a label no greater than the cost
    of [W] up to that cell. *)
Definition dominated (st : search) (W : list cell) : Prop :=
  forall p1 w p2, W = p1 ++ w :: p2 ->
    exists y, label st w = Fin y /\ (y <= path_cost (p1 ++ [w]))%Q.

(** The loop invariant.  While the neighbours [todo] of the popped cell
    [u] are still to be relaxed, [u] is the one closed cell whose edges
    need not be settled yet. *)
Record inv (u : cell) (todo : list cell) (st : search) : Prop := {
  inv_shape_g : shape (g st) = shp;
  inv_shape_pred : shape (pred st) = shp;
  inv_start : label st s = Fin 0;
  inv_witness : forall v x, label st v = Fin x ->
    exists W, grid_path shp n s v W /\ List.NoDup W
              /\ (path_cost W == x)%Q /\ dominated st W;
  inv_pred : forall v x, label st v = Fin x -> v <> s ->
    exists y, edge shp n (data (pred st) v) v
              /\ label st (data (pred st) v) = Fin y
              /\ (y + norm (minus v (data (pred st) v)) <= x)%Q;
  inv_open : forall v p, OPEN st !! v = Some p ->
    in_bounds shp v
    /\ exists x, label st v = Fin x
                 /\ p = Fin (x + _eps P * _heuristic P (minus v t));
  inv_closed : forall w x v, label st w = Fin x -> OPEN st !! w = None ->
    edge shp n w v ->
    (w = u /\ In v todo)
    \/ exists y, label st v = Fin y /\ (y <= x + norm (minus v w))%Q;
  inv_target : forall x, label st t = Fin x -> OPEN st !! t <> None
}.

(** The paths whose cost is still below the label of their last cell. *)
Definition above (st : search) (W : list cell) : bool :=
  match rev W with
  | [] => false
  | v :: _ => weight_gt (label st v) (Fin (path_cost W))
  end.

Definition candidates : list (list cell) :=
  lists_upto (cells shp) (length (cells shp)).

Definition mu (st : search) : nat := length (List.filter (above st) candidates).

Definition potential (st : search) : nat := (2 * mu st + size (OPEN st))%nat.

Lemma label_nonneg u todo st v x :
  inv u todo st -> label st v = Fin x -> (0 <= x)%Q.
Proof.
  intros Hinv Hv. destruct (inv_witness _ _ _ Hinv v x Hv) as (W & HW & _ & Hc & _).
  rewrite <- Hc. exact (path_cost_nonneg shp n norm_pos _ _ _ HW).
Qed.

Lemma simple_path_is_candidate a b W :
  grid_path shp n a b W -> List.NoDup W -> In W candidates.
Proof.
  intros HW Hnd. apply grid_path_in_bounds in HW. destruct HW as (_ & _ & Hall).
  apply in_lists_upto.
  - apply List.Forall_forall. intros c Hc. apply in_cells.
    rewrite List.Forall_forall in Hall. now apply Hall.
  - apply NoDup_incl_length; [exact Hnd|]. intros c Hc. apply in_cells.
    rewrite List.Forall_forall in Hall. now apply Hall.
Qed.

Lemma above_snoc st p v :
  above st (p ++ [v]) = weight_gt (label st v) (Fin (path_cost (p ++ [v]))).
Proof. unfold above. now rewrite rev_unit. Qed.

Lemma inv_any_cell u u' st : inv u [] st -> inv u' [] st.
Proof.
  intros [H1 H2 H3 H4 H5 H6 H7 H8]. constructor; try assumption.
  intros w x v Hw Ho He. destruct (H7 w x v Hw Ho He) as [[_ []]|H]. now right.
Qed.

(** The state before the first iteration. *)
Lemma search_init_inv :
  exists st0, search_init P bm s t = Ok st0 /\ inv s [] st0
              /\ OPEN st0 <> ∅.
Proof.
  unfold search_init.
  rewrite aset_in_bounds by exact s_in. simpl.
  rewrite aget_in_bounds by exact s_in. simpl.
  destruct (decide (s = s)) as [_|Hn]; [|contradiction].
  eexists. split; [reflexivity|]. split.
  - constructor; simpl; unfold label; simpl.
    + reflexivity.
    + reflexivity.
    + destruct (decide (s = s)); [reflexivity|contradiction].
    + intros v x Hv. destruct (decide (v = s)) as [->|Hne]; [|discriminate].
      inversion Hv; subst x. exists [s]. split; [now constructor|].
      split; [repeat constructor; intros []|]. split; [simpl; lra|].
      intros p1 w p2 Heq. destruct p1 as [|y p1].
      * simpl in Heq. injection Heq as <- <-.
        exists 0%Q. split; [|simpl; lra].
        unfold label. simpl.
        destruct (decide (s = s)); [reflexivity|contradiction].
      * inversion Heq. destruct p1; discriminate.
    + intros v x Hv Hne. destruct (decide (v = s)); [contradiction|discriminate].
    + intros v p Hv. apply lookup_singleton_Some in Hv. destruct Hv as [<- <-].
      split; [exact s_in|]. destruct (decide (s = s)); [|contradiction].
      exists 0%Q. split; reflexivity.
    + intros w x v Hw Ho He. destruct (decide (w = s)) as [->|Hne]; [|discriminate].
      rewrite lookup_singleton_eq in Ho. discriminate.
    + intros x Ht. destruct (decide (t = s)) as [E|E]; [|discriminate].
      exfalso. apply s_ne_t. now symmetry.
  - simpl. apply insert_non_empty.
Qed.

(** [a] with the entry at [c] replaced, the result of [a[c] = v]. *)
Definition upd {A} (a : ndarray A) (c : cell) (v : A) : ndarray A :=
  {| shape := shape a;
     data := fun x => if decide (x = c) then v else data a x |}.

Lemma NoDup_snoc {A} (l : list A) x :
  List.NoDup l -> ~ In x l -> List.NoDup (l ++ [x]).
Proof.
  induction l as [|y l IH]; intros Hnd Hx; simpl.
  - constructor; [intros []|constructor].
  - inversion Hnd as [|? ? Hy Hl]; subst. constructor.
    + rewrite in_app_iff. intros [H|[<-|[]]]; [contradiction|].
      apply Hx. now left.
    + apply IH; [assumption|]. intros H. apply Hx. now right.
Qed.

(** A neighbour that is not improved: nothing changes. *)
Lemma relax_keeps u todo st v xu :
  inv u (v :: todo) st -> label st u = Fin xu -> edge shp n u v ->
  weight_gt (label st v) (Fin (xu + norm (minus v u))) = false ->
  inv u todo st.
Proof.
  intros Hinv Hu He Hgt. destruct Hinv as [H1 H2 H3 H4 H5 H6 H7 H8].
  constructor; try assumption.
  intros w x v' Hw Ho He'.
  destruct (H7 w x v' Hw Ho He') as [[-> [<-|Hin]]|H]; auto.
  right. apply weight_gt_fin_iff in Hgt. destruct Hgt as (y & Hy & Hle).
  exists y. split; [exact Hy|]. rewrite Hu in Hw. injection Hw as <-. exact Hle.
Qed.

(** A neighbour that is improved: its label, predecessor and priority are
    replaced, the invariant is kept, and one more path has been used up. *)
Lemma relax_improves u todo st v xu :
  inv u (v :: todo) st -> label st u = Fin xu -> edge shp n u v ->
  weight_gt (label st v) (Fin (xu + norm (minus v u))) = true ->
  let st' := {| g := upd (g st) v (Fin (xu + norm (minus v u)));
                OPEN := <[v := Fin (xu + norm (minus v u)
                                    + _eps P * _heuristic P (minus v t))]>
                          (OPEN st);
                pred := upd (pred st) v u |} in
  inv u todo st' /\ (mu st' < mu st)%nat.
Proof.
  intros Hinv Hu He Hgt st'.
  set (c := norm (minus v u)) in *.
  assert (0 < c)%Q as Hc by exact (edge_cost_pos shp n norm_pos u v He).
  assert (0 <= xu)%Q as Hxu by exact (label_nonneg _ _ _ _ _ Hinv Hu).
  assert (forall w, label st' w
                    = if decide (w = v) then Fin (xu + c) else label st w)
    as Hlab by reflexivity.
  assert (v <> u) as Hvu by apply He.
  assert (v <> s) as Hvs.
  { intros ->. rewrite (inv_start _ _ _ Hinv) in Hgt.
    apply weight_gt_fin_lt in Hgt. lra. }
  assert (forall w y, label st w = Fin y ->
            exists y', label st' w = Fin y' /\ (y' <= y)%Q) as Hdec.
  { intros w y Hw. rewrite Hlab. destruct (decide (w = v)) as [->|Hne].
    - exists (xu + c)%Q. split; [reflexivity|].
      rewrite Hw in Hgt. apply weight_gt_fin_lt in Hgt. lra.
    - exists y. split; [exact Hw|lra]. }
  destruct (inv_witness _ _ _ Hinv u xu Hu) as (Wu & HWu & Hnd & Hcost & Hdom).
  assert (~ In v Wu) as Hnotin.
  { intros Hin. apply in_split in Hin. destruct Hin as (p1 & p2 & Heq).
    destruct (Hdom p1 v p2 Heq) as (y & Hy & Hle).
    destruct (grid_path_split shp n _ _ _ HWu p1 v p2 Heq)
      as (_ & Hrest & Hsum).
    pose proof (path_cost_nonneg shp n norm_pos _ _ _ Hrest) as Hpos.
    rewrite Hy in Hgt. apply weight_gt_fin_lt in Hgt. lra. }
  assert (path_cost (Wu ++ [v]) == xu + c)%Q as Hcost'.
  { rewrite (path_cost_snoc shp n _ _ _ _ HWu). fold c. lra. }
  split.
  - constructor.
    + exact (inv_shape_g _ _ _ Hinv).
    + exact (inv_shape_pred _ _ _ Hinv).
    + rewrite Hlab. destruct (decide (s = v)) as [E|E]; [congruence|].
      exact (inv_start _ _ _ Hinv).
    + intros w x Hw. rewrite Hlab in Hw.
      destruct (decide (w = v)) as [->|Hne].
      * injection Hw as <-. exists (Wu ++ [v]).
        split; [now apply (gp_snoc shp n s u v)|].
        split; [now apply NoDup_snoc|]. split; [exact Hcost'|].
        intros p1 w' p2 Heq.
        destruct (list_last_cases p2) as [->|(p2' & z & ->)].
        -- apply app_inj_tail in Heq. destruct Heq as [<- <-].
           exists (xu + c)%Q. rewrite Hlab.
           destruct (decide (v = v)); [|contradiction]. split; [reflexivity|lra].
        -- change (p1 ++ w' :: p2' ++ [z]) with (p1 ++ (w' :: p2') ++ [z]) in Heq.
           rewrite app_assoc in Heq. apply app_inj_tail in Heq.
           destruct Heq as [Heq _].
           destruct (Hdom p1 w' p2' Heq) as (y & Hy & Hle).
           destruct (Hdec w' y Hy) as (y' & Hy' & Hle').
           exists y'. split; [exact Hy'|lra].
      * destruct (inv_witness _ _ _ Hinv w x Hw) as (W & HW & HndW & HcW & HdomW).
        exists W. split; [exact HW|]. split; [exact HndW|]. split; [exact HcW|].
        intros p1 w' p2 Heq. destruct (HdomW p1 w' p2 Heq) as (y & Hy & Hle).
        destruct (Hdec w' y Hy) as (y' & Hy' & Hle').
        exists y'. split; [exact Hy'|lra].
    + intros w x Hw Hws. rewrite Hlab in Hw. simpl.
      destruct (decide (w = v)) as [->|Hne].
      * injection Hw as <-. exists xu. split; [exact He|].
        split; [|fold c; lra]. rewrite Hlab.
        destruct (decide (u = v)); [congruence|exact Hu].
      * destruct (inv_pred _ _ _ Hinv w x Hw Hws) as (y & Hedge & Hy & Hle).
        destruct (Hdec _ y Hy) as (y' & Hy' & Hle').
        exists y'. split; [exact Hedge|]. split; [exact Hy'|lra].
    + intros w p Hw. simpl in Hw. apply lookup_insert_Some in Hw.
      destruct Hw as [[<- <-]|[Hne Hw]].
      * split; [apply He|]. exists (xu + c)%Q. rewrite Hlab.
        destruct (decide (v = v)); [|contradiction]. split; reflexivity.
      * destruct (inv_open _ _ _ Hinv w p Hw) as (Hin & x & Hx & Hp).
        split; [exact Hin|]. exists x. rewrite Hlab.
        destruct (decide (w = v)); [congruence|]. split; assumption.
    + intros w x v' Hw Ho He'. simpl in Ho. apply lookup_insert_None in Ho.
      destruct Ho as [Ho Hne]. rewrite Hlab in Hw.
      destruct (decide (w = v)); [congruence|].
      destruct (inv_closed _ _ _ Hinv w x v' Hw Ho He') as [[-> [<-|Hin]]|H].
      * right. exists (xu + c)%Q. rewrite Hlab.
        destruct (decide (v = v)); [|contradiction]. split; [reflexivity|].
        rewrite Hu in Hw. injection Hw as <-. fold c. lra.
      * left. split; [reflexivity|exact Hin].
      * right. destruct H as (y & Hy & Hle).
        destruct (Hdec v' y Hy) as (y' & Hy' & Hle').
        exists y'. split; [exact Hy'|lra].
    + intros x Ht. simpl. rewrite Hlab in Ht.
      destruct (decide (t = v)) as [->|Hne].
      * rewrite lookup_insert_eq. discriminate.
      * rewrite lookup_insert_ne by congruence.
        exact (inv_target _ _ _ Hinv x Ht).
  - unfold mu. apply (filter_length_lt _ _ _ (Wu ++ [v])).
    + intros W _. unfold above. destruct (rev W) as [|w rest]; [auto|].
      rewrite Hlab. destruct (decide (w = v)) as [->|Hne]; [|auto].
      intros Hab. apply weight_gt_fin_lt in Hab.
      apply (weight_gt_lower _ (xu + c)); [exact Hgt|lra].
    + apply (simple_path_is_candidate s v).
      * now apply (gp_snoc shp n s u v).
      * now apply NoDup_snoc.
    + rewrite above_snoc. apply (weight_gt_lower _ (xu + c)); [exact Hgt|lra].
    + rewrite above_snoc, Hlab. destruct (decide (v = v)); [|contradiction].
      simpl. apply Qltb_ge. lra.
Qed.

Lemma relax_step u todo st info xu :
  inv u (coord info :: todo) st -> label st u = Fin xu ->
  edge shp n u (coord info) ->
  cost info = Fin (norm (minus (coord info) u)) ->
  exists st', relax P t u st info = Ok st' /\ inv u todo st'
              /\ label st' u = Fin xu
              /\ (potential st' <= potential st)%nat.
Proof.
  intros Hinv Hu He Hcost. destruct info as [v c]. simpl in *. subst c.
  assert (in_bounds (shape (g st)) v) as Hv
    by (rewrite (inv_shape_g _ _ _ Hinv); apply He).
  assert (in_bounds (shape (g st)) u) as Hub
    by (rewrite (inv_shape_g _ _ _ Hinv); apply He).
  assert (in_bounds (shape (pred st)) v) as Hvp
    by (rewrite (inv_shape_pred _ _ _ Hinv); apply He).
  unfold relax. simpl.
  rewrite !aget_in_bounds by assumption. simpl.
  fold (label st v). fold (label st u). rewrite Hu. simpl weight_add.
  destruct (weight_gt (label st v) (Fin (xu + norm (minus v u)))) eqn:Hgt.
  - rewrite aset_in_bounds by assumption. simpl.
    rewrite aset_in_bounds by assumption. simpl.
    rewrite aget_in_bounds by assumption. simpl.
    destruct (decide (v = v)) as [_|Hn]; [|contradiction].
    destruct (relax_improves u todo st v xu Hinv Hu He Hgt) as [Hinv' Hmu].
    eexists. split; [reflexivity|]. split; [exact Hinv'|]. split.
    + unfold label. simpl. destruct (decide (u = v)) as [E|_].
      * exfalso. destruct He as (_ & _ & Hne & _). now apply Hne.
      * exact Hu.
    + unfold potential in *. simpl OPEN.
      pose proof (map_size_insert v
                    (Fin (xu + norm (minus v u)
                          + _eps P * _heuristic P (minus v t))) (OPEN st))
        as Hsize.
      unfold priority. simpl weight_add.
      destruct (OPEN st !! v); simpl in Hsize; rewrite Hsize;
        unfold upd in Hmu; lia.
  - exists st. split; [reflexivity|]. split; [|split; [exact Hu|lia]].
    exact (relax_keeps u todo st v xu Hinv Hu He Hgt).
Qed.

Lemma relax_all_inv u xu infos :
  forall st,
    (forall info, In info infos ->
       edge shp n u (coord info)
       /\ cost info = Fin (norm (minus (coord info) u))) ->
    inv u (map coord infos) st -> label st u = Fin xu ->
    exists st', relax_all P t u infos st = Ok st' /\ inv u [] st'
                /\ (potential st' <= potential st)%nat.
Proof.
  induction infos as [|info rest IH]; intros st Hall Hinv Hu; simpl.
  - exists st. split; [reflexivity|]. split; [exact Hinv|lia].
  - destruct (Hall info (or_introl eq_refl)) as [He Hc].
    destruct (relax_step u (map coord rest) st info xu Hinv Hu He Hc)
      as (st1 & Hr & Hinv1 & Hu1 & Hpot1).
    rewrite Hr. simpl.
    destruct (IH st1) as (st2 & Hr2 & Hinv2 & Hpot2); try assumption.
    { intros i Hi. apply Hall. now right. }
    exists st2. split; [exact Hr2|]. split; [exact Hinv2|lia].
Qed.

(** Along any path from the start, either the last cell already has a
    label no greater than the cost of the path, or the path passes through
    an open cell that has such a label. *)
Lemma frontier u st a q :
  inv u [] st -> grid_path shp n s a q ->
  (exists y, label st a = Fin y /\ (y <= path_cost q)%Q)
  \/ (exists p1 w p2 y pw,
        q = p1 ++ w :: p2 /\ OPEN st !! w = Some pw
        /\ label st w = Fin y /\ (y <= path_cost (p1 ++ [w]))%Q).
Proof.
  intros Hinv Hq. induction Hq as [Ha|b v p Hp IH He].
  - left. exists 0%Q. split; [exact (inv_start _ _ _ Hinv)|simpl; lra].
  - destruct IH as [(y & Hy & Hle)|(p1 & w & p2 & y & pw & Heq & Ho & Hy & Hle)].
    + destruct (OPEN st !! b) as [pw|] eqn:Ho.
      * right. destruct (grid_path_ends shp n _ _ _ Hp) as (p' & ->).
        exists p', b, [v], y, pw. rewrite <- app_assoc. auto.
      * left. destruct (inv_closed _ _ _ Hinv b y v Hy Ho He) as [[_ []]|H].
        destruct H as (y' & Hy' & Hle'). exists y'. split; [exact Hy'|].
        rewrite (path_cost_snoc shp n _ _ _ _ Hp). lra.
    + right. exists p1, w, (p2 ++ [v]), y, pw. subst p.
      rewrite <- app_assoc. auto.
Qed.

(** What the state holds once the target has been popped. *)
Record final (st : search) : Prop := {
  final_shape_pred : shape (pred st) = shp;
  final_start : label st s = Fin 0;
  final_pred : forall v x, label st v = Fin x -> v <> s ->
    exists y, edge shp n (data (pred st) v) v
              /\ label st (data (pred st) v) = Fin y
              /\ (y + norm (minus v (data (pred st) v)) <= x)%Q;
  final_label : exists x, label st t = Fin x
    /\ forall q, grid_path shp n s t q -> (x <= path_cost q)%Q
}.

Lemma pop_target st p :
  inv s [] st -> OPEN st !! t = Some p ->
  (forall k' p', OPEN st !! k' = Some p' -> weight_gt p p' = false) ->
  final {| g := g st; OPEN := delete t (OPEN st); pred := pred st |}.
Proof.
  intros Hinv Ho Hmin.
  destruct (inv_open _ _ _ Hinv t p Ho) as (_ & x & Hx & Hp).
  constructor.
  - exact (inv_shape_pred _ _ _ Hinv).
  - exact (inv_start _ _ _ Hinv).
  - exact (inv_pred _ _ _ Hinv).
  - exists x. split; [exact Hx|]. intros q Hq.
    destruct (frontier s st t q Hinv Hq)
      as [(y & Hy & Hle)|(p1 & w & p2 & y & pw & Heq & How & Hy & Hle)].
    + unfold label in *. simpl in *. rewrite Hx in Hy. injection Hy as <-.
      exact Hle.
    + destruct (inv_open _ _ _ Hinv w pw How) as (_ & y' & Hy' & Hpw).
      rewrite Hy in Hy'. injection Hy' as <-.
      specialize (Hmin w pw How). subst p pw.
      apply weight_gt_fin_iff in Hmin. destruct Hmin as (k & Hk & Hle').
      injection Hk as <-.
      destruct (grid_path_split shp n _ _ _ Hq p1 w p2 Heq) as (_ & Hrest & Hsum).
      destruct heur as [Hadm Hzero].
      pose proof (Hadm w _ Hrest) as Hh.
      assert (_eps P * _heuristic P (minus t t) == _heuristic P (minus t t))%Q
        as E1 by (rewrite eps_one; ring).
      assert (_eps P * _heuristic P (minus w t) == _heuristic P (minus w t))%Q
        as E2 by (rewrite eps_one; ring).
      lra.
Qed.

Lemma pop_other st u p :
  inv s [] st -> OPEN st !! u = Some p -> u <> t ->
  inv u (map coord (neighbors bm n u))
    {| g := g st; OPEN := delete u (OPEN st); pred := pred st |}.
Proof.
  intros Hinv Ho Hne.
  destruct (inv_open _ _ _ Hinv u p Ho) as (Hub & _).
  constructor; simpl.
  - exact (inv_shape_g _ _ _ Hinv).
  - exact (inv_shape_pred _ _ _ Hinv).
  - exact (inv_start _ _ _ Hinv).
  - intros v x Hv. destruct (inv_witness _ _ _ Hinv v x Hv) as (W & HW).
    exists W. exact HW.
  - exact (inv_pred _ _ _ Hinv).
  - intros v q Hv. apply lookup_delete_Some in Hv. destruct Hv as [_ Hv].
    exact (inv_open _ _ _ Hinv v q Hv).
  - intros w x v Hw Hc He. apply lookup_delete_None in Hc.
    destruct Hc as [<-|Hc].
    + left. split; [reflexivity|]. apply in_map_iff.
      exists {| coord := v; cost := Fin (norm (minus v u)) |}.
      split; [reflexivity|]. apply in_neighbors; [exact Hub|].
      split; [exact He|reflexivity].
    + destruct (inv_closed _ _ _ Hinv w x v Hw Hc He) as [[_ []]|H].
      now right.
  - intros x Ht. rewrite lookup_delete_ne by exact Hne.
    exact (inv_target _ _ _ Hinv x Ht).
Qed.

(** With enough fuel the loop ends by popping the target. *)
Lemma search_loop_finds fuel :
  forall st, inv s [] st -> (potential st < fuel)%nat ->
    exists st', search_loop fuel P bm t st = Some (Ok (true, st'))
                /\ final st'.
Proof.
  induction fuel as [|fuel IH]; intros st Hinv Hpot; [lia|].
  simpl.
  destruct (Nat.eqb_spec (size (OPEN st)) 0) as [Hz|Hnz].
  - exfalso. apply map_size_empty_iff in Hz.
    destruct (grid_path_exists shp n s t s_in t_in) as (q & Hq).
    destruct (frontier s st t q Hinv Hq)
      as [(y & Hy & _)|(p1 & w & p2 & y & pw & _ & How & _)].
    + apply (inv_target _ _ _ Hinv y Hy). rewrite Hz. apply lookup_empty.
    + rewrite Hz, lookup_empty in How. discriminate.
  - assert (OPEN st <> ∅) as Hne by (now apply map_size_non_empty_iff).
    destruct (queue (OPEN st) Hne) as (u & p & Hpop & Ho & Hmin).
    rewrite Hpop.
    destruct (same_cell u t) eqn:Hsame.
    + apply same_cell_eq in Hsame. subst u.
      eexists. split; [reflexivity|]. now apply (pop_target st p).
    + apply same_cell_neq in Hsame.
      destruct (inv_open _ _ _ Hinv u p Ho) as (Hub & xu & Hxu & _).
      rewrite strategy.
      rewrite (get_n_grid_neighbors_free bm n u free rays Hub). simpl.
      destruct (relax_all_inv u xu (neighbors bm n u)
                  {| g := g st; OPEN := delete u (OPEN st); pred := pred st |})
        as (st2 & Hr & Hinv2 & Hpot2).
      * intros info Hin. now apply in_neighbors in Hin.
      * now apply (pop_other st u p).
      * exact Hxu.
      * rewrite Hr. apply IH.
        -- exact (inv_any_cell u s st2 Hinv2).
        -- unfold potential in *. simpl in Hpot2.
           rewrite map_size_delete, Ho in Hpot2. simpl in Hpot2.
           assert (mu {| g := g st; OPEN := delete u (OPEN st);
                         pred := pred st |} = mu st) as Hmu by reflexivity.
           rewrite Hmu in Hpot2. lia.
Qed.

(** The number of cells with a smaller label: it drops along the
    predecessors. *)
Definition rank (st : search) (v : cell) : nat :=
  length (List.filter (fun w => weight_gt (label st v) (label st w)) (cells shp)).

Lemma backtrack_reaches st fuel :
  final st ->
  forall v x acc,
    label st v = Fin x -> in_bounds shp v -> (rank st v < fuel)%nat ->
    exists l, backtrack fuel (pred st) s v acc = Some (Ok (acc ++ l))
              /\ grid_path shp n s v (rev l)
              /\ (path_cost (rev l) <= x)%Q.
Proof.
  intros Hfin. induction fuel as [|fuel IH]; intros v x acc Hv Hvb Hrank; [lia|].
  simpl. destruct (same_cell v s) eqn:Hsame.
  - apply same_cell_eq in Hsame. subst v. exists [s].
    split; [reflexivity|]. split; [now constructor|].
    rewrite (final_start _ Hfin) in Hv. injection Hv as <-. simpl. lra.
  - apply same_cell_neq in Hsame.
    destruct (final_pred _ Hfin v x Hv Hsame) as (y & He & Hy & Hle).
    rewrite aget_in_bounds
      by (rewrite (final_shape_pred _ Hfin); exact Hvb).
    set (u := data (pred st) v) in *.
    pose proof (edge_cost_pos shp n norm_pos u v He) as Hc.
    assert (in_bounds shp u) as Hub by apply He.
    assert (rank st u < rank st v)%nat as Hlt.
    { unfold rank. rewrite Hy, Hv. apply (filter_length_lt _ _ _ u).
      - intros w _ Hw. destruct (label st w) as [k|]; [|discriminate].
        apply weight_gt_fin_lt in Hw. apply weight_gt_fin_lt. lra.
      - now apply in_cells.
      - rewrite Hy. apply weight_gt_fin_lt. lra.
      - rewrite Hy. simpl. apply Qltb_ge. lra. }
    destruct (IH u y (acc ++ [v]) Hy Hub) as (l & Hb & Hp & Hcost); [lia|].
    exists (v :: l). split; [|split].
    + rewrite Hb. now rewrite <- app_assoc.
    + simpl. now apply (gp_snoc shp n s u v).
    + simpl. rewrite (path_cost_snoc shp n _ _ _ _ Hp). lra.
Qed.

Lemma rank_bound st v : (rank st v <= length (cells shp))%nat.
Proof.
  unfold rank. induction (cells shp) as [|c l IH]; simpl; [lia|].
  destruct (weight_gt (label st v) (label st c)); simpl; lia.
Qed.

(** For distinct start and target cells and enough fuel, [_plan_algo]
    returns [True] and stores a cheapest path. *)
Lemma plan_algo_finds_shortest :
  exists fuel0, forall fuel, (fuel0 <= fuel)%nat ->
    exists p,
      _plan_algo fuel P s t = Some (Ok (true, set_path P (Some p)))
      /\ grid_path shp n s t p
      /\ forall q, grid_path shp n s t q -> (path_cost p <= path_cost q)%Q.
Proof.
  destruct search_init_inv as (st0 & Hinit & Hinv0 & _).
  exists (S (Nat.max (potential st0) (length (cells shp)))).
  intros fuel Hfuel. unfold _plan_algo.
  assert (same_cell s t = false) as -> by (now apply same_cell_neq).
  rewrite Hinit.
  destruct (search_loop_finds fuel st0 Hinv0) as (st & Hloop & Hfin); [lia|].
  rewrite Hloop.
  destruct (final_label _ Hfin) as (x & Hx & Hopt).
  destruct (backtrack_reaches st fuel Hfin t x [] Hx t_in) as (l & Hb & Hp & Hc).
  { pose proof (rank_bound st t). lia. }
  rewrite Hb. simpl. exists (rev l). split; [reflexivity|].
  split; [exact Hp|]. intros q Hq. specialize (Hopt q Hq). lra.
Qed.

End Optimality.

(** C6: on an obstacle-free grid, with inflation 1 and an admissible
    heuristic, [plan] between two cells of the grid succeeds whenever it is
    given enough fuel, and the path it stores is a path of the grid graph
    of the window strategy from the start cell to the target cell whose
    cost is least among all such paths. *)
Theorem plan_returns_a_shortest_path
  (P : A_Star_Planner) (n : Z) (start target : point) :
  let s := convert_to_grid_coord (_map P) start in
  let t := convert_to_grid_coord (_map P) target in
  let shp := shape (get_binary_map (_map P)) in
  (forall ij : cell, ij <> (0, 0) -> (0 < norm ij)%Q) ->
  _neighbor_func P = get_n_grid_neighbors n ->
  (_eps P == 1)%Q ->
  obstacle_free (get_binary_map (_map P)) ->
  raytrace_within shp ->
  pops_least ->
  admissible shp n (_heuristic P) t ->
  in_bounds shp s -> in_bounds shp t ->
  exists fuel0, forall fuel, (fuel0 <= fuel)%nat ->
    exists P' p,
      plan fuel P start target = Some (Ok (true, P'))
      /\ _path P' = Some p
      /\ grid_path shp n s t p
      /\ forall q, grid_path shp n s t q -> (path_cost p <= path_cost q)%Q.
Proof.
  intros s t shp Hnorm Hstrat Heps Hfree Hrays Hqueue Hadm Hs Ht.
  destruct (decide (s = t)) as [Heq|Hne].
  - exists 0%nat. intros fuel _.
    exists (set_path_idx (set_path P (Some [s])) (Some 0)), [s].
    unfold plan, _plan_algo. fold s t. rewrite <- Heq.
    assert (same_cell s s = true) as -> by (now apply same_cell_eq).
    split; [reflexivity|]. split; [reflexivity|].
    split; [now constructor|]. intros q Hq. simpl.
    exact (path_cost_nonneg shp n Hnorm _ _ _ Hq).
  - destruct (plan_algo_finds_shortest P n s t Hnorm Hstrat Heps Hfree Hrays
                Hqueue Hadm Hs Ht Hne) as (fuel0 & Hfuel).
    exists fuel0. intros fuel Hle.
    destruct (Hfuel fuel Hle) as (p & Hplan & Hp & Hopt).
    exists (set_path_idx (set_path P (Some p)) (Some 0)), p.
    unfold plan. fold s t. rewrite Hplan.
    split; [reflexivity|]. split; [reflexivity|]. split; assumption.
Qed.


(** *** The two neighbour strategies on an arbitrary map *)

(** The entry of [get_8_neighbors] for the offset [ij]. *)
Definition info_8 (m : ndarray Z) (u ij : cell) : VertexInfo :=
  let pos := (fst u + fst ij, snd u + snd ij) in
  {| coord := pos;
     cost := if negb (data m u =? OBSTACLE) && negb (data m pos =? OBSTACLE)
             then Fin (norm ij) else Inf |}.

Lemma get_8_neighbors_loop_in_bounds (m : ndarray Z) u ijs acc :
  in_bounds (shape m) u ->
  get_8_neighbors_loop m u ijs acc
  = Ok (acc ++ map (info_8 m u) (List.filter (candidate m u) ijs)).
Proof.
  intros Hu. revert acc. induction ijs as [|ij rest IH]; intros acc; simpl.
  - now rewrite app_nil_r.
  - destruct (candidate m u ij) eqn:Hc.
    + apply candidate_iff in Hc. destruct Hc as (_ & H1 & H2).
      rewrite aget_in_bounds by exact Hu. simpl.
      destruct (data m u =? OBSTACLE) eqn:Eu; simpl.
      * rewrite IH, <- app_assoc. simpl. unfold info_8. rewrite Eu.
        reflexivity.
      * rewrite aget_in_bounds by (split; assumption). simpl.
        rewrite IH, <- app_assoc. simpl. unfold info_8. rewrite Eu.
        reflexivity.
    + apply IH.
Qed.

Lemma offsets_3_length : length (offsets (-1) 2) = 9%nat.
Proof. reflexivity. Qed.

Lemma filter_length_bound {A} (f : A -> bool) l :
  (length (List.filter f l) <= length l)%nat.
Proof.
  induction l as [|x l IH]; simpl; [lia|]. destruct (f x); simpl; lia.
Qed.

Lemma candidate_excludes_origin (m : ndarray Z) u :
  (length (List.filter (candidate m u) (offsets (-1) 2)) <= 8)%nat.
Proof.
  change (offsets (-1) 2)
    with ([(-1, -1); (-1, 0); (-1, 1); (0, -1)] ++ (0, 0)
          :: [(0, 1); (1, -1); (1, 0); (1, 1)]).
  rewrite List.filter_app, length_app.
  change (List.filter (candidate m u) ((0, 0) :: [(0, 1); (1, -1); (1, 0); (1, 1)]))
    with (List.filter (candidate m u) [(0, 1); (1, -1); (1, 0); (1, 1)]).
  assert (Nat.le (length (List.filter (candidate m u)
                            [(-1, -1); (-1, 0); (-1, 1); (0, -1)])) 4) as H1
    by exact (filter_length_bound _ _).
  assert (Nat.le (length (List.filter (candidate m u)
                            [(0, 1); (1, -1); (1, 0); (1, 1)])) 4) as H2
    by exact (filter_length_bound _ _).
  exact (Nat.add_le_mono _ _ _ _ H1 H2).
Qed.

(** X7.  On any map and at any cell of it, [get_8_neighbors] returns
    without raising; its entries are exactly the cells of the grid next to
    the given cell, at most eight; the cost of an entry is the norm of the
    offset when neither the cell nor the neighbour is an obstacle, and
    infinite otherwise. *)
Theorem get_8_neighbors_adjacent_cells (m : ndarray Z) (u : cell) :
  in_bounds (shape m) u ->
  exists infos,
    get_8_neighbors m u = Ok infos
    /\ (length infos <= 8)%nat
    /\ forall v c,
         In {| coord := v; cost := c |} infos
         <-> (in_bounds (shape m) v /\ v <> u
              /\ -1 <= fst v - fst u <= 1 /\ -1 <= snd v - snd u <= 1
              /\ c = if (data m u =? OBSTACLE) || (data m v =? OBSTACLE)
                     then Inf else Fin (norm (minus v u))).
Proof.
  intros Hu. unfold get_8_neighbors.
  rewrite get_8_neighbors_loop_in_bounds by exact Hu. rewrite app_nil_l.
  eexists. split; [reflexivity|]. split.
  { rewrite length_map. apply candidate_excludes_origin. }
  intros v c. rewrite in_map_iff. split.
  - intros (ij & Heq & Hin). apply filter_In in Hin. destruct Hin as [Hoff Hc].
    apply in_offsets in Hoff. apply candidate_iff in Hc.
    destruct Hc as (Hne & H1 & H2). unfold info_8 in Heq.
    injection Heq as <- <-. destruct ij as [i j], u as [x y]. simpl in *.
    split; [split; assumption|]. split.
    { intros E. apply Hne. inversion E. f_equal; lia. }
    split; [lia|]. split; [lia|].
    unfold minus. simpl. replace (x + i - x) with i by lia.
    replace (y + j - y) with j by lia.
    destruct (data m (x, y) =? OBSTACLE); simpl; [reflexivity|].
    destruct (data m (x + i, y + j) =? OBSTACLE); reflexivity.
  - intros (Hv & Hne & H1 & H2 & Hc). exists (minus v u).
    destruct v as [vx vy], u as [x y]. split.
    + unfold minus, info_8. cbn [fst snd] in *.
      replace (x + (vx - x)) with vx by lia.
      replace (y + (vy - y)) with vy by lia.
      subst c. f_equal.
      destruct (data m (x, y) =? OBSTACLE); simpl; [reflexivity|].
      destruct (data m (vx, vy) =? OBSTACLE); reflexivity.
    + apply (proj2 (List.filter_In _ _ _)). split.
      * apply in_offsets. unfold minus. cbn [fst snd] in *. lia.
      * apply candidate_iff. unfold minus. destruct Hv as [Hv1 Hv2].
        cbn [fst snd] in *.
        split; [|split; lia]. intros E. apply Hne. inversion E. f_equal; lia.
Qed.

(** The entry of [get_n_grid_neighbors] for the offset [ij]. *)
Definition info_n (m : ndarray Z) (u ij : cell) : VertexInfo :=
  let pos := (fst u + fst ij, snd u + snd ij) in
  {| coord := pos;
     cost := if existsb (fun k => data m k =? OBSTACLE)
                  (raytrace (fst u) (snd u) (fst pos) (snd pos))
             then Inf else Fin (norm ij) |}.

Lemma take_cells_within {A} (m : ndarray A) cs :
  Forall (in_bounds (shape m)) cs -> take_cells m cs = Ok (map (data m) cs).
Proof.
  induction cs as [|c rest IH]; intros Hin; simpl; [reflexivity|].
  inversion Hin as [|? ? Hc Hrest]; subst.
  rewrite aget_in_bounds by exact Hc. simpl. rewrite IH by exact Hrest.
  reflexivity.
Qed.

Lemma count_obstacles_none (m : ndarray Z) cs :
  (count_obstacles (map (data m) cs) =? 0)
  = negb (existsb (fun k => data m k =? OBSTACLE) cs).
Proof.
  unfold count_obstacles. induction cs as [|c rest IH]; simpl; [reflexivity|].
  destruct (data m c =? OBSTACLE); simpl; [reflexivity|exact IH].
Qed.

Lemma get_n_grid_neighbors_loop_within (m : ndarray Z) u ijs acc :
  raytrace_within (shape m) -> in_bounds (shape m) u ->
  get_n_grid_neighbors_loop m u ijs acc
  = Ok (acc ++ map (info_n m u) (List.filter (candidate m u) ijs)).
Proof.
  intros Hray Hu. revert acc.
  induction ijs as [|ij rest IH]; intros acc; simpl.
  - now rewrite app_nil_r.
  - destruct (candidate m u ij) eqn:Hc.
    + apply candidate_iff in Hc. destruct Hc as (_ & H1 & H2).
      rewrite take_cells_within
        by (apply (Hray u (fst u + fst ij, snd u + snd ij) Hu);
            split; assumption).
      simpl. rewrite count_obstacles_none, IH, <- app_assoc. simpl.
      unfold info_n. cbn [fst snd].
      destruct (existsb _ _); reflexivity.
    + apply IH.
Qed.

Lemma reach_closed_form n : reach n = Z.max 1 (n / 2).
Proof.
  unfold reach, window.
  pose proof (Z.div_mod n 2 ltac:(lia)) as Hn.
  pose proof (Z.mod_pos_bound n 2 ltac:(lia)) as Hm.
  destruct (Z.ltb_spec n 3) as [Hlt|Hge].
  - change (3 mod 2 =? 0) with false. cbn iota.
    change ((3 - 1) / 2) with 1. lia.
  - destruct (Z.eqb_spec (n mod 2) 0) as [He|He].
    + replace (n + 1 - 1) with n by lia. lia.
    + assert (n mod 2 = 1) as H1 by lia.
      replace (n - 1) with (n / 2 * 2) by lia.
      rewrite Z.div_mul by lia. lia.
Qed.

(** The cells [get_n_grid_neighbors] looks at from [u], and the cost it
    gives to [v]. *)
Definition in_window (m : ndarray Z) (n : Z) (u v : cell) : Prop :=
  in_bounds (shape m) v /\ v <> u
  /\ - Z.max 1 (n / 2) <= fst v - fst u <= Z.max 1 (n / 2)
  /\ - Z.max 1 (n / 2) <= snd v - snd u <= Z.max 1 (n / 2).

Definition ray_cost (m : ndarray Z) (u v : cell) : weight :=
  if existsb (fun k => data m k =? OBSTACLE)
       (raytrace (fst u) (snd u) (fst v) (snd v))
  then Inf else Fin (norm (minus v u)).

Lemma get_n_grid_neighbors_entries (n : Z) (m : ndarray Z) (u : cell) :
  raytrace_within (shape m) ->
  in_bounds (shape m) u ->
  exists infos,
    get_n_grid_neighbors n m u = Ok infos
    /\ forall v c,
         In {| coord := v; cost := c |} infos
         <-> (in_window m n u v /\ c = ray_cost m u v).
Proof.
  intros Hray Hu. unfold in_window, ray_cost.
  assert (forall A B C D E : Prop,
            A /\ B /\ C /\ D /\ E <-> (A /\ B /\ C /\ D) /\ E) as Hassoc.
  { intros A B C D E. split.
    - intros (a & b & c & d & e). auto.
    - intros ((a & b & c & d) & e). auto. }
  setoid_rewrite <- Hassoc. clear Hassoc.
  unfold get_n_grid_neighbors.
  rewrite window_low, window_high, <- reach_closed_form.
  rewrite get_n_grid_neighbors_loop_within by assumption.
  rewrite app_nil_l. eexists. split; [reflexivity|].
  intros v c. rewrite in_map_iff. split.
  - intros (ij & Heq & Hin). apply List.filter_In in Hin.
    destruct Hin as [Hoff Hc]. apply in_offsets in Hoff.
    apply candidate_iff in Hc. destruct Hc as (Hne & H1 & H2).
    unfold info_n in Heq. injection Heq as <- <-.
    destruct ij as [i j], u as [x y]. cbn [fst snd] in *.
    split; [split; assumption|]. split.
    { intros E. apply Hne. inversion E. f_equal; lia. }
    split; [lia|]. split; [lia|].
    unfold minus. cbn [fst snd]. replace (x + i - x) with i by lia.
    replace (y + j - y) with j by lia. reflexivity.
  - intros (Hv & Hne & H1 & H2 & Hc). exists (minus v u).
    destruct v as [vx vy], u as [x y]. split.
    + unfold minus, info_n. cbn [fst snd] in *.
      replace (x + (vx - x)) with vx by lia.
      replace (y + (vy - y)) with vy by lia.
      subst c. reflexivity.
    + apply (proj2 (List.filter_In _ _ _)). split.
      * apply in_offsets. unfold minus. cbn [fst snd] in *. lia.
      * apply candidate_iff. unfold minus. destruct Hv as [Hv1 Hv2].
        cbn [fst snd] in *.
        split; [|split; lia]. intros E. apply Hne. inversion E. f_equal; lia.
Qed.

(** X8.  On a map whose rays stay on the grid and at any cell of it,
    [get_n_grid_neighbors] returns without raising; whatever [n] is, it
    lists exactly the other cells of the grid at most [max(1, n // 2)]
    rows and columns away, so any [n] below 3 acts as 3 and an even [n] as
    [n + 1]; the cost of an entry is the norm of the offset when no cell on
    the ray to it is an obstacle, and infinite otherwise. *)
Theorem get_n_grid_neighbors_window_cells (n : Z) (m : ndarray Z) (u : cell) :
  raytrace_within (shape m) ->
  in_bounds (shape m) u ->
  exists infos,
    get_n_grid_neighbors n m u = Ok infos
    /\ forall v c,
         In {| coord := v; cost := c |} infos
         <-> (in_bounds (shape m) v /\ v <> u
              /\ - Z.max 1 (n / 2) <= fst v - fst u <= Z.max 1 (n / 2)
              /\ - Z.max 1 (n / 2) <= snd v - snd u <= Z.max 1 (n / 2)
              /\ c = if existsb (fun k => data m k =? OBSTACLE)
                          (raytrace (fst u) (snd u) (fst v) (snd v))
                     then Inf else Fin (norm (minus v u))).
Proof.
  intros Hray Hu.
  destruct (get_n_grid_neighbors_entries n m u Hray Hu) as (infos & Hn & Hin).
  exists infos. split; [exact Hn|]. intros v c. rewrite Hin.
  unfold in_window, ray_cost. split.
  - intros ((a & b & c' & d) & e). auto.
  - intros (a & b & c' & d & e). auto.
Qed.

(** [raytrace] between two adjacent cells is those two cells. *)
Definition adjacent_rays : Prop :=
  forall a b : cell,
    a <> b -> -1 <= fst b - fst a <= 1 -> -1 <= snd b - snd a <= 1 ->
    raytrace (fst a) (snd a) (fst b) (snd b) = [a; b].

Lemma neighbors_loops_agree (m : ndarray Z) u ijs acc :
  adjacent_rays -> in_bounds (shape m) u ->
  (forall ij, In ij ijs -> -1 <= fst ij <= 1 /\ -1 <= snd ij <= 1) ->
  get_n_grid_neighbors_loop m u ijs acc = get_8_neighbors_loop m u ijs acc.
Proof.
  intros Hadj Hu. revert acc.
  induction ijs as [|ij rest IH]; intros acc Hijs; simpl; [reflexivity|].
  assert (forall ij', In ij' rest -> -1 <= fst ij' <= 1 /\ -1 <= snd ij' <= 1)
    as Hrest by (intros ij' H; apply Hijs; now right).
  destruct (candidate m u ij) eqn:Hc; [|now apply IH].
  apply candidate_iff in Hc. destruct Hc as (Hne & H1 & H2).
  destruct (Hijs ij (or_introl eq_refl)) as [Hi Hj].
  assert (raytrace (fst u) (snd u) (fst u + fst ij) (snd u + snd ij)
          = [u; (fst u + fst ij, snd u + snd ij)]) as Hr.
  { apply (Hadj u (fst u + fst ij, snd u + snd ij)); cbn [fst snd]; try lia.
    intros E. apply Hne. destruct u as [x y], ij as [i j]. cbn [fst snd] in *.
    inversion E. f_equal; lia. }
  rewrite Hr. simpl.
  rewrite !aget_in_bounds by (try exact Hu; split; assumption).
  simpl. unfold count_obstacles. simpl.
  destruct (data m u =? OBSTACLE); simpl.
  - destruct (data m (fst u + fst ij, snd u + snd ij) =? OBSTACLE); simpl;
      now apply IH.
  - destruct (data m (fst u + fst ij, snd u + snd ij) =? OBSTACLE); simpl;
      now apply IH.
Qed.

(** X9.  When the ray between two adjacent cells consists of those two
    cells, [get_n_grid_neighbors] with any [n] up to 3 returns at every
    cell of the map exactly what [get_8_neighbors] returns, in the same
    order and with the same costs. *)
Theorem get_n_grid_neighbors_3_is_get_8_neighbors
  (n : Z) (m : ndarray Z) (u : cell) :
  adjacent_rays -> n <= 3 -> in_bounds (shape m) u ->
  get_n_grid_neighbors n m u = get_8_neighbors m u.
Proof.
  intros Hadj Hn Hu. unfold get_n_grid_neighbors, get_8_neighbors.
  rewrite window_low, window_high, reach_closed_form.
  assert (n / 2 < 2) as Hle.
  { apply Z.div_lt_upper_bound; lia. }
  replace (Z.max 1 (n / 2)) with 1 by lia.
  apply neighbors_loops_agree; try assumption.
  intros ij Hin. apply in_offsets in Hin. lia.
Qed.

(** *** What a stored path is made of *)

(** Lists that walk a relation from [a], grown at the far end. *)
Inductive chain (R : cell -> cell -> Prop) (a : cell)
  : cell -> list cell -> Prop :=
| chain_start : chain R a a [a]
| chain_snoc u v p : chain R a u p -> R u v -> chain R a v (p ++ [v]).

Lemma chain_mono (R R' : cell -> cell -> Prop) a b p :
  (forall u v, R u v -> R' u v) -> chain R a b p -> chain R' a b p.
Proof.
  intros HR H. induction H as [|u v p Hp IH Huv]; [constructor|].
  apply chain_snoc with u; auto.
Qed.

Lemma chain_ends R a b p :
  chain R a b p -> hd_error p = Some a /\ hd_error (rev p) = Some b.
Proof.
  intros H. induction H as [|u v p Hp [IH1 IH2] Huv]; [split; reflexivity|].
  split.
  - destruct p as [|x p]; [discriminate|]. exact IH1.
  - rewrite rev_app_distr. reflexivity.
Qed.

(** [v] is listed with a finite cost among the neighbours of the cell [u]
    of the binary map. *)
Definition hop (P : A_Star_Planner) (u v : cell) : Prop :=
  in_bounds (shape (get_binary_map (_map P))) u
  /\ exists infos c,
       _neighbor_func P (get_binary_map (_map P)) u = Ok infos
       /\ In {| coord := v; cost := Fin c |} infos.

(** [pqdict.popitem] removes one of the keys of the queue. *)
Definition pops_a_key : Prop :=
  forall (O : gmap cell weight) k, popitem O = Some k -> is_Some (O !! k).

(** At a cell of the map, the neighbour function lists cells of the map
    only. *)
Definition neighbors_within (P : A_Star_Planner) : Prop :=
  forall u infos,
    in_bounds (shape (get_binary_map (_map P))) u ->
    _neighbor_func P (get_binary_map (_map P)) u = Ok infos ->
    forall info, In info infos ->
      in_bounds (shape (get_binary_map (_map P))) (coord info).

Section Safety.

Variable P : A_Star_Planner.
Variables s t : cell.

Local Abbreviation bm := (get_binary_map (_map P)).
Local Abbreviation shp := (shape (get_binary_map (_map P))).

Hypothesis queue : pops_a_key.
Hypothesis within : neighbors_within P.
Hypothesis s_in : in_bounds shp s.

(** The loop invariant: open cells are labelled cells of the map, and
    every labelled cell but the start has a labelled predecessor that
    lists it with a finite cost. *)
Record linked (st : search) : Prop := {
  linked_shape_g : shape (g st) = shp;
  linked_shape_pred : shape (pred st) = shp;
  linked_open : forall v, is_Some (OPEN st !! v) ->
    in_bounds shp v /\ exists x, data (g st) v = Fin x;
  linked_pred : forall v x,
    in_bounds shp v -> data (g st) v = Fin x -> v <> s ->
    (exists y, data (g st) (data (pred st) v) = Fin y)
    /\ hop P (data (pred st) v) v
}.

Lemma search_init_linked st0 :
  search_init P bm s t = Ok st0 -> linked st0.
Proof.
  unfold search_init.
  rewrite aset_in_bounds by exact s_in. simpl.
  rewrite aget_in_bounds by exact s_in. simpl.
  intros Heq. injection Heq as <-. constructor; simpl; try reflexivity.
  - intros v Hv. destruct (decide (v = s)) as [->|Hne].
    + split; [exact s_in|]. destruct (decide (s = s)); [eauto|congruence].
    + rewrite lookup_singleton_ne in Hv by congruence.
      destruct Hv as [? Hv]. discriminate Hv.
  - intros v x _ Hv Hne. destruct (decide (v = s)); [congruence|].
    discriminate Hv.
Qed.

Lemma weight_gt_finite a b :
  weight_gt a b = true -> exists y, b = Fin y.
Proof.
  destruct a, b; simpl; intros H; try discriminate; eauto.
Qed.

Lemma relax_linked u st child st' :
  linked st -> in_bounds shp u -> in_bounds shp (coord child) ->
  (forall c, cost child = Fin c -> hop P u (coord child)) ->
  relax P t u st child = Ok st' -> linked st'.
Proof.
  intros [H1 H2 H3 H4] Hu Hc Hhop. unfold relax.
  rewrite !aget_in_bounds by (rewrite H1; assumption). simpl.
  destruct (weight_gt (data (g st) (coord child))
              (weight_add (data (g st) u) (cost child))) eqn:Hgt.
  - apply weight_gt_finite in Hgt. destruct Hgt as (y & Hy).
    destruct (data (g st) u) as [xu|] eqn:Hgu; [|discriminate].
    destruct (cost child) as [c|] eqn:Hcc; [|discriminate].
    specialize (Hhop c eq_refl).
    rewrite aset_in_bounds by (rewrite H1; assumption). simpl.
    rewrite aset_in_bounds by (rewrite H2; assumption). simpl.
    rewrite aget_in_bounds by (simpl; rewrite H1; assumption). simpl.
    intros Heq. injection Heq as <-. constructor; simpl; try assumption.
    + intros v Hv. destruct (decide (v = coord child)) as [->|Hne].
      * split; [exact Hc|]. eauto.
      * rewrite lookup_insert_ne in Hv by congruence. now apply H3.
    + intros v x Hv Hx Hvs.
      destruct (decide (v = coord child)) as [->|Hne].
      * split; [|exact Hhop].
        destruct (decide (u = coord child)); eauto.
      * destruct (H4 v x Hv Hx Hvs) as [(y' & Hy') Hh]. split; [|exact Hh].
        destruct (decide (data (pred st) v = coord child)); eauto.
  - intros Heq. injection Heq as <-. constructor; assumption.
Qed.

Lemma relax_all_linked u infos st st' :
  linked st -> in_bounds shp u ->
  (forall info, In info infos ->
     in_bounds shp (coord info)
     /\ forall c, cost info = Fin c -> hop P u (coord info)) ->
  relax_all P t u infos st = Ok st' -> linked st'.
Proof.
  intros Hl Hu. revert st Hl.
  induction infos as [|info rest IH]; intros st Hl Hall; simpl.
  - intros Heq. now injection Heq as <-.
  - destruct (relax P t u st info) as [st1|e] eqn:Hr; [|discriminate].
    simpl. destruct (Hall info (or_introl eq_refl)) as [Hc Hh].
    apply IH.
    + exact (relax_linked u st info st1 Hl Hu Hc Hh Hr).
    + intros i Hi. apply Hall. now right.
Qed.

Lemma search_loop_linked fuel st st' :
  linked st ->
  search_loop fuel P bm t st = Some (Ok (true, st')) ->
  linked st' /\ in_bounds shp t /\ exists x, data (g st') t = Fin x.
Proof.
  revert st. induction fuel as [|fuel IH]; intros st Hl; simpl;
    [discriminate|].
  destruct (size (OPEN st) =? 0)%nat; [discriminate|].
  destruct (popitem (OPEN st)) as [k|] eqn:Hpop; [|discriminate].
  apply queue in Hpop.
  destruct (linked_open _ Hl k Hpop) as [Hk (x & Hx)].
  assert (linked {| g := g st; OPEN := delete k (OPEN st); pred := pred st |})
    as Hl1.
  { destruct Hl as [H1 H2 H3 H4]. constructor; simpl; try assumption.
    intros v Hv. apply H3. destruct Hv as [w Hw].
    apply lookup_delete_Some in Hw. destruct Hw as [_ Hw]. eauto. }
  destruct (same_cell k t) eqn:Hsame.
  - apply same_cell_eq in Hsame. subst k. intros Heq.
    injection Heq as <-. split; [exact Hl1|]. split; [exact Hk|]. eauto.
  - destruct (_neighbor_func P bm k) as [infos|e] eqn:Hn; [|discriminate].
    simpl.
    destruct (relax_all P t k infos
                {| g := g st; OPEN := delete k (OPEN st); pred := pred st |})
      as [st2|e] eqn:Hr; [|discriminate].
    apply IH.
    apply (relax_all_linked k infos _ st2 Hl1 Hk); [|exact Hr].
    intros info Hin. split; [exact (within k infos Hk Hn info Hin)|].
    intros c Hc. split; [exact Hk|]. exists infos, c. split; [exact Hn|].
    destruct info as [v w]. simpl in *. subst w. exact Hin.
Qed.

Lemma backtrack_chain st fuel :
  linked st ->
  forall v x acc l,
    in_bounds shp v -> data (g st) v = Fin x ->
    backtrack fuel (pred st) s v acc = Some (Ok l) ->
    exists q, l = acc ++ rev q /\ chain (hop P) s v q.
Proof.
  intros Hl. induction fuel as [|fuel IH]; intros v x acc l Hv Hx; simpl;
    [discriminate|].
  destruct (same_cell v s) eqn:Hsame.
  - apply same_cell_eq in Hsame. subst v. intros Heq. injection Heq as <-.
    exists [s]. split; [reflexivity|constructor].
  - apply same_cell_neq in Hsame.
    destruct (linked_pred _ Hl v x Hv Hx Hsame) as [(y & Hy) Hh].
    rewrite aget_in_bounds by (rewrite (linked_shape_pred _ Hl); exact Hv).
    intros Hb.
    destruct (IH _ y _ _ (proj1 Hh) Hy Hb) as (q & -> & Hq).
    exists (q ++ [v]). split.
    + rewrite rev_app_distr, <- app_assoc. reflexivity.
    + now apply chain_snoc with (data (pred st) v).
Qed.

Lemma plan_algo_chain fuel P' :
  _plan_algo fuel P s t = Some (Ok (true, P')) ->
  exists p, P' = set_path P (Some p) /\ chain (hop P) s t p.
Proof.
  unfold _plan_algo. destruct (same_cell s t) eqn:Hsame.
  - apply same_cell_eq in Hsame. subst t. intros Heq. injection Heq as <-.
    exists [s]. split; [reflexivity|constructor].
  - destruct (search_init P bm s t) as [st0|e] eqn:Hinit; [|discriminate].
    apply search_init_linked in Hinit.
    destruct (search_loop fuel P bm t st0) as [[[[|] st]|e]|] eqn:Hloop;
      try discriminate.
    destruct (search_loop_linked fuel st0 st Hinit Hloop)
      as (Hl & Ht & x & Hx).
    destruct (backtrack fuel (pred st) s t []) as [[path_|e]|] eqn:Hb;
      try discriminate.
    intros Heq. injection Heq as <-.
    destruct (backtrack_chain st fuel Hl t x [] path_ Ht Hx Hb)
      as (q & -> & Hq).
    exists q. simpl. rewrite rev_involutive. split; [reflexivity|exact Hq].
Qed.

(** The invariant behind a failed search: every labelled cell of the map
    is open or has all the cells it lists with a finite cost labelled too,
    the cell [u] being expanded excepted; and a labelled target is open. *)
Record explored (u : option cell) (st : search) : Prop := {
  explored_shape_g : shape (g st) = shp;
  explored_shape_pred : shape (pred st) = shp;
  explored_open : forall v, is_Some (OPEN st !! v) ->
    in_bounds shp v /\ exists x, data (g st) v = Fin x;
  explored_start : exists x, data (g st) s = Fin x;
  explored_closed : forall w x,
    in_bounds shp w -> data (g st) w = Fin x -> Some w <> u ->
    is_Some (OPEN st !! w)
    \/ forall v, hop P w v -> exists y, data (g st) v = Fin y;
  explored_target : forall x, data (g st) t = Fin x -> is_Some (OPEN st !! t)
}.

Lemma search_init_explored st0 :
  s <> t -> search_init P bm s t = Ok st0 -> explored None st0.
Proof.
  intros Hne. unfold search_init.
  rewrite aset_in_bounds by exact s_in. simpl.
  rewrite aget_in_bounds by exact s_in. simpl.
  intros Heq. injection Heq as <-. constructor; simpl; try reflexivity.
  - intros v Hv. destruct (decide (v = s)) as [->|Hvs].
    + split; [exact s_in|]. destruct (decide (s = s)); [eauto|congruence].
    + rewrite lookup_singleton_ne in Hv by congruence.
      destruct Hv as [? Hv]. discriminate Hv.
  - destruct (decide (s = s)); [eauto|congruence].
  - intros w x _ Hw _. destruct (decide (w = s)) as [->|]; [|discriminate Hw].
    left. rewrite lookup_singleton_eq. eauto.
  - intros x Hx. destruct (decide (t = s)); [congruence|discriminate Hx].
Qed.

Lemma weight_not_gt_finite a k :
  weight_gt a (Fin k) = false -> exists y, a = Fin y.
Proof. destruct a; simpl; intros H; [eauto|discriminate]. Qed.

Lemma relax_explored u st child st' xu :
  explored (Some u) st -> in_bounds shp u -> data (g st) u = Fin xu ->
  in_bounds shp (coord child) ->
  relax P t u st child = Ok st' ->
  explored (Some u) st'
  /\ (forall v y, data (g st) v = Fin y -> exists y', data (g st') v = Fin y')
  /\ (forall c, cost child = Fin c ->
        exists y, data (g st') (coord child) = Fin y).
Proof.
  intros [H1 H2 H3 H4 H5 H6] Hu Hxu Hc. unfold relax.
  rewrite !aget_in_bounds by (rewrite H1; assumption). simpl. rewrite Hxu.
  destruct (weight_gt (data (g st) (coord child))
              (weight_add (Fin xu) (cost child))) eqn:Hgt.
  - apply weight_gt_finite in Hgt. destruct Hgt as (k & Hk).
    destruct (cost child) as [c|] eqn:Hcc; [|discriminate]. simpl in Hk.
    rewrite aset_in_bounds by (rewrite H1; assumption). simpl.
    rewrite aset_in_bounds by (rewrite H2; assumption). simpl.
    rewrite aget_in_bounds by (simpl; rewrite H1; assumption). simpl.
    intros Heq. injection Heq as <-.
    assert (forall v y, data (g st) v = Fin y ->
              exists y', (if decide (v = coord child)
                          then Fin (xu + c) else data (g st) v) = Fin y')
      as Hmono.
    { intros v y Hv. destruct (decide (v = coord child)); eauto. }
    split; [constructor; simpl; try assumption|split].
    + intros v Hv. destruct (decide (v = coord child)) as [->|Hne].
      * split; [exact Hc|]. eauto.
      * rewrite lookup_insert_ne in Hv by congruence. now apply H3.
    + destruct H4 as (x & Hx). exact (Hmono s x Hx).
    + intros w x Hw Hx Hwu.
      destruct (decide (w = coord child)) as [->|Hne].
      * left. rewrite lookup_insert_eq. eauto.
      * destruct (H5 w x Hw Hx Hwu) as [Ho|Hcl].
        -- left. rewrite lookup_insert_ne by congruence. exact Ho.
        -- right. intros v Hv. destruct (Hcl v Hv) as (y & Hy).
           exact (Hmono v y Hy).
    + intros x Hx. destruct (decide (t = coord child)) as [->|Hne].
      * rewrite lookup_insert_eq. eauto.
      * rewrite lookup_insert_ne by congruence. exact (H6 x Hx).
    + exact Hmono.
    + intros c' _. simpl. destruct (decide (coord child = coord child));
        [eauto|congruence].
  - intros Heq. injection Heq as <-.
    split; [constructor; assumption|split].
    + eauto.
    + intros c Hcc. rewrite Hcc in Hgt. simpl in Hgt.
      exact (weight_not_gt_finite _ _ Hgt).
Qed.

Lemma relax_all_explored u infos st st' xu :
  explored (Some u) st -> in_bounds shp u -> data (g st) u = Fin xu ->
  (forall info, In info infos -> in_bounds shp (coord info)) ->
  relax_all P t u infos st = Ok st' ->
  explored (Some u) st'
  /\ (forall v y, data (g st) v = Fin y -> exists y', data (g st') v = Fin y')
  /\ (forall info c, In info infos -> cost info = Fin c ->
        exists y, data (g st') (coord info) = Fin y).
Proof.
  revert st xu. induction infos as [|info rest IH]; intros st xu He Hu Hxu Hin;
    simpl.
  - intros Heq. injection Heq as <-. split; [exact He|].
    split; [eauto|]. intros info c [].
  - destruct (relax P t u st info) as [st1|e] eqn:Hr; [|discriminate]. simpl.
    intros Hrest.
    destruct (relax_explored u st info st1 xu He Hu Hxu
                (Hin info (or_introl eq_refl)) Hr) as (He1 & Hm1 & Hc1).
    destruct (Hm1 u xu Hxu) as (xu1 & Hxu1).
    destruct (IH st1 xu1 He1 Hu Hxu1 (fun i Hi => Hin i (or_intror Hi)) Hrest)
      as (He2 & Hm2 & Hc2).
    split; [exact He2|]. split.
    + intros v y Hv. destruct (Hm1 v y Hv) as (y1 & Hy1). exact (Hm2 v y1 Hy1).
    + intros i c [<-|Hi] Hc.
      * destruct (Hc1 c Hc) as (y & Hy). exact (Hm2 _ y Hy).
      * exact (Hc2 i c Hi Hc).
Qed.

Lemma search_loop_explored fuel st st' :
  explored None st ->
  search_loop fuel P bm t st = Some (Ok (false, st')) ->
  explored None st' /\ OPEN st' = ∅.
Proof.
  revert st. induction fuel as [|fuel IH]; intros st He; simpl;
    [discriminate|].
  destruct (Nat.eqb_spec (size (OPEN st)) 0) as [Hsize|Hsize].
  - intros Heq. injection Heq as <-. split; [exact He|].
    now apply map_size_empty_iff.
  - destruct (popitem (OPEN st)) as [k|] eqn:Hpop; [|discriminate].
    apply queue in Hpop.
    destruct (explored_open _ _ He k Hpop) as [Hk (xu & Hxu)].
    destruct (same_cell k t) eqn:Hsame; [discriminate|].
    apply same_cell_neq in Hsame.
    destruct (_neighbor_func P bm k) as [infos|e] eqn:Hn; [|discriminate].
    simpl.
    destruct (relax_all P t k infos
                {| g := g st; OPEN := delete k (OPEN st); pred := pred st |})
      as [st2|e] eqn:Hr; [|discriminate].
    assert (explored (Some k)
              {| g := g st; OPEN := delete k (OPEN st); pred := pred st |})
      as He1.
    { destruct He as [H1 H2 H3 H4 H5 H6]. constructor; simpl; try assumption.
      - intros v [w Hw]. apply lookup_delete_Some in Hw.
        destruct Hw as [_ Hw]. apply H3. eauto.
      - intros w x Hw Hx Hwk.
        destruct (H5 w x Hw Hx ltac:(discriminate)) as [Ho|Hcl];
          [left|now right].
        rewrite lookup_delete_ne by congruence. exact Ho.
      - intros x Hx. rewrite lookup_delete_ne by congruence. exact (H6 x Hx). }
    destruct (relax_all_explored k infos _ st2 xu He1 Hk Hxu
                (within k infos Hk Hn) Hr) as (He2 & _ & Hc2).
    apply IH. destruct He2 as [H1 H2 H3 H4 H5 H6].
    constructor; try assumption.
    intros w x Hw Hx _. destruct (decide (w = k)) as [->|Hne].
    + right. intros v (_ & infos' & c & Hn' & Hin).
      rewrite Hn in Hn'. injection Hn' as <-.
      exact (Hc2 _ c Hin eq_refl).
    + apply (H5 w x Hw Hx). congruence.
Qed.

Lemma chain_labelled st v p :
  explored None st -> OPEN st = ∅ -> chain (hop P) s v p ->
  in_bounds shp v /\ exists y, data (g st) v = Fin y.
Proof.
  intros He Hempty Hp. induction Hp as [|u v p Hp [Hu (x & Hx)] Huv].
  - split; [exact s_in|exact (explored_start _ _ He)].
  - split.
    + destruct Huv as (_ & infos & c & Hn & Hin).
      exact (within u infos Hu Hn _ Hin).
    + destruct (explored_closed _ _ He u x Hu Hx ltac:(discriminate))
        as [[w Hw]|Hcl].
      * rewrite Hempty, lookup_empty in Hw. discriminate Hw.
      * exact (Hcl v Huv).
Qed.

Lemma plan_algo_unreachable fuel P' p :
  _plan_algo fuel P s t = Some (Ok (false, P')) -> ~ chain (hop P) s t p.
Proof.
  unfold _plan_algo. destruct (same_cell s t) eqn:Hsame; [discriminate|].
  apply same_cell_neq in Hsame.
  destruct (search_init P bm s t) as [st0|e] eqn:Hinit; [|discriminate].
  apply (search_init_explored st0 Hsame) in Hinit.
  destruct (search_loop fuel P bm t st0) as [[[[|] st]|e]|] eqn:Hloop;
    try discriminate.
  { destruct (backtrack fuel (pred st) s t []) as [[path_|e]|]; discriminate. }
  intros _ Hp.
  destruct (search_loop_explored fuel st0 st Hinit Hloop) as [He Hempty].
  destruct (chain_labelled st t p He Hempty Hp) as [_ (y & Hy)].
  destruct (explored_target _ _ He y Hy) as [w Hw].
  rewrite Hempty, lookup_empty in Hw. discriminate Hw.
Qed.

End Safety.

Lemma plan_chain fuel (P : A_Star_Planner) (start target : point) P' :
  pops_a_key -> neighbors_within P ->
  in_bounds (shape (get_binary_map (_map P)))
    (convert_to_grid_coord (_map P) start) ->
  plan fuel P start target = Some (Ok (true, P')) ->
  exists p,
    P' = set_path_idx (set_path P (Some p)) (Some 0)
    /\ chain (hop P) (convert_to_grid_coord (_map P) start)
         (convert_to_grid_coord (_map P) target) p.
Proof.
  intros Hq Hw Hs. unfold plan.
  destruct (_plan_algo fuel P (convert_to_grid_coord (_map P) start)
              (convert_to_grid_coord (_map P) target))
    as [[[[|] P1]|e]|] eqn:Ha; try discriminate.
  intros Heq. injection Heq as <-.
  destruct (plan_algo_chain P _ _ Hq Hw Hs fuel P1 Ha) as (p & -> & Hp).
  exists p. split; [reflexivity|exact Hp].
Qed.

(** X10.  When [popitem] removes a key of the queue and the neighbour
    function lists cells of the map, a successful [plan] from a cell of
    the map stores a path with the cursor at 0 that starts at the start
    cell, ends at the target cell, and in which every cell is listed with
    a finite cost among the neighbours of the cell before it; nothing else
    of the planner changes. *)
Theorem planned_path_walks_finite_cost_neighbours
  (fuel : nat) (P : A_Star_Planner) (start target : point)
  (P' : A_Star_Planner) :
  let s := convert_to_grid_coord (_map P) start in
  let t := convert_to_grid_coord (_map P) target in
  pops_a_key ->
  neighbors_within P ->
  in_bounds (shape (get_binary_map (_map P))) s ->
  plan fuel P start target = Some (Ok (true, P')) ->
  exists p,
    P' = set_path_idx (set_path P (Some p)) (Some 0)
    /\ hd_error p = Some s
    /\ hd_error (rev p) = Some t
    /\ chain (hop P) s t p.
Proof.
  intros s t Hq Hw Hs Hplan.
  destruct (plan_chain fuel P start target P' Hq Hw Hs Hplan) as (p & HP & Hp).
  exists p. split; [exact HP|].
  destruct (chain_ends _ _ _ _ Hp) as [Hh Hl]. auto.
Qed.

(** A step of the window strategy whose ray crosses no obstacle. *)
Definition clear_step (m : ndarray Z) (n : Z) (u v : cell) : Prop :=
  in_bounds (shape m) u /\ in_window m n u v
  /\ forall k, In k (raytrace (fst u) (snd u) (fst v) (snd v)) ->
       data m k <> OBSTACLE.

(** A step to an adjacent cell, neither end being an obstacle. *)
Definition free_step (m : ndarray Z) (u v : cell) : Prop :=
  in_bounds (shape m) u /\ in_bounds (shape m) v /\ v <> u
  /\ -1 <= fst v - fst u <= 1 /\ -1 <= snd v - snd u <= 1
  /\ data m u <> OBSTACLE /\ data m v <> OBSTACLE.

Lemma window_strategy_within (P : A_Star_Planner) n :
  _neighbor_func P = get_n_grid_neighbors n ->
  raytrace_within (shape (get_binary_map (_map P))) ->
  neighbors_within P.
Proof.
  intros Hs Hray u infos Hu Hn [v c] Hin. rewrite Hs in Hn.
  destruct (get_n_grid_neighbors_entries n _ u Hray Hu) as (infos' & Hn' & H).
  rewrite Hn in Hn'. injection Hn' as <-.
  apply H in Hin. apply Hin.
Qed.

Lemma window_strategy_hop (P : A_Star_Planner) n u v :
  _neighbor_func P = get_n_grid_neighbors n ->
  raytrace_within (shape (get_binary_map (_map P))) ->
  hop P u v -> clear_step (get_binary_map (_map P)) n u v.
Proof.
  intros Hs Hray (Hu & infos & c & Hn & Hin). rewrite Hs in Hn.
  destruct (get_n_grid_neighbors_entries n _ u Hray Hu) as (infos' & Hn' & H).
  rewrite Hn in Hn'. injection Hn' as <-.
  apply H in Hin. destruct Hin as [Hw Hc].
  split; [exact Hu|]. split; [exact Hw|].
  intros k Hk Hobs. unfold ray_cost in Hc.
  destruct (existsb _ _) eqn:He; [discriminate|].
  assert (existsb (fun k => data (get_binary_map (_map P)) k =? OBSTACLE)
            (raytrace (fst u) (snd u) (fst v) (snd v)) = true) as Ht;
    [|congruence].
  apply existsb_exists. exists k. split; [exact Hk|]. now apply Z.eqb_eq.
Qed.

Lemma in_get_8_neighbors_finite (m : ndarray Z) u v c infos :
  in_bounds (shape m) u ->
  get_8_neighbors m u = Ok infos ->
  In {| coord := v; cost := Fin c |} infos ->
  free_step m u v.
Proof.
  intros Hu. unfold get_8_neighbors.
  rewrite get_8_neighbors_loop_in_bounds by exact Hu. rewrite app_nil_l.
  remember (offsets (-1) 2) as ijs eqn:Hijs.
  intros Heq. injection Heq as <-. rewrite in_map_iff.
  intros (ij & Heq & Hin). apply List.filter_In in Hin.
  destruct Hin as [Hoff Hc]. subst ijs. apply in_offsets in Hoff.
  apply candidate_iff in Hc. destruct Hc as (Hne & H1 & H2).
  unfold info_8 in Heq. injection Heq as <- Hcost.
  destruct ij as [i j], u as [x y]. cbn [fst snd] in *.
  split; [exact Hu|]. split; [split; assumption|]. split.
  { intros E. apply Hne. inversion E. f_equal; lia. }
  cbn [fst snd]. split; [lia|]. split; [lia|].
  destruct (Z.eqb_spec (data m (x, y)) OBSTACLE); [discriminate|].
  destruct (Z.eqb_spec (data m (x + i, y + j)) OBSTACLE); [discriminate|].
  split; assumption.
Qed.

Lemma eight_strategy_within (P : A_Star_Planner) :
  _neighbor_func P = get_8_neighbors -> neighbors_within P.
Proof.
  intros Hs u infos Hu Hn info Hin. rewrite Hs in Hn.
  unfold get_8_neighbors in Hn.
  rewrite get_8_neighbors_loop_in_bounds in Hn by exact Hu.
  rewrite app_nil_l in Hn. remember (offsets (-1) 2) as ijs eqn:Hijs.
  injection Hn as <-.
  apply in_map_iff in Hin. destruct Hin as (ij & <- & Hin).
  apply List.filter_In in Hin. destruct Hin as [_ Hc].
  apply candidate_iff in Hc. destruct Hc as (_ & H1 & H2).
  split; assumption.
Qed.

Lemma chain_all (R : cell -> cell -> Prop) (Q : cell -> Prop) a b p :
  (forall u v, R u v -> Q u /\ Q v) ->
  chain R a b p -> (p = [a] /\ b = a) \/ List.Forall Q p.
Proof.
  intros HR H. induction H as [|u v p Hp IH Huv]; [now left|].
  right. destruct (HR u v Huv) as [Qu Qv].
  destruct IH as [[-> ->]|IH].
  - repeat constructor; assumption.
  - apply List.Forall_app. split; [exact IH|]. repeat constructor. exact Qv.
Qed.

(** X11.  With the window strategy [get_n_grid_neighbors] and rays that
    stay on the grid, the path stored by a successful [plan] from a cell
    of the map leads from the start cell to the target cell by steps
    inside the window, and the ray of every step holds no obstacle cell of
    the binary map. *)
Theorem planned_path_crosses_no_obstacle
  (fuel : nat) (P : A_Star_Planner) (n : Z) (start target : point)
  (P' : A_Star_Planner) :
  let s := convert_to_grid_coord (_map P) start in
  let t := convert_to_grid_coord (_map P) target in
  let bm := get_binary_map (_map P) in
  pops_a_key ->
  _neighbor_func P = get_n_grid_neighbors n ->
  raytrace_within (shape bm) ->
  in_bounds (shape bm) s ->
  plan fuel P start target = Some (Ok (true, P')) ->
  exists p, _path P' = Some p /\ chain (clear_step bm n) s t p.
Proof.
  intros s t bm Hq Hs Hray Hin Hplan.
  destruct (plan_chain fuel P start target P' Hq
              (window_strategy_within P n Hs Hray) Hin Hplan) as (p & -> & Hp).
  exists p. split; [reflexivity|].
  apply chain_mono with (R := hop P); [|exact Hp].
  intros u v. now apply window_strategy_hop.
Qed.

(** X12.  With the strategy [get_8_neighbors], the path stored by a
    successful [plan] from a cell of the map leads from the start cell to
    the target cell by steps between adjacent cells of the map, and unless
    start and target are the same cell no cell of the path is an obstacle
    of the binary map. *)
Theorem planned_path_avoids_obstacles
  (fuel : nat) (P : A_Star_Planner) (start target : point)
  (P' : A_Star_Planner) :
  let s := convert_to_grid_coord (_map P) start in
  let t := convert_to_grid_coord (_map P) target in
  let bm := get_binary_map (_map P) in
  pops_a_key ->
  _neighbor_func P = get_8_neighbors ->
  in_bounds (shape bm) s ->
  plan fuel P start target = Some (Ok (true, P')) ->
  exists p,
    _path P' = Some p
    /\ chain (free_step bm) s t p
    /\ (s <> t -> List.Forall (fun k => data bm k <> OBSTACLE) p).
Proof.
  intros s t bm Hq Hs Hin Hplan.
  destruct (plan_chain fuel P start target P' Hq
              (eight_strategy_within P Hs) Hin Hplan) as (p & -> & Hp).
  assert (chain (free_step bm) s t p) as Hfree.
  { apply chain_mono with (R := hop P); [|exact Hp].
    intros u v (Hu & infos & c & Hn & Hi). rewrite Hs in Hn.
    exact (in_get_8_neighbors_finite bm u v c infos Hu Hn Hi). }
  exists p. split; [reflexivity|]. split; [exact Hfree|].
  intros Hne.
  destruct (chain_all (free_step bm) (fun k => data bm k <> OBSTACLE)
              s t p) as [[_ Heq]|Hall]; [|exact Hfree| |exact Hall].
  - intros u v (_ & _ & _ & _ & _ & Hu & Hv). split; assumption.
  - exfalso. apply Hne. now symmetry.
Qed.

(** X22.  When [popitem] removes a key of the queue and the neighbour
    function lists cells of the map, a [plan] from a cell of the map
    returns [False] only if the target cell cannot be reached from the
    start cell through cells that are each listed with a finite cost among
    the neighbours of the one before. *)
Theorem plan_fails_only_when_unreachable
  (fuel : nat) (P : A_Star_Planner) (start target : point)
  (P' : A_Star_Planner) :
  let s := convert_to_grid_coord (_map P) start in
  let t := convert_to_grid_coord (_map P) target in
  pops_a_key ->
  neighbors_within P ->
  in_bounds (shape (get_binary_map (_map P))) s ->
  plan fuel P start target = Some (Ok (false, P')) ->
  forall p, ~ chain (hop P) s t p.
Proof.
  intros s t Hq Hw Hs Hplan p. unfold plan in Hplan. fold s t in Hplan.
  destruct (_plan_algo fuel P s t) as [[[[|] P1]|e]|] eqn:Ha;
    try discriminate.
  exact (plan_algo_unreachable P s t Hq Hw Hs fuel P1 p Ha).
Qed.

(** *** Consuming a path *)

(** [k] calls of [take_next_stop] in a row, collecting what they return. *)
Fixpoint take_stops (k : nat) (P : A_Star_Planner)
  : result (list point * A_Star_Planner) :=
  match k with
  | O => Ok ([], P)
  | S k' =>
      bind (take_next_stop P) (fun r =>
      bind (take_stops k' (snd r)) (fun rs =>
      Ok (fst r :: fst rs, snd rs)))
  end.

Lemma skipn_nth_error {A} (l : list A) j x :
  nth_error l j = Some x -> skipn j l = x :: skipn (S j) l.
Proof.
  revert j. induction l as [|y l IH]; intros [|j] H; try discriminate.
  - now injection H as ->.
  - simpl in H. apply IH in H. exact H.
Qed.

Lemma take_stops_from k P p i :
  cursor_on_path P p i ->
  (Z.to_nat (i + 1) + k <= length p)%nat ->
  take_stops k P
  = Ok (map (convert_to_world_coord (_map P))
          (firstn k (skipn (Z.to_nat (i + 1)) p)),
        set_path_idx P (Some (i + Z.of_nat k))).
Proof.
  revert P i. induction k as [|k IH]; intros P i Hc Hlen.
  - simpl. destruct Hc as (Hp & Hi & _). destruct P. simpl in *. subst.
    rewrite Z.add_0_r. reflexivity.
  - pose proof Hc as (Hp & Hi & Hr & Hl).
    destruct (take_next_stop_advances P p i Hc) as [Hlt _].
    destruct Hlt as (c & Hn & Ht); [lia|].
    simpl. rewrite Ht. simpl.
    rewrite (IH (set_path_idx P (Some (i + 1))) (i + 1)).
    + simpl. rewrite (skipn_nth_error p _ c Hn). simpl.
      replace (Z.to_nat (i + 1 + 1)) with (S (Z.to_nat (i + 1))) by lia.
      replace (i + 1 + Z.of_nat k) with (i + Z.pos (Pos.of_succ_nat k)) by lia.
      reflexivity.
    + repeat split; simpl; auto; lia.
    + lia.
Qed.

(** X13.  On a planner that holds a path of at least two cells with the
    cursor at 0, [k] successive [take_next_stop] calls return the world
    coordinates of the cells 1 to [k] of the path in order and leave the
    cursor at [k]; [next_stop] then returns the cell [k + 1] without moving
    the cursor, and once the last cell has been taken both calls raise
    [IndexError]. *)
Theorem stops_are_taken_in_order
  (P : A_Star_Planner) (p : list cell) (k : nat) :
  _path P = Some p -> _path_idx P = Some 0 ->
  (2 <= length p)%nat -> (k < length p)%nat ->
  let world := convert_to_world_coord (_map P) in
  let Pk := set_path_idx P (Some (Z.of_nat k)) in
  take_stops k P = Ok (map world (firstn k (tl p)), Pk)
  /\ match nth_error p (S k) with
     | Some c => next_stop Pk = Ok (world c, Pk)
     | None => next_stop Pk = Raise IndexError
               /\ take_next_stop Pk = Raise IndexError
     end.
Proof.
  intros Hp Hi Hlen Hk world Pk.
  assert (cursor_on_path P p 0) as Hc by (repeat split; auto; lia).
  split.
  - rewrite (take_stops_from k P p 0 Hc) by (simpl; lia).
    destruct p; reflexivity.
  - assert (cursor_on_path Pk p (Z.of_nat k)) as Hck
      by (repeat split; simpl; auto; lia).
    destruct (next_stop_keeps_cursor Pk p _ Hck) as [Hlt Hge].
    destruct (take_next_stop_advances Pk p _ Hck) as [_ Hge'].
    destruct (nth_error p (S k)) as [c|] eqn:Hn.
    + destruct Hlt as (c' & Hn' & Hnext).
      { assert (nth_error p (S k) <> None) as Hs by congruence.
        apply nth_error_Some in Hs. lia. }
      replace (Z.to_nat (Z.of_nat k + 1)) with (S k) in Hn' by lia.
      rewrite Hn in Hn'. injection Hn' as <-. exact Hnext.
    + apply nth_error_None in Hn. split; [apply Hge|apply Hge']; lia.
Qed.

(** X14.  After a [plan] that returned [False] there is no stop to take:
    [next_stop] and [take_next_stop] raise, [TypeError] when the cursor was
    never set and [IndexError] otherwise, and [path_valid] raises
    [TypeError] when the cursor was never set and returns [False]
    otherwise. *)
Theorem failed_plan_leaves_no_stop
  (fuel : nat) (P : A_Star_Planner) (start target pos : point)
  (P' : A_Star_Planner) :
  plan fuel P start target = Some (Ok (false, P')) ->
  match _path_idx P with
  | None =>
      next_stop P' = Raise TypeError
      /\ take_next_stop P' = Raise TypeError
      /\ path_valid P' pos = Raise TypeError
  | Some i =>
      next_stop P' = Raise IndexError
      /\ take_next_stop P' = Raise IndexError
      /\ (-1 <= i -> path_valid P' pos = Ok false)
  end.
Proof.
  intros Hplan. apply plan_failure in Hplan. subst P'.
  unfold next_stop, take_next_stop, path_valid, pin_single, idx_plus_one,
    path. simpl.
  destruct (_path_idx P) as [i|] eqn:Hi; simpl.
  - assert (getitem (@nil cell) (i + 1) = Raise IndexError) as Hg.
    { unfold getitem, norm_index. simpl length.
      change (Z.of_nat 0) with 0. change (- 0) with 0.
      destruct (Z.leb_spec 0 (i + 1)); destruct (Z.ltb_spec (i + 1) 0);
        simpl; try reflexivity; lia. }
    rewrite Hg. simpl. split; [reflexivity|]. split; [reflexivity|].
    intros Hge. change (Z.of_nat 0) with 0.
    destruct (Z.geb_spec (i + 1) 0); [reflexivity|lia].
  - auto.
Qed.

(** X15.  On a planner that holds a one-cell path, [next_stop] returns
    that cell and leaves the cursor at -1, and a [path_valid] call made
    then raises [IndexError]: its first segment reads the path at index
    -2. *)
Theorem path_valid_raises_after_single_stop
  (P : A_Star_Planner) (c : cell) (pos : point) :
  _path P = Some [c] ->
  exists P1,
    next_stop P = Ok (convert_to_world_coord (_map P) c, P1)
    /\ P1 = set_path_idx P (Some (-1))
    /\ path_valid P1 pos = Raise IndexError.
Proof.
  intros Hp. exists (set_path_idx P (Some (-1))).
  unfold next_stop, path_valid, pin_single, idx_plus_one, path.
  simpl. rewrite !Hp. simpl. rewrite ?Hp.
  split; [reflexivity|]. split; reflexivity.
Qed.

End Planner.

End Plan.

(** ** A concrete occupancy grid *)

Module Demo.
Import Py Plan.

(** Modelled from the spec: [Map.py] is not among the sources.  The grid
    keeps one integer per cell, 0 for free or unknown and [OBSTACLE] for a
    confirmed obstacle, together with the configured maximal range; world
    and grid coordinates are related by the affine transform of resolution
    1 and origin 0. *)
Record OccupancyGrid := { _map : ndarray Z; max_range : Q }.

Definition OBSTACLE : Z := 1.
Definition EMPTY : Z := 0.

Definition _map_array (m : OccupancyGrid) : ndarray Z := _map m.

(** Modelled from the spec: [binary_map()], where every cell that is not a
    confirmed obstacle is traversable. *)
Definition get_binary_map (m : OccupancyGrid) : ndarray Z :=
  {| shape := shape (_map m);
     data := fun c => if data (_map m) c =? OBSTACLE then OBSTACLE else EMPTY |}.

(** Modelled from the spec: [to_grid(p)] and [to_world(c)]. *)
Definition convert_to_grid_coord (m : OccupancyGrid) (p : point) : cell :=
  (Qfloor (fst p), Qfloor (snd p)).

Definition convert_to_world_coord (m : OccupancyGrid) (c : cell) : point :=
  as_point c.

(** Rounded quotient, for a positive divisor. *)
Definition round_div (a m : Z) : Z := (2 * a + m) / (2 * m).

(** Modelled from the spec: [raytrace(c0, c1)], an integer line
    rasterisation that enumerates the cells on the straight line between
    two cells, both endpoints included. *)
Definition raytrace (x0 y0 x1 y1 : Z) : list cell :=
  let dx := x1 - x0 in
  let dy := y1 - y0 in
  let m := Z.max (Z.abs dx) (Z.abs dy) in
  if m =? 0 then [(x0, y0)]
  else map (fun k => (x0 + round_div (k * dx) m, y0 + round_div (k * dy) m))
         (range 0 (m + 1)).

Definition write_cell (m : ndarray Z) (c : cell) (v : Z) : ndarray Z :=
  match aset m c v with
  | Ok m' => m'
  | Raise _ => m
  end.

(** Modelled from the spec: [update_map(scan_origin, scan_results)].  The
    cells before the endpoint of each ray are marked free, the endpoint
    cell is marked obstacle when the measured range is below the maximal
    range; the last write wins. *)
Definition update_one (m : OccupancyGrid) (scan_start : point)
  (r : Env.ScanResult) : OccupancyGrid :=
  let s := convert_to_grid_coord m scan_start in
  let e := convert_to_grid_coord m
             (Env.padd scan_start
                (Env.range r * Env.demo_cos (Env.angle r),
                 Env.range r * Env.demo_sin (Env.angle r)))%Q in
  let ray := raytrace (fst s) (snd s) (fst e) (snd e) in
  let cleared := fold_left (fun a c => write_cell a c EMPTY)
                   (removelast ray) (_map m) in
  {| _map := if Qltb (Env.range r) (max_range m)
             then write_cell cleared e OBSTACLE else cleared;
     max_range := max_range m |}.

Definition update_map (m : OccupancyGrid) (scan_start : point)
  (scan_results : list Env.ScanResult) : OccupancyGrid :=
  fold_left (fun a r => update_one a scan_start r) scan_results m.

(** A rational stand-in for the float [np.linalg.norm([i, j])]: the square
    root to three decimals. *)
Definition norm (ij : cell) : Q :=
  inject_Z (Z.sqrt (1000000 * (fst ij * fst ij + snd ij * snd ij))) / 1000.

(** A priority queue that pops the first key of least priority in the
    order of its items. *)
Definition least (best kv : cell * weight) : cell * weight :=
  if weight_gt (snd best) (snd kv) then kv else best.

Definition popitem (O : gmap cell weight) : option cell :=
  match map_to_list O with
  | [] => None
  | kv :: rest => Some (fst (fold_left least rest kv))
  end.

Definition Planner := A_Star_Planner OccupancyGrid.

Definition plan : nat -> Planner -> point -> point
                  -> option (result (bool * Planner)) :=
  Plan.plan OccupancyGrid get_binary_map convert_to_grid_coord popitem.

Definition path_valid : Planner -> point -> result bool :=
  Plan.path_valid OccupancyGrid _map_array convert_to_grid_coord raytrace.

Definition next_stop : Planner -> result (point * Planner) :=
  Plan.next_stop OccupancyGrid convert_to_world_coord.

Definition take_next_stop : Planner -> result (point * Planner) :=
  Plan.take_next_stop OccupancyGrid convert_to_world_coord.

(** The default strategy, [get_n_grid_neighbors] with [n = 3]. *)
Definition neighbor_func : ndarray Z -> cell -> result (list VertexInfo) :=
  get_n_grid_neighbors raytrace OBSTACLE norm 3.

Definition heuristic (d : cell) : Q := norm d.

Definition grid_of (rows cols : Z) (obstacles : list cell) : OccupancyGrid :=
  {| _map := {| shape := (rows, cols);
                data := fun c => if existsb (same_cell c) obstacles
                                 then OBSTACLE else EMPTY |};
     max_range := 5 |}.

Definition fresh (m : OccupancyGrid) : Planner :=
  init OccupancyGrid m neighbor_func 1 heuristic.

(** A planner on a corridor of two cells, after a successful [plan] from
    the first cell to the second. *)
Definition corridor : OccupancyGrid := grid_of 1 2 [].
Definition corridor_blocked : OccupancyGrid := grid_of 1 2 [(0, 1)].

Definition planned : Planner :=
  set_path_idx OccupancyGrid
    (set_path OccupancyGrid (fresh corridor) (Some [(0, 0); (0, 1)]))
    (Some 0).

(** What a caller can see of the outcome of [plan]: the flag, the stored
    path and the cursor. *)
Definition observe (r : option (result (bool * Planner)))
  : option (result (bool * option (list cell) * option Z)) :=
  match r with
  | None => None
  | Some (Raise e) => Some (Raise e)
  | Some (Ok (b, P)) => Some (Ok (b, _path _ P, _path_idx _ P))
  end.

Lemma plan_corridor :
  plan 5 (fresh corridor) (0, 0)%Q (0, 1)%Q = Some (Ok (true, planned)).
Proof. reflexivity. Qed.

(** The same planner once the map has learnt that the second cell is an
    obstacle. *)
Definition replanning : Planner := set_map _ planned corridor_blocked.

Lemma plan_blocked :
  plan 5 replanning (0, 0)%Q (0, 1)%Q
  = Some (Ok (false, set_path _ replanning (Some []))).
Proof. reflexivity. Qed.




(** The planner after [plan] between two points of the first cell. *)
Definition single : Planner :=
  set_path_idx _ (set_path _ (fresh corridor) (Some [(0, 0)])) (Some 0).

Lemma plan_single :
  plan 0 (fresh corridor) (0, 0)%Q (1 # 2, 1 # 3)%Q = Some (Ok (true, single)).
Proof. reflexivity. Qed.

(** C4, as stated, fails on a one-cell path: right after the successful
    [plan] the cursor is 0; [next_stop] leaves it at -1, and
    [take_next_stop] leaves it at 0 instead of 1. *)
Lemma single_stop_cursor_regresses :
  plan 0 (fresh corridor) (0, 0)%Q (1 # 2, 1 # 3)%Q = Some (Ok (true, single))
  /\ cursor_of _ single = 0
  /\ cursor_of _ (do_call _ convert_to_world_coord NextStop single) = -1
  /\ ~ call_advances _ convert_to_world_coord NextStop single
  /\ ~ call_advances _ convert_to_world_coord TakeNextStop single.
Proof.
  split; [exact plan_single|]. split; [reflexivity|]. split; [reflexivity|].
  split; intros H; vm_compute in H; discriminate H.
Qed.

Lemma cursor_after_successful_plan_witness :
  exists i,
    cursor_on_path _
      (run _ convert_to_world_coord [NextStop; TakeNextStop; NextStop] planned)
      [(0, 0); (0, 1)] i.
Proof.
  destruct (cursor_after_successful_plan OccupancyGrid get_binary_map
              convert_to_grid_coord convert_to_world_coord popitem
              5 (fresh corridor) planned (0, 0)%Q (0, 1)%Q
              [NextStop; TakeNextStop; NextStop] plan_corridor)
    as [Hlong _].
  destruct Hlong as (i & Hi & _).
  - simpl. lia.
  - exists i. exact Hi.
Defined.

Lemma path_empty_before_first_success_witness :
  path _ (set_path _ (fresh corridor_blocked) (Some [])) = [].
Proof.
  apply (path_empty_before_first_success OccupancyGrid get_binary_map
           convert_to_grid_coord update_map popitem).
  apply (nsp_failed _ _ _ _ _ (fresh corridor_blocked) 5%nat
           (0, 0)%Q (0, 1)%Q).
  - apply nsp_init.
  - reflexivity.
Defined.

(** C1: on the corridor with no marked cell at all, the planner that has
    just planned (0,0), (0,1) and stands on the first cell is told that its
    path is invalid, although no segment of the tail is obstructed; with
    both cells marked as obstacles the path is reported valid, although the
    tail is obstructed. *)
Theorem path_valid_inverts_the_obstruction_test :
  (path_valid planned (0, 0)%Q = Ok false
   /\ ~ tail_obstructed _ _map_array convert_to_grid_coord raytrace
          (fun v => 0 <? v) planned (0, 0)%Q)
  /\ (path_valid (set_map _ planned (grid_of 1 2 [(0, 0); (0, 1)])) (0, 0)%Q
      = Ok true
      /\ tail_obstructed _ _map_array convert_to_grid_coord raytrace
           (fun v => 0 <? v)
           (set_map _ planned (grid_of 1 2 [(0, 0); (0, 1)])) (0, 0)%Q).
Proof.
  split; split.
  - reflexivity.
  - intros (p & k & i & Hp & Hk & Hi & vs & v & Hvs & Hin & Hm).
    inversion Hp; subst p. inversion Hk; subst k. simpl in Hi.
    assert (i = 0 \/ i = 1) as [->| ->] by lia;
      vm_compute in Hvs; inversion Hvs; subst vs; simpl in Hin;
      intuition (subst; discriminate).
  - reflexivity.
  - exists [(0, 0); (0, 1)], 0, 1. split; [reflexivity|].
    split; [reflexivity|]. split; [simpl; lia|].
    exists [1; 1], 1. split; [reflexivity|]. split; [now left|reflexivity].
Qed.

(** Whatever cell values are taken to mark an obstacle, the answer of
    [path_valid] is not the one the design describes. *)
Lemma path_valid_fits_no_marking (marked : Z -> bool) :
  exists m : ndarray Z,
    ~ invalid_iff_tail_obstructed _ _map_array convert_to_grid_coord raytrace
        marked (set_map _ planned {| _map := m; max_range := 5 |}) (0, 0)%Q.
Proof.
  destruct (marked 0) eqn:M0.
  - exists {| shape := (1, 2);
              data := fun c => if same_cell c (0, 0) then 1 else 0 |}.
    intros [_ H].
    assert (Ok true = Ok false :> result bool) as Habs; [|discriminate Habs].
    apply H. exists [(0, 0); (0, 1)], 0, 1. split; [reflexivity|].
    split; [reflexivity|]. split; [simpl; lia|].
    exists [1; 0], 0. split; [reflexivity|]. split; [right; now left|exact M0].
  - exists {| shape := (1, 2); data := fun _ => 0 |}.
    intros [H _].
    destruct (H eq_refl)
      as (p & k & i & Hp & Hk & Hi & vs & v & Hvs & Hin & Hm).
    inversion Hp; subst p. inversion Hk; subst k. simpl in Hi.
    assert (i = 0 \/ i = 1) as [->| ->] by lia;
      vm_compute in Hvs; inversion Hvs; subst vs; simpl in Hin;
      intuition (subst; congruence).
Qed.

(** *** The instance meets the assumptions of the optimality theorem *)

Lemma norm_positive (ij : cell) : ij <> (0, 0) -> (0 < norm ij)%Q.
Proof.
  intros Hne. unfold norm. destruct ij as [i j]. cbn [fst snd].
  assert (1 <= i * i + j * j) as Hsq.
  { destruct (Z.eq_dec i 0) as [->|Hi].
    - destruct (Z.eq_dec j 0) as [->|Hj]; [congruence|nia].
    - nia. }
  assert (1000 <= Z.sqrt (1000000 * (i * i + j * j))) as Hroot.
  { change 1000 with (Z.sqrt 1000000). apply Z.sqrt_le_mono. lia. }
  apply Qlt_shift_div_l; [reflexivity|].
  rewrite Qmult_0_l. change 0%Q with (inject_Z 0). rewrite <- Zlt_Qlt. lia.
Qed.

Lemma round_div_between (d k m : Z) :
  0 < m -> 0 <= k <= m ->
  (0 <= d -> 0 <= round_div (k * d) m <= d)
  /\ (d <= 0 -> d <= round_div (k * d) m <= 0).
Proof.
  intros Hm Hk. unfold round_div. split; intros Hd.
  - split.
    + apply Z.div_pos; nia.
    + apply Z.lt_succ_r. apply Z.div_lt_upper_bound; nia.
  - split.
    + apply Z.div_le_lower_bound; nia.
    + apply Z.lt_succ_r. apply Z.div_lt_upper_bound; nia.
Qed.

Lemma raytrace_stays_within shp : raytrace_within raytrace shp.
Proof.
  intros [x0 y0] [x1 y1] [Ha1 Ha2] [Hb1 Hb2]. cbn [fst snd] in *.
  unfold raytrace.
  set (m := Z.max (Z.abs (x1 - x0)) (Z.abs (y1 - y0))).
  destruct (Z.eqb_spec m 0) as [E|E].
  - constructor; [split; assumption|constructor].
  - apply List.Forall_forall. intros c Hc. apply in_map_iff in Hc.
    destruct Hc as (k & <- & Hk). apply in_range in Hk.
    assert (0 < m) as Hm by lia.
    destruct (round_div_between (x1 - x0) k m Hm ltac:(lia)) as [Hx1 Hx2].
    destruct (round_div_between (y1 - y0) k m Hm ltac:(lia)) as [Hy1 Hy2].
    split; cbn [fst snd].
    + destruct (Z_le_gt_dec 0 (x1 - x0)) as [H|H];
        [specialize (Hx1 H)|specialize (Hx2 ltac:(lia))]; lia.
    + destruct (Z_le_gt_dec 0 (y1 - y0)) as [H|H];
        [specialize (Hy1 H)|specialize (Hy2 ltac:(lia))]; lia.
Qed.

Lemma weight_not_gt_trans a b c :
  weight_gt a b = false -> weight_gt b c = false -> weight_gt a c = false.
Proof.
  destruct a as [x|], b as [y|], c as [z|]; simpl; try congruence.
  rewrite !Qltb_ge. intros. lra.
Qed.

Lemma weight_gt_asym a b : weight_gt a b = true -> weight_gt b a = false.
Proof.
  destruct a as [x|], b as [y|]; simpl; try congruence.
  rewrite Qltb_lt, Qltb_ge. intros. lra.
Qed.

Lemma weight_not_gt_refl a : weight_gt a a = false.
Proof. destruct a as [x|]; simpl; [|reflexivity]. apply Qltb_ge. lra. Qed.

Lemma fold_least rest :
  forall kv,
    In (fold_left least rest kv) (kv :: rest)
    /\ forall x, In x (kv :: rest) ->
         weight_gt (snd (fold_left least rest kv)) (snd x) = false.
Proof.
  induction rest as [|y rest IH]; intros kv; simpl.
  - split; [now left|]. intros x [<-|[]]. apply weight_not_gt_refl.
  - destruct (IH (least kv y)) as [Hin Hmin]. split.
    + destruct Hin as [Heq|Hin]; [|now right; right].
      rewrite <- Heq. unfold least.
      destruct (weight_gt (snd kv) (snd y)); [right; now left|now left].
    + intros x Hx.
      assert (weight_gt (snd (least kv y)) (snd kv) = false
              /\ weight_gt (snd (least kv y)) (snd y) = false) as [Hk Hy].
      { unfold least. destruct (weight_gt (snd kv) (snd y)) eqn:Hgt.
        - split; [now apply weight_gt_asym|apply weight_not_gt_refl].
        - split; [apply weight_not_gt_refl|exact Hgt]. }
      pose proof (Hmin (least kv y) (or_introl eq_refl)) as Hbest.
      destruct Hx as [<-|[<-|Hx]].
      * exact (weight_not_gt_trans _ _ _ Hbest Hk).
      * exact (weight_not_gt_trans _ _ _ Hbest Hy).
      * apply Hmin. now right.
Qed.

Lemma popitem_pops_least : pops_least popitem.
Proof.
  intros O Hne. unfold popitem.
  destruct (map_to_list O) as [|kv rest] eqn:Hl.
  - apply map_to_list_empty_iff in Hl. contradiction.
  - destruct (fold_least rest kv) as [Hin Hmin].
    set (best := fold_left least rest kv) in *.
    exists (fst best), (snd best). split; [reflexivity|]. split.
    + apply elem_of_map_to_list. rewrite Hl. apply list_elem_of_In.
      now destruct best.
    + intros k' p' Hk'. apply elem_of_map_to_list in Hk'. rewrite Hl in Hk'.
      apply list_elem_of_In in Hk'. exact (Hmin (k', p') Hk').
Qed.

(** A planner with the zero heuristic on a free grid of two by two
    cells. *)
Definition square : OccupancyGrid := grid_of 2 2 [].

Definition uninformed : Planner :=
  init OccupancyGrid square neighbor_func 1 (fun _ => 0%Q).

Lemma zero_heuristic_admissible shp n t :
  admissible norm shp n (fun _ => 0%Q) t.
Proof.
  split; [|apply Qle_refl]. intros u q Hq.
  exact (path_cost_nonneg norm shp n norm_positive _ _ _ Hq).
Qed.

(** Two runs of the search: the diagonal of the free square, and a way
    round three obstacles on a grid of four by four cells with the
    straight-line heuristic. *)
Example plan_square :
  observe (plan 20 uninformed (0, 0)%Q (1, 1)%Q)
  = Some (Ok (true, Some [(0, 0); (1, 1)], Some 0)).
Proof. vm_compute. reflexivity. Qed.

Example plan_round_obstacles :
  observe (plan 50 (fresh (grid_of 4 4 [(1, 1); (1, 2); (2, 1)]))
             (0, 0)%Q (3, 3)%Q)
  = Some (Ok (true, Some [(0, 0); (1, 0); (2, 0); (3, 1); (3, 2); (3, 3)],
              Some 0)).
Proof. vm_compute. reflexivity. Qed.

(** A target walled in by obstacles: the search fails. *)
Example plan_walled_in :
  observe (plan 50 (fresh (grid_of 4 4 [(2, 2); (2, 3); (3, 2)]))
             (0, 0)%Q (3, 3)%Q)
  = Some (Ok (false, Some [], None)).
Proof. vm_compute. reflexivity. Qed.

Lemma plan_returns_a_shortest_path_witness :
  exists fuel0, forall fuel, (fuel0 <= fuel)%nat ->
    exists P' p,
      plan fuel uninformed (0, 0)%Q (1, 1)%Q = Some (Ok (true, P'))
      /\ Plan._path _ P' = Some p
      /\ grid_path (2, 2) 3 (0, 0) (1, 1) p
      /\ forall q, grid_path (2, 2) 3 (0, 0) (1, 1) q ->
           (path_cost norm p <= path_cost norm q)%Q.
Proof.
  apply (plan_returns_a_shortest_path OccupancyGrid get_binary_map
           convert_to_grid_coord raytrace OBSTACLE norm popitem
           uninformed 3 (0, 0)%Q (1, 1)%Q).
  - exact norm_positive.
  - reflexivity.
  - reflexivity.
  - intros c _. discriminate.
  - apply raytrace_stays_within.
  - exact popitem_pops_least.
  - apply zero_heuristic_admissible.
  - repeat split; vm_compute; first [reflexivity | discriminate].
  - repeat split; vm_compute; first [reflexivity | discriminate].
Defined.

(** *** The neighbour strategies and stored paths on concrete grids *)

(** A grid of four by four cells with three obstacles. *)
Definition yard : ndarray Z := _map (grid_of 4 4 [(1, 1); (1, 2); (2, 1)]).

Lemma yard_corner : in_bounds (shape yard) (0, 0).
Proof. unfold in_bounds. simpl. lia. Qed.

Lemma popitem_pops_a_key : pops_a_key popitem.
Proof.
  intros O k Hk.
  destruct (decide (O = ∅)) as [->|Hne]; [discriminate Hk|].
  destruct (popitem_pops_least O Hne) as (k' & p & Hk' & Hp & _).
  rewrite Hk in Hk'. injection Hk' as <-. eauto.
Qed.

Lemma raytrace_adjacent : adjacent_rays raytrace.
Proof.
  intros [x0 y0] [x1 y1] Hne Hx Hy. cbn [fst snd] in *.
  assert (x1 - x0 <> 0 \/ y1 - y0 <> 0) as Hd.
  { destruct (Z.eq_dec (x1 - x0) 0) as [Ex|Ex]; [|now left]. right.
    intros Ey. apply Hne. f_equal; lia. }
  assert (exists dx dy, x1 = x0 + dx /\ y1 = y0 + dy
                        /\ In (dx, dy) [(-1, -1); (-1, 0); (-1, 1); (0, -1);
                                        (0, 1); (1, -1); (1, 0); (1, 1)])
    as (dx & dy & -> & -> & Hin).
  { exists (x1 - x0), (y1 - y0). split; [lia|]. split; [lia|].
    assert (x1 - x0 = -1 \/ x1 - x0 = 0 \/ x1 - x0 = 1) as Hcx by lia.
    assert (y1 - y0 = -1 \/ y1 - y0 = 0 \/ y1 - y0 = 1) as Hcy by lia.
    destruct Hcx as [Ex | [Ex | Ex]], Hcy as [Ey | [Ey | Ey]];
      rewrite Ex, Ey;
      try solve [simpl; repeat (first [left; reflexivity | right])].
    lia. }
  unfold raytrace.
  replace (x0 + dx - x0) with dx by lia. replace (y0 + dy - y0) with dy by lia.
  simpl in Hin.
  repeat (destruct Hin as [Hin|Hin];
          [injection Hin as <- <-; simpl; unfold range; simpl;
           rewrite ?Z.add_0_r; reflexivity|]).
  destruct Hin.
Qed.

Lemma get_8_neighbors_adjacent_cells_witness :
  exists infos,
    get_8_neighbors OBSTACLE norm yard (0, 0) = Ok infos
    /\ (length infos <= 8)%nat
    /\ forall v c,
         In {| coord := v; cost := c |} infos
         <-> (in_bounds (shape yard) v /\ v <> (0, 0)
              /\ -1 <= fst v - 0 <= 1 /\ -1 <= snd v - 0 <= 1
              /\ c = if (data yard (0, 0) =? OBSTACLE)
                        || (data yard v =? OBSTACLE)
                     then Inf else Fin (norm (minus v (0, 0)))).
Proof.
  exact (get_8_neighbors_adjacent_cells OBSTACLE norm yard (0, 0) yard_corner).
Defined.

Lemma get_n_grid_neighbors_window_cells_witness :
  exists infos,
    get_n_grid_neighbors raytrace OBSTACLE norm 4 yard (0, 0) = Ok infos
    /\ forall v c,
         In {| coord := v; cost := c |} infos
         <-> (in_bounds (shape yard) v /\ v <> (0, 0)
              /\ - Z.max 1 (4 / 2) <= fst v - 0 <= Z.max 1 (4 / 2)
              /\ - Z.max 1 (4 / 2) <= snd v - 0 <= Z.max 1 (4 / 2)
              /\ c = if existsb (fun k => data yard k =? OBSTACLE)
                          (raytrace 0 0 (fst v) (snd v))
                     then Inf else Fin (norm (minus v (0, 0)))).
Proof.
  exact (get_n_grid_neighbors_window_cells raytrace OBSTACLE norm 4 yard (0, 0)
           (raytrace_stays_within _) yard_corner).
Defined.

Lemma get_n_grid_neighbors_3_is_get_8_neighbors_witness :
  get_n_grid_neighbors raytrace OBSTACLE norm 3 yard (0, 0)
  = get_8_neighbors OBSTACLE norm yard (0, 0).
Proof.
  apply (get_n_grid_neighbors_3_is_get_8_neighbors raytrace OBSTACLE norm
           3 yard (0, 0)).
  - exact raytrace_adjacent.
  - lia.
  - exact yard_corner.
Defined.

Lemma corridor_start :
  in_bounds (shape (get_binary_map corridor)) (0, 0).
Proof. unfold in_bounds. simpl. lia. Qed.

Lemma planned_path_walks_finite_cost_neighbours_witness :
  exists p,
    planned
    = set_path_idx _ (set_path _ (fresh corridor) (Some p)) (Some 0)
    /\ hd_error p = Some (0, 0)
    /\ hd_error (rev p) = Some (0, 1)
    /\ chain (hop _ get_binary_map (fresh corridor)) (0, 0) (0, 1) p.
Proof.
  apply (planned_path_walks_finite_cost_neighbours OccupancyGrid
           get_binary_map convert_to_grid_coord popitem
           5 (fresh corridor) (0, 0)%Q (0, 1)%Q planned).
  - exact popitem_pops_a_key.
  - apply (window_strategy_within OccupancyGrid get_binary_map
             raytrace OBSTACLE norm (fresh corridor) 3 eq_refl).
    apply raytrace_stays_within.
  - exact corridor_start.
  - exact plan_corridor.
Defined.

Lemma planned_path_crosses_no_obstacle_witness :
  exists p,
    Plan._path _ planned = Some p
    /\ chain (clear_step raytrace OBSTACLE (get_binary_map corridor) 3)
         (0, 0) (0, 1) p.
Proof.
  apply (planned_path_crosses_no_obstacle OccupancyGrid get_binary_map
           convert_to_grid_coord raytrace OBSTACLE norm popitem
           5 (fresh corridor) 3 (0, 0)%Q (0, 1)%Q planned).
  - exact popitem_pops_a_key.
  - reflexivity.
  - apply raytrace_stays_within.
  - exact corridor_start.
  - exact plan_corridor.
Defined.

(** The planner with the strategy [get_8_neighbors]. *)
Definition fresh_8 (m : OccupancyGrid) : Planner :=
  init OccupancyGrid m (get_8_neighbors OBSTACLE norm) 1 heuristic.

Definition planned_8 : Planner :=
  set_path_idx OccupancyGrid
    (set_path OccupancyGrid (fresh_8 corridor) (Some [(0, 0); (0, 1)]))
    (Some 0).

Lemma plan_corridor_8 :
  plan 5 (fresh_8 corridor) (0, 0)%Q (0, 1)%Q = Some (Ok (true, planned_8)).
Proof. reflexivity. Qed.

Lemma planned_path_avoids_obstacles_witness :
  exists p,
    Plan._path _ planned_8 = Some p
    /\ chain (free_step OBSTACLE (get_binary_map corridor)) (0, 0) (0, 1) p
    /\ ((0, 0) <> (0, 1) ->
        List.Forall (fun k => data (get_binary_map corridor) k <> OBSTACLE) p).
Proof.
  apply (planned_path_avoids_obstacles OccupancyGrid get_binary_map
           convert_to_grid_coord OBSTACLE norm popitem
           5 (fresh_8 corridor) (0, 0)%Q (0, 1)%Q planned_8).
  - exact popitem_pops_a_key.
  - reflexivity.
  - exact corridor_start.
  - exact plan_corridor_8.
Defined.

Lemma plan_fails_only_when_unreachable_witness :
  plan 5 replanning (0, 0)%Q (0, 1)%Q
  = Some (Ok (false, set_path _ replanning (Some [])))
  /\ ~ exists p, chain (hop _ get_binary_map replanning) (0, 0) (0, 1) p.
Proof.
  split; [exact plan_blocked|]. intros [p Hp].
  apply (plan_fails_only_when_unreachable OccupancyGrid get_binary_map
           convert_to_grid_coord popitem 5 replanning (0, 0)%Q (0, 1)%Q
           (set_path _ replanning (Some [])) popitem_pops_a_key) with p.
  - apply (window_strategy_within OccupancyGrid get_binary_map
             raytrace OBSTACLE norm replanning 3 eq_refl).
    apply raytrace_stays_within.
  - repeat split; vm_compute; first [reflexivity | discriminate].
  - exact plan_blocked.
  - exact Hp.
Defined.

(** A planner that holds a path of four cells, with the cursor at 0. *)
Definition route : Planner :=
  set_path_idx OccupancyGrid
    (set_path OccupancyGrid (fresh (grid_of 4 4 []))
       (Some [(0, 0); (1, 1); (2, 2); (3, 3)]))
    (Some 0).

Lemma stops_are_taken_in_order_witness :
  Plan.take_stops _ convert_to_world_coord 2 route
  = Ok ([(1, 1); (2, 2)]%Q, set_path_idx _ route (Some 2))
  /\ next_stop (set_path_idx _ route (Some 2))
     = Ok ((3, 3)%Q, set_path_idx _ route (Some 2)).
Proof.
  apply (stops_are_taken_in_order OccupancyGrid convert_to_world_coord
           route [(0, 0); (1, 1); (2, 2); (3, 3)] 2).
  - reflexivity.
  - reflexivity.
  - simpl. lia.
  - simpl. lia.
Defined.

Lemma failed_plan_leaves_no_stop_witness :
  next_stop (set_path _ replanning (Some [])) = Raise IndexError
  /\ take_next_stop (set_path _ replanning (Some [])) = Raise IndexError
  /\ (-1 <= 0 ->
      path_valid (set_path _ replanning (Some [])) (0, 0)%Q = Ok false).
Proof.
  exact (failed_plan_leaves_no_stop OccupancyGrid _map_array get_binary_map
           convert_to_grid_coord convert_to_world_coord raytrace popitem
           5 replanning (0, 0)%Q (0, 1)%Q (0, 0)%Q
           (set_path _ replanning (Some [])) plan_blocked).
Defined.

Lemma path_valid_raises_after_single_stop_witness :
  exists P1,
    next_stop single = Ok ((0, 0)%Q, P1)
    /\ P1 = set_path_idx _ single (Some (-1))
    /\ path_valid P1 (0, 0)%Q = Raise IndexError.
Proof.
  exact (path_valid_raises_after_single_stop OccupancyGrid _map_array
           convert_to_grid_coord convert_to_world_coord raytrace
           single (0, 0) (0, 0)%Q eq_refl).
Defined.

End Demo.

(** ** Grid.py: the cell grid with an agent and a target *)

Module GridWorld.
Import Py Plan.

(** [GridStatus] and [ScanStatus] are [IntEnum]s: their members are the
    integers below. *)
Definition EMPTY : Z := 0.
Definition WALL : Z := 1.
Definition TARGET : Z := 2.
Definition AGENT : Z := 3.
Definition BOTH : Z := 4.
Definition PREV_AGENT : Z := 5.

Definition SCAN_OUT_OF_BOUNDS : Z := -2.
Definition SCAN_OBSTRUCTED : Z := -1.
Definition SCAN_EMPTY : Z := EMPTY.
Definition SCAN_WALL : Z := WALL.
Definition SCAN_TARGET : Z := TARGET.

(** The members of [Direction]. *)
Inductive Direction := UP | DOWN | LEFT | RIGHT.

(** The offset [agent_move] adds for each member. *)
Definition delta (dir : Direction) : cell :=
  match dir with
  | RIGHT => (0, 1)
  | DOWN => (1, 0)
  | LEFT => (0, -1)
  | UP => (-1, 0)
  end.

Definition plus (a b : cell) : cell := (fst a + fst b, snd a + snd b).

Record Grid := {
  _grid : ndarray Z;
  agent_pos : option cell;
  target_pos : option cell
}.

(** [Grid(grid_size)] *)
Definition init (grid_size : Z * Z) : Grid :=
  {| _grid := full grid_size 0; agent_pos := None; target_pos := None |}.

Definition in_bounds (G : Grid) (coord : cell) : bool :=
  (fst coord >=? 0) && (fst coord <? fst (shape (_grid G)))
  && (snd coord >=? 0) && (snd coord <? snd (shape (_grid G))).

Definition not_wall (G : Grid) (coord : cell) : result bool :=
  bind (aget (_grid G) coord) (fun v => Ok (negb (v =? WALL))).

(** [self.in_bounds(coord) and self.not_wall(coord)]: the second test is
    made only when the first holds. *)
Definition free_cell (G : Grid) (coord : cell) : result bool :=
  if in_bounds G coord then not_wall G coord else Ok false.

(** [self._grid[pos[0], pos[1]] = v] under [if pos is not None]. *)
Definition mark (g : ndarray Z) (pos : option cell) (v : Z)
  : result (ndarray Z) :=
  match pos with
  | Some k => aset g k v
  | None => Ok g
  end.

Definition place_agent (G : Grid) (row col : Z) : result (bool * Grid) :=
  bind (free_cell G (row, col)) (fun free =>
  if free then
    bind (mark (_grid G) (agent_pos G) PREV_AGENT) (fun g1 =>
    bind (aget g1 (row, col)) (fun v =>
    bind (aset g1 (row, col) (if v =? TARGET then BOTH else AGENT)) (fun g2 =>
    bind (mark g2 (target_pos G) TARGET) (fun g3 =>
    Ok (true, {| _grid := g3;
                 agent_pos := Some (row, col);
                 target_pos := target_pos G |})))))
  else Ok (false, G)).

Definition place_target (G : Grid) (row col : Z) : result (bool * Grid) :=
  bind (free_cell G (row, col)) (fun free =>
  if free then
    bind (mark (_grid G) (target_pos G) EMPTY) (fun g1 =>
    bind (aget g1 (row, col)) (fun v =>
    bind (aset g1 (row, col) (if v =? AGENT then BOTH else TARGET)) (fun g2 =>
    Ok (true, {| _grid := g2;
                 agent_pos := agent_pos G;
                 target_pos := Some (row, col) |}))))
  else Ok (false, G)).

(** [agent_move(dir)] for a member of [Direction]; adding an offset to an
    unset position is a [TypeError]. *)
Definition agent_move (G : Grid) (dir : Direction) : result (bool * Grid) :=
  match agent_pos G with
  | None => Raise TypeError
  | Some a =>
      let coord := plus a (delta dir) in
      bind (free_cell G coord) (fun free =>
      if free then place_agent G (fst coord) (snd coord)
      else Ok (false, G))
  end.

(** The [for offset in area] loop of [scan]. *)
Fixpoint scan_loop (G : Grid) (area : list cell) (acc : list (cell * Z))
  : result (list (cell * Z)) :=
  match area with
  | [] => Ok acc
  | offset :: rest =>
      match agent_pos G with
      | None => Raise TypeError
      | Some a =>
          let coord := plus a offset in
          if negb (in_bounds G coord) then
            scan_loop G rest (acc ++ [(offset, SCAN_OUT_OF_BOUNDS)])
          else
            bind (aget (_grid G) coord) (fun v =>
            if (v =? EMPTY) || (v =? AGENT) || (v =? PREV_AGENT) then
              scan_loop G rest (acc ++ [(offset, SCAN_EMPTY)])
            else if v =? WALL then
              scan_loop G rest (acc ++ [(offset, SCAN_WALL)])
            else if (v =? TARGET) || (v =? BOTH) then
              scan_loop G rest (acc ++ [(offset, SCAN_TARGET)])
            else scan_loop G rest acc)
      end
  end.

Definition scan (G : Grid) (area : list cell) : result (list (cell * Z)) :=
  scan_loop G area [].

Definition relative_target_pos (G : Grid) : result cell :=
  match target_pos G, agent_pos G with
  | Some t, Some a => Ok (minus t a)
  | _, _ => Raise TypeError
  end.

(** *** What the grid keeps *)

(** The array after [a[k] = v] for a cell [k] of the array. *)
Definition write (a : ndarray Z) (k : cell) (v : Z) : ndarray Z :=
  {| shape := shape a;
     data := fun x => if decide (x = k) then v else data a x |}.

Definition write_opt (a : ndarray Z) (pos : option cell) (v : Z) : ndarray Z :=
  match pos with
  | Some k => write a k v
  | None => a
  end.

Definition on_grid (G : Grid) (c : cell) : Prop :=
  Plan.in_bounds (shape (_grid G)) c.

Definition marked (G : Grid) (c : cell) : Prop :=
  data (_grid G) c = TARGET \/ data (_grid G) c = BOTH.

(** Agent and target stand on cells of the grid that are no walls, the
    cell of the target carries the target mark, and no other cell does. *)
Record consistent (G : Grid) : Prop := {
  agent_on_grid : forall a, agent_pos G = Some a ->
    on_grid G a /\ data (_grid G) a <> WALL;
  target_on_grid : forall t, target_pos G = Some t ->
    on_grid G t /\ marked G t;
  only_target_marked : forall c, on_grid G c -> marked G c ->
    target_pos G = Some c
}.

(** The cells of the grid hold members of [GridStatus]. *)
Definition statuses (G : Grid) : Prop :=
  forall c, on_grid G c -> 0 <= data (_grid G) c <= 5.

(** The walls of two grids are the same cells. *)
Definition same_walls (G G' : Grid) : Prop :=
  shape (_grid G') = shape (_grid G)
  /\ forall c, on_grid G c ->
       (data (_grid G') c = WALL <-> data (_grid G) c = WALL).

Lemma in_bounds_on_grid G c : in_bounds G c = true <-> on_grid G c.
Proof.
  unfold in_bounds, on_grid, Plan.in_bounds.
  rewrite !andb_true_iff, !Z.geb_le, !Z.ltb_lt. lia.
Qed.

Lemma free_cell_spec G c :
  free_cell G c
  = Ok (if in_bounds G c then negb (data (_grid G) c =? WALL) else false).
Proof.
  unfold free_cell, not_wall. destruct (in_bounds G c) eqn:Hb; [|reflexivity].
  apply in_bounds_on_grid in Hb. now rewrite aget_in_bounds by exact Hb.
Qed.

Lemma free_cell_true G c :
  free_cell G c = Ok true <-> on_grid G c /\ data (_grid G) c <> WALL.
Proof.
  rewrite free_cell_spec. destruct (in_bounds G c) eqn:Hb.
  - apply in_bounds_on_grid in Hb.
    destruct (Z.eqb_spec (data (_grid G) c) WALL) as [E|E]; simpl.
    + split; [discriminate|]. intros [_ H]. contradiction.
    + split; auto.
  - split; [discriminate|]. intros [H _]. apply in_bounds_on_grid in H.
    congruence.
Qed.

Lemma mark_on_grid g pos v :
  (forall k, pos = Some k -> Plan.in_bounds (shape g) k) ->
  mark g pos v = Ok (write_opt g pos v).
Proof.
  intros H. destruct pos as [k|]; [|reflexivity]. simpl.
  now rewrite aset_in_bounds by (now apply H).
Qed.

Lemma place_agent_free G row col :
  consistent G -> on_grid G (row, col) -> data (_grid G) (row, col) <> WALL ->
  let g1 := write_opt (_grid G) (agent_pos G) PREV_AGENT in
  let g2 := write g1 (row, col)
              (if data g1 (row, col) =? TARGET then BOTH else AGENT) in
  place_agent G row col
  = Ok (true, {| _grid := write_opt g2 (target_pos G) TARGET;
                 agent_pos := Some (row, col);
                 target_pos := target_pos G |}).
Proof.
  intros HG Hb Hw g1 g2. unfold place_agent.
  rewrite (proj2 (free_cell_true G (row, col)) (conj Hb Hw)). simpl.
  rewrite mark_on_grid by (intros k Hk; apply (agent_on_grid G HG k Hk)).
  simpl. fold g1.
  assert (shape g1 = shape (_grid G)) as Hs1
    by (unfold g1; destruct (agent_pos G); reflexivity).
  rewrite aget_in_bounds by (rewrite Hs1; exact Hb). simpl.
  rewrite aset_in_bounds by (rewrite Hs1; exact Hb). simpl.
  fold (write g1 (row, col)
          (if data g1 (row, col) =? TARGET then BOTH else AGENT)).
  fold g2.
  rewrite mark_on_grid; [reflexivity|].
  intros k Hk. unfold g2. simpl. rewrite Hs1.
  apply (target_on_grid G HG k Hk).
Qed.

Lemma place_target_free G row col :
  consistent G -> on_grid G (row, col) -> data (_grid G) (row, col) <> WALL ->
  let g1 := write_opt (_grid G) (target_pos G) EMPTY in
  place_target G row col
  = Ok (true, {| _grid := write g1 (row, col)
                            (if data g1 (row, col) =? AGENT
                             then BOTH else TARGET);
                 agent_pos := agent_pos G;
                 target_pos := Some (row, col) |}).
Proof.
  intros HG Hb Hw g1. unfold place_target.
  rewrite (proj2 (free_cell_true G (row, col)) (conj Hb Hw)). simpl.
  rewrite mark_on_grid by (intros k Hk; apply (target_on_grid G HG k Hk)).
  simpl. fold g1.
  assert (shape g1 = shape (_grid G)) as Hs1
    by (unfold g1; destruct (target_pos G); reflexivity).
  rewrite aget_in_bounds by (rewrite Hs1; exact Hb). simpl.
  rewrite aset_in_bounds by (rewrite Hs1; exact Hb). reflexivity.
Qed.

Lemma place_agent_refused G row col :
  ~ (on_grid G (row, col) /\ data (_grid G) (row, col) <> WALL) ->
  place_agent G row col = Ok (false, G).
Proof.
  intros Hn. unfold place_agent. rewrite free_cell_spec.
  destruct (in_bounds G (row, col)) eqn:Hb; [|reflexivity].
  apply in_bounds_on_grid in Hb.
  destruct (Z.eqb_spec (data (_grid G) (row, col)) WALL); [reflexivity|].
  exfalso. apply Hn. split; assumption.
Qed.

Lemma place_target_refused G row col :
  ~ (on_grid G (row, col) /\ data (_grid G) (row, col) <> WALL) ->
  place_target G row col = Ok (false, G).
Proof.
  intros Hn. unfold place_target. rewrite free_cell_spec.
  destruct (in_bounds G (row, col)) eqn:Hb; [|reflexivity].
  apply in_bounds_on_grid in Hb.
  destruct (Z.eqb_spec (data (_grid G) (row, col)) WALL); [reflexivity|].
  exfalso. apply Hn. split; assumption.
Qed.

Lemma data_write a k v x :
  data (write a k v) x = if decide (x = k) then v else data a x.
Proof. reflexivity. Qed.

Lemma data_write_opt a pos v x :
  data (write_opt a pos v) x
  = if decide (pos = Some x) then v else data a x.
Proof.
  destruct pos as [k|]; simpl.
  - destruct (decide (x = k)), (decide (Some k = Some x)); congruence.
  - destruct (decide (None = Some x)); [discriminate|reflexivity].
Qed.

Lemma shape_write_opt a pos v : shape (write_opt a pos v) = shape a.
Proof. destruct pos; reflexivity. Qed.

(** The grid after a [place_agent] that was not refused. *)
Definition with_agent (G : Grid) (c : cell) : Grid :=
  let g1 := write_opt (_grid G) (agent_pos G) PREV_AGENT in
  let g2 := write g1 c (if data g1 c =? TARGET then BOTH else AGENT) in
  {| _grid := write_opt g2 (target_pos G) TARGET;
     agent_pos := Some c;
     target_pos := target_pos G |}.

(** The grid after a [place_target] that was not refused. *)
Definition with_target (G : Grid) (c : cell) : Grid :=
  let g1 := write_opt (_grid G) (target_pos G) EMPTY in
  {| _grid := write g1 c (if data g1 c =? AGENT then BOTH else TARGET);
     agent_pos := agent_pos G;
     target_pos := Some c |}.

Lemma data_with_agent G c x :
  data (_grid (with_agent G c)) x
  = if decide (target_pos G = Some x) then TARGET
    else if decide (x = c) then
           (if decide (agent_pos G = Some c) then AGENT
            else if data (_grid G) c =? TARGET then BOTH else AGENT)
    else if decide (agent_pos G = Some x) then PREV_AGENT
    else data (_grid G) x.
Proof.
  unfold with_agent. cbn [_grid]. rewrite data_write_opt, data_write.
  rewrite !data_write_opt.
  destruct (decide (target_pos G = Some x)); [reflexivity|].
  destruct (decide (x = c)); [|reflexivity].
  destruct (decide (agent_pos G = Some c)); reflexivity.
Qed.

Lemma data_with_target G c x :
  data (_grid (with_target G c)) x
  = if decide (x = c) then
      (if decide (target_pos G = Some c) then TARGET
       else if data (_grid G) c =? AGENT then BOTH else TARGET)
    else if decide (target_pos G = Some x) then EMPTY
    else data (_grid G) x.
Proof.
  unfold with_target. cbn [_grid]. rewrite data_write.
  rewrite !data_write_opt.
  destruct (decide (x = c)); [|reflexivity].
  destruct (decide (target_pos G = Some c)); reflexivity.
Qed.

Lemma shape_with_agent G c :
  shape (_grid (with_agent G c)) = shape (_grid G).
Proof.
  unfold with_agent. cbn [_grid]. rewrite shape_write_opt. simpl.
  apply shape_write_opt.
Qed.

Lemma shape_with_target G c :
  shape (_grid (with_target G c)) = shape (_grid G).
Proof. unfold with_target. simpl. apply shape_write_opt. Qed.

Ltac by_status :=
  unfold marked, EMPTY, WALL, TARGET, AGENT, BOTH, PREV_AGENT in *;
  repeat match goal with
         | |- context [decide ?P] => destruct (decide P)
         | |- context [?a =? ?b] => destruct (Z.eqb_spec a b)
         | H : context [decide ?P] |- _ => destruct (decide P)
         | H : context [?a =? ?b] |- _ => destruct (Z.eqb_spec a b)
         end;
  try congruence; try lia.

Lemma with_agent_consistent G c :
  consistent G -> on_grid G c -> data (_grid G) c <> WALL ->
  consistent (with_agent G c) /\ same_walls G (with_agent G c)
  /\ (statuses G -> statuses (with_agent G c)).
Proof.
  intros [Ha Ht Hm] Hc Hw. split; [constructor|split; [split|]].
  - intros a Heq. injection Heq as <-. unfold on_grid.
    rewrite shape_with_agent, data_with_agent. split; [exact Hc|]. by_status.
  - intros t Heq. change (target_pos G = Some t) in Heq.
    destruct (Ht t Heq) as [Hb _]. unfold on_grid, marked.
    rewrite shape_with_agent, data_with_agent. split; [exact Hb|].
    left. by_status.
  - intros x Hx Hmark. change (target_pos G = Some x).
    unfold on_grid in Hx. rewrite shape_with_agent in Hx.
    unfold marked in Hmark. rewrite data_with_agent in Hmark.
    destruct (decide (target_pos G = Some x)) as [E|E]; [exact E|].
    exfalso. destruct (decide (x = c)) as [->|Hxc].
    + destruct (decide (agent_pos G = Some c)); [by_status|].
      destruct (Z.eqb_spec (data (_grid G) c) TARGET) as [E1|E1]; [|by_status].
      apply E. apply Hm; [exact Hc|]. now left.
    + destruct (decide (agent_pos G = Some x)); [by_status|].
      apply E. now apply Hm.
  - apply shape_with_agent.
  - intros x _. rewrite data_with_agent.
    destruct (decide (target_pos G = Some x)) as [E|E].
    + destruct (Ht x E) as [_ Hmark]. by_status.
    + destruct (decide (x = c)) as [->|Hxc]; [by_status|].
      destruct (decide (agent_pos G = Some x)) as [E1|E1]; [|reflexivity].
      destruct (Ha x E1) as [_ Hnw]. by_status.
  - intros Hs x Hx. unfold on_grid in Hx. rewrite shape_with_agent in Hx.
    rewrite data_with_agent. specialize (Hs x Hx). by_status.
Qed.

Lemma with_target_consistent G c :
  consistent G -> on_grid G c -> data (_grid G) c <> WALL ->
  consistent (with_target G c) /\ same_walls G (with_target G c)
  /\ (statuses G -> statuses (with_target G c)).
Proof.
  intros [Ha Ht Hm] Hc Hw. split; [constructor|split; [split|]].
  - intros a Heq. change (agent_pos G = Some a) in Heq.
    destruct (Ha a Heq) as [Hb Hnw]. unfold on_grid.
    rewrite shape_with_target, data_with_target. split; [exact Hb|].
    by_status.
  - intros t Heq. injection Heq as <-. unfold on_grid, marked.
    rewrite shape_with_target, data_with_target. split; [exact Hc|].
    by_status.
  - intros x Hx Hmark. change (Some c = Some x).
    unfold on_grid in Hx. rewrite shape_with_target in Hx.
    unfold marked in Hmark. rewrite data_with_target in Hmark.
    destruct (decide (x = c)) as [->|Hxc]; [reflexivity|].
    exfalso. destruct (decide (target_pos G = Some x)) as [E|E]; [by_status|].
    apply E. now apply Hm.
  - apply shape_with_target.
  - intros x _. rewrite data_with_target.
    destruct (decide (x = c)) as [->|Hxc]; [by_status|].
    destruct (decide (target_pos G = Some x)) as [E|E]; [|reflexivity].
    destruct (Ht x E) as [_ Hmark]. by_status.
  - intros Hs x Hx. unfold on_grid in Hx. rewrite shape_with_target in Hx.
    rewrite data_with_target. specialize (Hs x Hx). by_status.
Qed.

Lemma place_agent_cases G row col :
  consistent G ->
  (on_grid G (row, col) /\ data (_grid G) (row, col) <> WALL
   /\ place_agent G row col = Ok (true, with_agent G (row, col)))
  \/ (~ (on_grid G (row, col) /\ data (_grid G) (row, col) <> WALL)
      /\ place_agent G row col = Ok (false, G)).
Proof.
  intros HG.
  destruct (free_cell G (row, col)) as [[|]|e] eqn:Hf.
  - apply free_cell_true in Hf. destruct Hf as [Hb Hw]. left.
    split; [exact Hb|]. split; [exact Hw|].
    exact (place_agent_free G row col HG Hb Hw).
  - right. assert (~ (on_grid G (row, col)
                      /\ data (_grid G) (row, col) <> WALL)) as Hn.
    { intros H. apply free_cell_true in H. congruence. }
    split; [exact Hn|]. now apply place_agent_refused.
  - rewrite free_cell_spec in Hf. discriminate.
Qed.

Lemma place_target_cases G row col :
  consistent G ->
  (on_grid G (row, col) /\ data (_grid G) (row, col) <> WALL
   /\ place_target G row col = Ok (true, with_target G (row, col)))
  \/ (~ (on_grid G (row, col) /\ data (_grid G) (row, col) <> WALL)
      /\ place_target G row col = Ok (false, G)).
Proof.
  intros HG.
  destruct (free_cell G (row, col)) as [[|]|e] eqn:Hf.
  - apply free_cell_true in Hf. destruct Hf as [Hb Hw]. left.
    split; [exact Hb|]. split; [exact Hw|].
    exact (place_target_free G row col HG Hb Hw).
  - right. assert (~ (on_grid G (row, col)
                      /\ data (_grid G) (row, col) <> WALL)) as Hn.
    { intros H. apply free_cell_true in H. congruence. }
    split; [exact Hn|]. now apply place_target_refused.
  - rewrite free_cell_spec in Hf. discriminate.
Qed.

Lemma agent_move_cases G a dir :
  consistent G -> agent_pos G = Some a ->
  (on_grid G (plus a (delta dir))
   /\ data (_grid G) (plus a (delta dir)) <> WALL
   /\ agent_move G dir = Ok (true, with_agent G (plus a (delta dir))))
  \/ (~ (on_grid G (plus a (delta dir))
         /\ data (_grid G) (plus a (delta dir)) <> WALL)
      /\ agent_move G dir = Ok (false, G)).
Proof.
  intros HG Ha. unfold agent_move. rewrite Ha.
  set (c := plus a (delta dir)).
  destruct (place_agent_cases G (fst c) (snd c) HG) as [(Hb & Hw & Hp)|[Hn Hp]];
    replace (fst c, snd c) with c in * by (now destruct c).
  - left. split; [exact Hb|]. split; [exact Hw|].
    rewrite (proj2 (free_cell_true G c) (conj Hb Hw)). simpl. exact Hp.
  - right. split; [exact Hn|]. rewrite free_cell_spec.
    destruct (in_bounds G c) eqn:Hin; [|reflexivity].
    apply in_bounds_on_grid in Hin.
    destruct (Z.eqb_spec (data (_grid G) c) WALL); [reflexivity|].
    exfalso. apply Hn. split; assumption.
Qed.

Lemma same_walls_refl G : same_walls G G.
Proof. split; [reflexivity|]. intros c _. reflexivity. Qed.

(** X16.  On a consistent grid [place_agent] never raises.  It returns
    [True] exactly when the cell is on the grid and is no wall, and then
    the agent stands on that cell and the target is where it was; it
    returns [False] otherwise, and then nothing has changed.  Either way
    the grid stays consistent and its walls are the same cells. *)
Theorem place_agent_keeps_the_grid_consistent (G : Grid) (row col : Z) :
  consistent G ->
  exists placed G',
    place_agent G row col = Ok (placed, G')
    /\ (placed = true
        <-> on_grid G (row, col) /\ data (_grid G) (row, col) <> WALL)
    /\ (placed = true ->
        agent_pos G' = Some (row, col) /\ target_pos G' = target_pos G)
    /\ (placed = false -> G' = G)
    /\ consistent G' /\ same_walls G G'.
Proof.
  intros HG.
  destruct (place_agent_cases G row col HG) as [(Hb & Hw & Hp)|[Hn Hp]].
  - exists true, (with_agent G (row, col)).
    destruct (with_agent_consistent G (row, col) HG Hb Hw) as (Hc & Hs & _).
    split; [exact Hp|]. split; [tauto|]. split; [auto|].
    split; [discriminate|]. split; assumption.
  - exists false, G. split; [exact Hp|]. split.
    { split; [discriminate|]. intros H. contradiction. }
    split; [discriminate|]. split; [reflexivity|].
    split; [exact HG|apply same_walls_refl].
Qed.

(** X17.  On a consistent grid [place_target] never raises.  It returns
    [True] exactly when the cell is on the grid and is no wall, and then
    the target is on that cell, the cell of the earlier target no longer
    carries the mark and the agent is where it was; it returns [False]
    otherwise, and then nothing has changed.  Either way the grid stays
    consistent and its walls are the same cells. *)
Theorem place_target_keeps_the_grid_consistent (G : Grid) (row col : Z) :
  consistent G ->
  exists placed G',
    place_target G row col = Ok (placed, G')
    /\ (placed = true
        <-> on_grid G (row, col) /\ data (_grid G) (row, col) <> WALL)
    /\ (placed = true ->
        target_pos G' = Some (row, col) /\ agent_pos G' = agent_pos G
        /\ forall t, target_pos G = Some t -> t <> (row, col) ->
             data (_grid G') t = EMPTY)
    /\ (placed = false -> G' = G)
    /\ consistent G' /\ same_walls G G'.
Proof.
  intros HG.
  destruct (place_target_cases G row col HG) as [(Hb & Hw & Hp)|[Hn Hp]].
  - exists true, (with_target G (row, col)).
    destruct (with_target_consistent G (row, col) HG Hb Hw) as (Hc & Hs & _).
    split; [exact Hp|]. split; [tauto|]. split.
    { intros _. split; [reflexivity|]. split; [reflexivity|].
      intros t Ht Hne. rewrite data_with_target.
      destruct (decide (t = (row, col))); [contradiction|].
      destruct (decide (target_pos G = Some t)); [reflexivity|contradiction]. }
    split; [discriminate|]. split; assumption.
  - exists false, G. split; [exact Hp|]. split.
    { split; [discriminate|]. intros H. contradiction. }
    split; [discriminate|]. split; [reflexivity|].
    split; [exact HG|apply same_walls_refl].
Qed.

Definition opposite (dir : Direction) : Direction :=
  match dir with
  | UP => DOWN
  | DOWN => UP
  | LEFT => RIGHT
  | RIGHT => LEFT
  end.

Lemma plus_delta_opposite a dir :
  plus (plus a (delta dir)) (delta (opposite dir)) = a.
Proof.
  destruct a as [x y], dir; unfold plus; simpl; f_equal; lia.
Qed.

(** X18.  On a consistent grid with the agent placed, [agent_move] never
    raises.  It returns [True] exactly when the adjacent cell in the given
    direction is on the grid and is no wall, and then the agent stands on
    that cell, and a move in the opposite direction succeeds and brings it
    back; it returns [False] otherwise, and then nothing has changed.
    Either way the grid stays consistent and its walls are the same
    cells. *)
Theorem agent_move_one_cell_and_back (G : Grid) (a : cell) (dir : Direction) :
  consistent G -> agent_pos G = Some a ->
  exists moved G',
    agent_move G dir = Ok (moved, G')
    /\ (moved = true
        <-> on_grid G (plus a (delta dir))
            /\ data (_grid G) (plus a (delta dir)) <> WALL)
    /\ (moved = true ->
        agent_pos G' = Some (plus a (delta dir))
        /\ exists G'', agent_move G' (opposite dir) = Ok (true, G'')
                       /\ agent_pos G'' = Some a)
    /\ (moved = false -> G' = G)
    /\ consistent G' /\ same_walls G G'.
Proof.
  intros HG Ha.
  destruct (agent_move_cases G a dir HG Ha) as [(Hb & Hw & Hm)|[Hn Hm]].
  - set (c := plus a (delta dir)) in *.
    exists true, (with_agent G c).
    destruct (with_agent_consistent G c HG Hb Hw) as (Hc & Hs & _).
    split; [exact Hm|]. split; [tauto|]. split.
    { intros _. split; [reflexivity|].
      destruct (agent_on_grid G HG a Ha) as [Hab Haw].
      assert (plus c (delta (opposite dir)) = a) as Hba
        by apply plus_delta_opposite.
      destruct (agent_move_cases (with_agent G c) c (opposite dir) Hc eq_refl)
        as [(_ & _ & Hback)|[Hn _]].
      - rewrite Hba in Hback.
        eexists. split; [exact Hback|reflexivity].
      - exfalso. apply Hn. rewrite Hba.
        split.
        + unfold on_grid. rewrite shape_with_agent. exact Hab.
        + intros E. apply Haw. now apply (proj2 Hs a Hab). }
    split; [discriminate|]. split; assumption.
  - exists false, G. split; [exact Hm|]. split.
    { split; [discriminate|]. intros H. contradiction. }
    split; [discriminate|]. split; [reflexivity|].
    split; [exact HG|apply same_walls_refl].
Qed.

(** What [scan] reports for one offset from the agent at [a]; nothing when
    the cell holds no member of [GridStatus]. *)
Definition report (G : Grid) (a offset : cell) : list (cell * Z) :=
  let v := data (_grid G) (plus a offset) in
  if negb (in_bounds G (plus a offset)) then [(offset, SCAN_OUT_OF_BOUNDS)]
  else if (v =? EMPTY) || (v =? AGENT) || (v =? PREV_AGENT)
       then [(offset, SCAN_EMPTY)]
  else if v =? WALL then [(offset, SCAN_WALL)]
  else if (v =? TARGET) || (v =? BOTH) then [(offset, SCAN_TARGET)]
  else [].

Lemma scan_loop_reports G a area acc :
  agent_pos G = Some a ->
  scan_loop G area acc = Ok (acc ++ flat_map (report G a) area).
Proof.
  intros Ha. revert acc. induction area as [|o rest IH]; intros acc; simpl.
  - now rewrite app_nil_r.
  - rewrite Ha. unfold report at 1.
    destruct (in_bounds G (plus a o)) eqn:Hb; simpl.
    + apply in_bounds_on_grid in Hb. rewrite aget_in_bounds by exact Hb.
      simpl.
      destruct ((data (_grid G) (plus a o) =? EMPTY)
                || (data (_grid G) (plus a o) =? AGENT)
                || (data (_grid G) (plus a o) =? PREV_AGENT));
        [now rewrite IH, <- app_assoc|].
      destruct (data (_grid G) (plus a o) =? WALL);
        [now rewrite IH, <- app_assoc|].
      destruct ((data (_grid G) (plus a o) =? TARGET)
                || (data (_grid G) (plus a o) =? BOTH));
        [now rewrite IH, <- app_assoc|].
      now rewrite IH.
    + now rewrite IH, <- app_assoc.
Qed.

Lemma in_report G a o o' st :
  In (o', st) (report G a o) ->
  o' = o
  /\ (st = SCAN_OUT_OF_BOUNDS /\ ~ on_grid G (plus a o)
      \/ on_grid G (plus a o)
         /\ (st = SCAN_EMPTY
             /\ (data (_grid G) (plus a o) = EMPTY
                 \/ data (_grid G) (plus a o) = AGENT
                 \/ data (_grid G) (plus a o) = PREV_AGENT)
             \/ st = SCAN_WALL /\ data (_grid G) (plus a o) = WALL
             \/ st = SCAN_TARGET /\ marked G (plus a o))).
Proof.
  unfold report, marked.
  destruct (in_bounds G (plus a o)) eqn:Hb; simpl.
  - apply in_bounds_on_grid in Hb.
    destruct (Z.eqb_spec (data (_grid G) (plus a o)) EMPTY) as [E0|E0]; simpl.
    { intros [H|[]]. injection H as <- <-. auto 10. }
    destruct (Z.eqb_spec (data (_grid G) (plus a o)) AGENT) as [E1|E1]; simpl.
    { intros [H|[]]. injection H as <- <-. auto 10. }
    destruct (Z.eqb_spec (data (_grid G) (plus a o)) PREV_AGENT) as [E2|E2];
      simpl.
    { intros [H|[]]. injection H as <- <-. auto 10. }
    destruct (Z.eqb_spec (data (_grid G) (plus a o)) WALL) as [E3|E3]; simpl.
    { intros [H|[]]. injection H as <- <-. auto 10. }
    destruct (Z.eqb_spec (data (_grid G) (plus a o)) TARGET) as [E4|E4]; simpl.
    { intros [H|[]]. injection H as <- <-. auto 10. }
    destruct (Z.eqb_spec (data (_grid G) (plus a o)) BOTH) as [E5|E5]; simpl.
    { intros [H|[]]. injection H as <- <-. auto 10. }
    intros [].
  - intros [H|[]]. injection H as <- <-. split; [reflexivity|]. left.
    split; [reflexivity|]. intros H. apply in_bounds_on_grid in H. congruence.
Qed.

(** X19.  With the agent placed on a grid whose cells hold members of
    [GridStatus], [scan] returns one entry per offset, in the order of
    the offsets.  The status of an entry is [OUT_OF_BOUNDS] exactly when
    the cell at that offset from the agent is off the grid, [WALL] exactly
    when it is a wall of the grid, [TARGET] exactly when it carries the
    target mark, and [EMPTY] otherwise, also for the cell of the agent
    itself. *)
Theorem scan_reports_every_offset (G : Grid) (a : cell) (area : list cell) :
  agent_pos G = Some a -> statuses G ->
  exists res,
    scan G area = Ok res
    /\ map fst res = area
    /\ forall o st, In (o, st) res ->
         let c := plus a o in
         (st = SCAN_OUT_OF_BOUNDS \/ st = SCAN_EMPTY \/ st = SCAN_WALL
          \/ st = SCAN_TARGET)
         /\ (st = SCAN_OUT_OF_BOUNDS <-> ~ on_grid G c)
         /\ (st = SCAN_WALL <-> on_grid G c /\ data (_grid G) c = WALL)
         /\ (st = SCAN_TARGET <-> on_grid G c /\ marked G c).
Proof.
  intros Ha Hs. exists (flat_map (report G a) area).
  split; [|split].
  - unfold scan. now rewrite (scan_loop_reports G a area [] Ha).
  - induction area as [|o rest IH]; [reflexivity|]. simpl.
    rewrite map_app, IH. unfold report.
    destruct (in_bounds G (plus a o)) eqn:Hb; [|reflexivity]. simpl.
    apply in_bounds_on_grid in Hb. specialize (Hs _ Hb).
    destruct (Z.eqb_spec (data (_grid G) (plus a o)) EMPTY); [reflexivity|].
    destruct (Z.eqb_spec (data (_grid G) (plus a o)) AGENT); [reflexivity|].
    destruct (Z.eqb_spec (data (_grid G) (plus a o)) PREV_AGENT);
      [reflexivity|].
    destruct (Z.eqb_spec (data (_grid G) (plus a o)) WALL); [reflexivity|].
    destruct (Z.eqb_spec (data (_grid G) (plus a o)) TARGET); [reflexivity|].
    destruct (Z.eqb_spec (data (_grid G) (plus a o)) BOTH); [reflexivity|].
    exfalso. unfold EMPTY, AGENT, PREV_AGENT, WALL, TARGET, BOTH in *. lia.
  - intros o st Hin c. apply in_flat_map in Hin.
    destruct Hin as (o0 & _ & Hin). apply in_report in Hin.
    destruct Hin as [-> Hcase]. fold c in Hcase.
    unfold marked, SCAN_OUT_OF_BOUNDS, SCAN_EMPTY, SCAN_WALL, SCAN_TARGET,
      EMPTY, AGENT, PREV_AGENT, WALL, TARGET, BOTH in *.
    destruct Hcase as [[-> Hoff]|[Hon [[-> Hv]|[[-> Hv]|[-> Hv]]]]].
    + split; [auto|]. split; [tauto|]. split.
      * split; [discriminate|]. tauto.
      * split; [discriminate|]. tauto.
    + split; [auto|]. split; [split; [discriminate|tauto]|]. split.
      * split; [discriminate|]. intros [_ E]. lia.
      * split; [discriminate|]. intros [_ E]. lia.
    + split; [auto|]. split; [split; [discriminate|tauto]|]. split.
      * tauto.
      * split; [discriminate|]. intros [_ E]. lia.
    + split; [auto|]. split; [split; [discriminate|tauto]|]. split.
      * split; [discriminate|]. intros [_ E]. lia.
      * tauto.
Qed.

(** X20.  On a consistent grid with agent and target placed, scanning the
    offset that [relative_target_pos] returns reports the target, and a
    scan reports [TARGET] at no other offset. *)
Theorem scan_finds_the_target (G : Grid) (a t : cell) (area : list cell) :
  consistent G -> agent_pos G = Some a -> target_pos G = Some t ->
  exists offset,
    relative_target_pos G = Ok offset
    /\ scan G [offset] = Ok [(offset, SCAN_TARGET)]
    /\ exists res,
         scan G area = Ok res
         /\ forall o, In (o, SCAN_TARGET) res <-> In o area /\ o = offset.
Proof.
  intros HG Ha Ht. exists (minus t a).
  assert (plus a (minus t a) = t) as Hrel.
  { destruct a, t. unfold plus, minus. simpl. f_equal; lia. }
  destruct (target_on_grid G HG t Ht) as [Hon Hmark].
  assert (report G a (minus t a) = [(minus t a, SCAN_TARGET)]) as Hrep.
  { unfold report. rewrite Hrel.
    rewrite (proj2 (in_bounds_on_grid G t) Hon). simpl.
    unfold marked, EMPTY, AGENT, PREV_AGENT, WALL, TARGET, BOTH in *.
    destruct Hmark as [-> | ->]; reflexivity. }
  split; [|split].
  - unfold relative_target_pos. now rewrite Ht, Ha.
  - unfold scan. rewrite (scan_loop_reports G a _ [] Ha). simpl.
    now rewrite Hrep.
  - exists (flat_map (report G a) area). split.
    + unfold scan. now rewrite (scan_loop_reports G a area [] Ha).
    + intros o. rewrite in_flat_map. split.
      * intros (o0 & Hin & Hr). apply in_report in Hr.
        destruct Hr as [-> Hcase]. split; [exact Hin|].
        unfold SCAN_OUT_OF_BOUNDS, SCAN_EMPTY, SCAN_WALL, SCAN_TARGET,
          EMPTY, WALL, TARGET in Hcase.
        destruct Hcase as [[E _]|[Hc [[E _]|[[E _]|[_ Hm]]]]];
          try discriminate E.
        pose proof (only_target_marked G HG _ Hc Hm) as Heq.
        rewrite Ht in Heq. injection Heq as Heq.
        destruct a, t, o0. unfold plus, minus in *. simpl in *.
        injection Heq as H1 H2. f_equal; lia.
      * intros [Hin ->]. exists (minus t a). split; [exact Hin|].
        rewrite Hrep. now left.
Qed.

(** *** Grids built through the methods of the class *)

Inductive call :=
| PlaceAgent (row col : Z)
| PlaceTarget (row col : Z)
| AgentMove (dir : Direction).

Definition do_call (G : Grid) (c : call) : result (bool * Grid) :=
  match c with
  | PlaceAgent row col => place_agent G row col
  | PlaceTarget row col => place_target G row col
  | AgentMove dir => agent_move G dir
  end.

(** The grids reached from [Grid(grid_size)] by calls that returned. *)
Inductive built (grid_size : Z * Z) : Grid -> Prop :=
| built_init : built grid_size (init grid_size)
| built_call G c r G' :
    built grid_size G -> do_call G c = Ok (r, G') -> built grid_size G'.

Lemma do_call_keeps G c r G' :
  consistent G -> statuses G -> do_call G c = Ok (r, G') ->
  consistent G' /\ statuses G' /\ same_walls G G'.
Proof.
  intros HG Hs Hc.
  assert (forall k, on_grid G k -> data (_grid G) k <> WALL ->
            consistent (with_agent G k) /\ statuses (with_agent G k)
            /\ same_walls G (with_agent G k)) as Hagent.
  { intros k Hb Hw.
    destruct (with_agent_consistent G k HG Hb Hw) as (H1 & H2 & H3). auto. }
  assert (consistent G /\ statuses G /\ same_walls G G) as Hsame
    by (split; [exact HG|split; [exact Hs|apply same_walls_refl]]).
  destruct c as [row col|row col|dir]; simpl in Hc.
  - destruct (place_agent_cases G row col HG) as [(Hb & Hw & Hp)|[_ Hp]];
      rewrite Hp in Hc; injection Hc as <- <-; auto.
  - destruct (place_target_cases G row col HG) as [(Hb & Hw & Hp)|[_ Hp]];
      rewrite Hp in Hc; injection Hc as <- <-; [|exact Hsame].
    destruct (with_target_consistent G (row, col) HG Hb Hw) as (H1 & H2 & H3).
    auto.
  - destruct (agent_pos G) as [a|] eqn:Ha.
    + destruct (agent_move_cases G a dir HG Ha) as [(Hb & Hw & Hp)|[_ Hp]];
        rewrite Hp in Hc; injection Hc as <- <-; auto.
    + unfold agent_move in Hc. rewrite Ha in Hc. discriminate.
Qed.

Lemma built_keeps grid_size G :
  built grid_size G ->
  consistent G /\ statuses G /\ shape (_grid G) = grid_size
  /\ forall c, on_grid G c -> data (_grid G) c <> WALL.
Proof.
  intros H. induction H as [|G c r G' HG IH Hc].
  - split; [constructor|split; [|split]]; simpl.
    + intros a E. discriminate E.
    + intros t E. discriminate E.
    + intros c _ [E|E]; discriminate E.
    + intros c _. simpl. lia.
    + reflexivity.
    + intros c _. unfold WALL. lia.
  - destruct IH as (H1 & H2 & H3 & H4).
    destruct (do_call_keeps G c r G' H1 H2 Hc) as (H1' & H2' & Hs & Hw).
    split; [exact H1'|]. split; [exact H2'|]. split; [congruence|].
    intros k Hk E. assert (on_grid G k) as Hk'
      by (unfold on_grid in *; now rewrite <- Hs).
    apply (H4 k Hk'). now apply Hw.
Qed.

(** X21.  A grid reached from [Grid(grid_size)] through [place_agent],
    [place_target] and [agent_move] calls that returned keeps its size, is
    consistent, holds only members of [GridStatus] and has no wall; so on
    such a grid [place_agent] and [place_target] return [True] exactly for
    the cells of the grid. *)
Theorem built_grid_has_no_wall (grid_size : Z * Z) (G : Grid) :
  built grid_size G ->
  shape (_grid G) = grid_size
  /\ consistent G /\ statuses G
  /\ (forall c, on_grid G c -> data (_grid G) c <> WALL)
  /\ forall row col,
       (exists G', place_agent G row col = Ok (in_bounds G (row, col), G'))
       /\ (exists G', place_target G row col = Ok (in_bounds G (row, col), G')).
Proof.
  intros H. destruct (built_keeps grid_size G H) as (HG & Hs & Hshape & Hw).
  split; [exact Hshape|]. split; [exact HG|]. split; [exact Hs|].
  split; [exact Hw|]. intros row col.
  destruct (in_bounds G (row, col)) eqn:Hb.
  - apply in_bounds_on_grid in Hb. split.
    + destruct (place_agent_cases G row col HG) as [(_ & _ & Hp)|[Hn _]];
        [eauto|]. exfalso. apply Hn. split; [exact Hb|now apply Hw].
    + destruct (place_target_cases G row col HG) as [(_ & _ & Hp)|[Hn _]];
        [eauto|]. exfalso. apply Hn. split; [exact Hb|now apply Hw].
  - assert (~ on_grid G (row, col)) as Hoff.
    { intros Hon. apply in_bounds_on_grid in Hon. congruence. }
    split.
    + destruct (place_agent_cases G row col HG) as [(Hon & _)|[_ Hp]];
        [contradiction|eauto].
    + destruct (place_target_cases G row col HG) as [(Hon & _)|[_ Hp]];
        [contradiction|eauto].
Qed.

(** The run of [__main__]: a grid of ten by ten cells, the agent placed at
    (3, 3), the target at (2, 2), and one move up. *)
Definition main_placed : Grid :=
  with_target (with_agent (init (10, 10)) (3, 3)) (2, 2).

Definition main_moved : Grid := with_agent main_placed (2, 3).

Lemma main_placed_built : built (10, 10) main_placed.
Proof.
  apply (built_call _ (with_agent (init (10, 10)) (3, 3))
           (PlaceTarget 2 2) true).
  - apply (built_call _ (init (10, 10)) (PlaceAgent 3 3) true).
    + constructor.
    + reflexivity.
  - reflexivity.
Qed.

Lemma main_moved_built : built (10, 10) main_moved.
Proof.
  apply (built_call _ main_placed (AgentMove UP) true).
  - exact main_placed_built.
  - reflexivity.
Qed.

Lemma main_placed_consistent : consistent main_placed.
Proof. exact (proj1 (built_keeps _ _ main_placed_built)). Qed.

Lemma place_agent_keeps_the_grid_consistent_witness :
  exists placed G',
    place_agent main_placed 2 2 = Ok (placed, G')
    /\ (placed = true
        <-> on_grid main_placed (2, 2)
            /\ data (_grid main_placed) (2, 2) <> WALL)
    /\ (placed = true ->
        agent_pos G' = Some (2, 2) /\ target_pos G' = target_pos main_placed)
    /\ (placed = false -> G' = main_placed)
    /\ consistent G' /\ same_walls main_placed G'.
Proof.
  exact (place_agent_keeps_the_grid_consistent main_placed 2 2
           main_placed_consistent).
Defined.

Lemma place_target_keeps_the_grid_consistent_witness :
  exists placed G',
    place_target main_placed 3 3 = Ok (placed, G')
    /\ (placed = true
        <-> on_grid main_placed (3, 3)
            /\ data (_grid main_placed) (3, 3) <> WALL)
    /\ (placed = true ->
        target_pos G' = Some (3, 3) /\ agent_pos G' = agent_pos main_placed
        /\ forall t, target_pos main_placed = Some t -> t <> (3, 3) ->
             data (_grid G') t = EMPTY)
    /\ (placed = false -> G' = main_placed)
    /\ consistent G' /\ same_walls main_placed G'.
Proof.
  exact (place_target_keeps_the_grid_consistent main_placed 3 3
           main_placed_consistent).
Defined.

Lemma agent_move_one_cell_and_back_witness :
  exists moved G',
    agent_move main_placed UP = Ok (moved, G')
    /\ (moved = true
        <-> on_grid main_placed (plus (3, 3) (delta UP))
            /\ data (_grid main_placed) (plus (3, 3) (delta UP)) <> WALL)
    /\ (moved = true ->
        agent_pos G' = Some (plus (3, 3) (delta UP))
        /\ exists G'', agent_move G' (opposite UP) = Ok (true, G'')
                       /\ agent_pos G'' = Some (3, 3))
    /\ (moved = false -> G' = main_placed)
    /\ consistent G' /\ same_walls main_placed G'.
Proof.
  exact (agent_move_one_cell_and_back main_placed (3, 3) UP
           main_placed_consistent eq_refl).
Defined.

Lemma scan_reports_every_offset_witness :
  exists res,
    scan main_placed [(-1, -1); (0, 0); (-4, 0)] = Ok res
    /\ map fst res = [(-1, -1); (0, 0); (-4, 0)]
    /\ forall o st, In (o, st) res ->
         (st = SCAN_OUT_OF_BOUNDS \/ st = SCAN_EMPTY \/ st = SCAN_WALL
          \/ st = SCAN_TARGET)
         /\ (st = SCAN_OUT_OF_BOUNDS <-> ~ on_grid main_placed (plus (3, 3) o))
         /\ (st = SCAN_WALL
             <-> on_grid main_placed (plus (3, 3) o)
                 /\ data (_grid main_placed) (plus (3, 3) o) = WALL)
         /\ (st = SCAN_TARGET
             <-> on_grid main_placed (plus (3, 3) o)
                 /\ marked main_placed (plus (3, 3) o)).
Proof.
  apply (scan_reports_every_offset main_placed (3, 3)
           [(-1, -1); (0, 0); (-4, 0)] eq_refl).
  exact (proj1 (proj2 (built_keeps _ _ main_placed_built))).
Defined.

Lemma scan_finds_the_target_witness :
  exists offset,
    relative_target_pos main_placed = Ok offset
    /\ scan main_placed [offset] = Ok [(offset, SCAN_TARGET)]
    /\ exists res,
         scan main_placed [(0, 1); (-1, -1); (1, 1)] = Ok res
         /\ forall o, In (o, SCAN_TARGET) res
                      <-> In o [(0, 1); (-1, -1); (1, 1)] /\ o = offset.
Proof.
  exact (scan_finds_the_target main_placed (3, 3) (2, 2)
           [(0, 1); (-1, -1); (1, 1)] main_placed_consistent
           eq_refl eq_refl).
Defined.

Lemma built_grid_has_no_wall_witness :
  shape (_grid main_moved) = (10, 10)
  /\ consistent main_moved /\ statuses main_moved
  /\ (forall c, on_grid main_moved c -> data (_grid main_moved) c <> WALL)
  /\ forall row col,
       (exists G',
          place_agent main_moved row col
          = Ok (in_bounds main_moved (row, col), G'))
       /\ (exists G',
             place_target main_moved row col
             = Ok (in_bounds main_moved (row, col), G')).
Proof.
  exact (built_grid_has_no_wall (10, 10) main_moved main_moved_built).
Defined.

End GridWorld.
